(** * Icon resizer: the rasterization pipeline of [src/app/page.tsx]

    A shallow embedding of [IconResizerDashboard]: the size-text parser,
    the aspect-fit arithmetic, the file-name derivation, and the
    [processImages] / [clearAll] handlers run against an explicit model of
    the page state and of the browser's object-URL store.
    The other handlers ([handleDrag], [handleDrop], [handleFileSelect],
    [downloadIcon], [downloadAllAsZip]) and the guards of the buttons are
    added on top, as events of a session.

    Conventions.
    - A JavaScript string is a sequence of 16-bit code units; the model keeps
      the code units below 256, which is what [string] holds.
    - A JavaScript Number that holds an integer is modelled by that integer
      ([num]); this is exact on the safe integers (magnitude at most 2^53).
      The aspect-fit arithmetic and the progress percentage are computed on
      IEEE-754 doubles ([float], the kernel's binary64), as the engine does;
      what is proved of them is derived from the Standard Library's
      specification of the operations ([SpecFloat], [FloatAxioms]). *)

From Stdlib Require Import ZArith QArith Qminmax Qabs String Ascii DecimalString DecimalPos List Bool Lia Floats.
From Stdlib Require HexadecimalString HexadecimalPos.
From Stdlib Require Import Qpower Lqa.
From stdpp Require Import base decidable countable gmap.
Import ListNotations.

#[local] Set Warnings "-clear-no-such-hyp".

Local Open Scope string_scope.
Local Open Scope Z_scope.

(** ** Strings *)

Module Str.

(** [String.prototype.split(sep)] for a one-character separator: every
    occurrence of [sep] ends an entry, so the result is never empty and
    [split sep ""] is [[""]]. *)
Fixpoint split (sep : ascii) (s : string) : list string :=
  match s with
  | EmptyString => [EmptyString]
  | String c s' =>
      if Ascii.eqb c sep then EmptyString :: split sep s'
      else match split sep s' with
           | hd :: tl => String c hd :: tl
           | [] => [String c EmptyString]
           end
  end.

(** WhiteSpace and LineTerminator code units below 256: TAB, LF, VT, FF, CR,
    SP and NBSP. *)
Definition isWhiteSpace (c : ascii) : bool :=
  let n := nat_of_ascii c in
  (Nat.leb 9 n && Nat.leb n 13) || Nat.eqb n 32 || Nat.eqb n 160.

Fixpoint trimStart (s : string) : string :=
  match s with
  | EmptyString => EmptyString
  | String c s' => if isWhiteSpace c then trimStart s' else s
  end.

Fixpoint trimEnd (s : string) : string :=
  match s with
  | EmptyString => EmptyString
  | String c s' =>
      match trimEnd s' with
      | EmptyString => if isWhiteSpace c then EmptyString else String c EmptyString
      | t => String c t
      end
  end.

(** [String.prototype.trim]. *)
Definition trim (s : string) : string := trimStart (trimEnd s).

(** [Array.prototype.join(sep)] on strings, used to state round trips. *)
Fixpoint join (sep : ascii) (l : list string) : string :=
  match l with
  | [] => EmptyString
  | [s] => s
  | s :: l' => s ++ String sep (join sep l')
  end.

End Str.

(** ** Numbers *)

(** The Numbers that [Number.parseInt] can return: [NaN], or an integer.
    Negative zero is identified with zero; the only test the source applies
    to these values, [s > 0], does not tell them apart. *)
Inductive num : Type :=
  | NaN
  | Int (z : Z).

Module Num.

(** The value of [c] as a digit in radix [R] (10 or 16 here). *)
Definition digitValue (R : Z) (c : ascii) : option Z :=
  let n := Z.of_nat (nat_of_ascii c) in
  if (48 <=? n) && (n <=? 57) then Some (n - 48)
  else if (R =? 16) && (97 <=? n) && (n <=? 102) then Some (n - 87)
  else if (R =? 16) && (65 <=? n) && (n <=? 70) then Some (n - 55)
  else None.

(** Steps 8 to 10 of parseInt: the longest prefix of radix-[R] digits, read
    most significant digit first. [acc] is [None] until a digit is seen. *)
Fixpoint scanDigits (R : Z) (s : string) (acc : option Z) : option Z :=
  match s with
  | EmptyString => acc
  | String c s' =>
      match digitValue R c with
      | Some d => scanDigits R s' (Some (R * default 0 acc + d))
      | None => acc
      end
  end.

(** Step 7: with no radix argument, a leading 0x or 0X selects radix 16. *)
Definition stripPrefix (s : string) : Z * string :=
  match s with
  | String "0" (String "x" s') => (16, s')
  | String "0" (String "X" s') => (16, s')
  | _ => (10, s)
  end.

(** [Number.parseInt(s)] called with one argument. The integer read is
    returned as it is: up to [2^53] in magnitude that is the Number the
    engine returns; beyond, the engine returns a nearest double. *)
Definition parseInt (s : string) : num :=
  let trimmed := Str.trimStart s in
  let '(sign, unsigned) :=
    match trimmed with
    | String "-" rest => (-1, rest)
    | String "+" rest => (1, rest)
    | _ => (1, trimmed)
    end in
  let '(R, digits) := stripPrefix unsigned in
  match scanDigits R digits None with
  | None => NaN
  | Some mathInt => Int (sign * mathInt)
  end.

(** The comparison [s > 0]: false on [NaN]. *)
Definition gt0 (s : num) : bool :=
  match s with
  | NaN => false
  | Int z => 0 <? z
  end.

(** [Number::toString] on the integers: decimal digits, a minus sign for
    negatives; [NaN] prints as its name. (The exponent notation of large
    Numbers starts at 10^21, beyond the safe integers.) *)
Definition toString (n : num) : string :=
  match n with
  | NaN => "NaN"
  | Int z => NilZero.string_of_int (Z.to_int z)
  end.

(** The double nearest to an integer (round to nearest, ties to even). *)
Definition Z2F (z : Z) : float := SF2Prim (binary_normalize prec emax z 0 false).

Definition toFloat (n : num) : float :=
  match n with
  | NaN => nan
  | Int z => Z2F z
  end.

(** [Math.min] on two arguments: [NaN] if either is, and [-0] below [+0]. *)
Definition Math_min (a b : float) : float :=
  if is_nan a || is_nan b then nan
  else if PrimFloat.ltb a b then a
  else if PrimFloat.ltb b a then b
  else if get_sign a then a else b.

End Num.

(** Lines 135 to 138: [sizes.split(",").map((s) => Number.parseInt(s.trim()))
    .filter((s) => s > 0)]. *)
Definition parseSizes (sizes : string) : list num :=
  List.filter (fun s => Num.gt0 s)
    (List.map (fun s => Num.parseInt (Str.trim s)) (Str.split "," sizes)).

(** ** File names *)

(** [s] matches [[^/.]*] as a whole. *)
Fixpoint noSlashDot (s : string) : bool :=
  match s with
  | EmptyString => true
  | String c s' => negb (Ascii.eqb c "/") && negb (Ascii.eqb c ".") && noSlashDot s'
  end.

(** Line 188: [name.replace(/\.[^/.]+$/, "")]. The leftmost position where
    the pattern matches is a dot followed, up to the end of the name, by one
    or more characters that are neither a slash nor a dot; the match is
    replaced by the empty string. *)
Fixpoint baseName (name : string) : string :=
  match name with
  | EmptyString => EmptyString
  | String c rest =>
      if Ascii.eqb c "." && negb (String.eqb rest "") && noSlashDot rest
      then EmptyString
      else String c (baseName rest)
  end.

(** Line 189: the template [`${baseName}_${size}x${size}.png`]. *)
Definition outputName (name : string) (size : num) : string :=
  baseName name ++ "_" ++ Num.toString size ++ "x" ++ Num.toString size ++ ".png".

(** Line 192: the template [`${file.name}-${size}`]. *)
Definition iconId (name : string) (size : num) : string :=
  name ++ "-" ++ Num.toString size.

(** ** Aspect-fit placement *)

Module Placement.
Record t : Type := mk
  { scale : float; scaledWidth : float; scaledHeight : float; x : float; y : float }.
End Placement.

(** Lines 173 to 177, on doubles. [size] is the target edge, [width] and
    [height] are [img.width] and [img.height]. *)
Definition fit (size : num) (width height : Z) : Placement.t :=
  let size := Num.toFloat size in
  let width := Num.Z2F width in
  let height := Num.Z2F height in
  let scale := Num.Math_min (size / width)%float (size / height)%float in
  let scaledWidth := (width * scale)%float in
  let scaledHeight := (height * scale)%float in
  let x := ((size - scaledWidth) / 2)%float in
  let y := ((size - scaledHeight) / 2)%float in
  Placement.mk scale scaledWidth scaledHeight x y.

(** The same five formulas over the rationals, with no rounding. *)
Module Exact.
Record t : Type := mk
  { scale : Q; scaledWidth : Q; scaledHeight : Q; x : Q; y : Q }.

Definition fit (size width height : Z) : t :=
  let size := inject_Z size in
  let width := inject_Z width in
  let height := inject_Z height in
  let scale := Qmin (size / width)%Q (size / height)%Q in
  let scaledWidth := (width * scale)%Q in
  let scaledHeight := (height * scale)%Q in
  let x := ((size - scaledWidth) / 2)%Q in
  let y := ((size - scaledHeight) / 2)%Q in
  mk scale scaledWidth scaledHeight x y.
End Exact.

(** ** Page state and browser *)

Module File.
(** A selected [File] and what the browser makes of it: [image] is the
    decoded [img.width] and [img.height] when [onload] fires, and [None] when
    [onerror] fires instead. *)
Record t : Type := mk { name : string; image : option (Z * Z) }.
End File.

(** Lines 169 and 170, [canvas.width = size] and [canvas.height = size]. The
    attributes are of type [unsigned long]: the Number is taken modulo 2^32,
    and a value above 2^31 - 1 is replaced by the attribute's default, 300
    for the width and 150 for the height. *)
Definition canvasEdge (default : Z) (size : num) : Z :=
  match size with
  | NaN => 0
  | Int z =>
      let v := z mod 2 ^ 32 in
      if v <=? 2147483647 then v else default
  end.

Module Blob.
(** What [canvas.toBlob] encodes: the canvas edges and the one [drawImage]
    call made on the cleared canvas. *)
Record t : Type := mk
  { width : Z; height : Z; source : string; drawn : Placement.t }.
End Blob.

Module Icon.
(** [interface ProcessedIcon]. An object URL is its handle in the store. *)
Record t : Type := mk
  { id : string; originalName : string; size : num; blob : Blob.t;
    url : nat; filename : string }.
End Icon.

Module Toast.
Record t : Type := mk { title : string; description : string; destructive : bool }.
End Toast.

(** The component's [useState] cells and file input, and the part of the
    browser the handlers act on: the store of live object URLs with its next
    fresh handle, and the toasts shown, newest first. [progressLog] keeps
    every argument [setProgress] was called with, newest first. *)
Record World : Type := mkWorld
  { files : list File.t;
    sizes : string;
    processedIcons : list Icon.t;
    isProcessing : bool;
    progress : float;
    fileInput : string;
    objectURLs : gset nat;
    nextURL : nat;
    toasts : list Toast.t;
    progressLog : list float }.

(** A statement either completes normally with a value or throws. *)
Inductive completion (A : Type) : Type :=
  | Normal (a : A)
  | Thrown.
Arguments Normal {A} a.
Arguments Thrown {A}.

Definition JS (A : Type) : Type := World -> completion A * World.

Definition ret {A} (a : A) : JS A := fun w => (Normal a, w).

Definition bind {A B} (m : JS A) (k : A -> JS B) : JS B :=
  fun w => match m w with
           | (Normal a, w') => k a w'
           | (Thrown, w') => (Thrown, w')
           end.

Definition throw {A} : JS A := fun w => (Thrown, w).

Definition tryCatch {A} (body : JS A) (handler : JS A) : JS A :=
  fun w => match body w with
           | (Normal a, w') => (Normal a, w')
           | (Thrown, w') => handler w'
           end.

Definition tryFinally {A} (body : JS A) (finalizer : JS unit) : JS A :=
  fun w => let '(r, w') := body w in
           match finalizer w' with
           | (Normal _, w'') => (r, w'')
           | (Thrown, w'') => (Thrown, w'')
           end.

Declare Scope js_scope.
Delimit Scope js_scope with js.
Notation "x <- m ;; k" := (bind m (fun x => k))
  (at level 100, m at next level, right associativity) : js_scope.
Notation "m ;; k" := (bind m (fun _ => k))
  (at level 100, right associativity) : js_scope.

(** [for (const a of l) body], threading the locals the body updates. *)
Fixpoint forOf {A B} (l : list A) (body : A -> B -> JS B) (locals : B) : JS B :=
  match l with
  | [] => ret locals
  | a :: l' => bind (body a locals) (forOf l' body)
  end.

Definition run (m : JS unit) (w : World) : World := snd (m w).

Definition toast (t : Toast.t) : JS unit := fun w =>
  (Normal tt,
   mkWorld (files w) (sizes w) (processedIcons w) (isProcessing w) (progress w)
     (fileInput w) (objectURLs w) (nextURL w) (t :: toasts w) (progressLog w)).

Definition setIsProcessing (b : bool) : JS unit := fun w =>
  (Normal tt,
   mkWorld (files w) (sizes w) (processedIcons w) b (progress w)
     (fileInput w) (objectURLs w) (nextURL w) (toasts w) (progressLog w)).

Definition setProgress (p : float) : JS unit := fun w =>
  (Normal tt,
   mkWorld (files w) (sizes w) (processedIcons w) (isProcessing w) p
     (fileInput w) (objectURLs w) (nextURL w) (toasts w) (p :: progressLog w)).

Definition setProcessedIcons (icons : list Icon.t) : JS unit := fun w =>
  (Normal tt,
   mkWorld (files w) (sizes w) icons (isProcessing w) (progress w)
     (fileInput w) (objectURLs w) (nextURL w) (toasts w) (progressLog w)).

Definition setFiles (fs : list File.t) : JS unit := fun w =>
  (Normal tt,
   mkWorld fs (sizes w) (processedIcons w) (isProcessing w) (progress w)
     (fileInput w) (objectURLs w) (nextURL w) (toasts w) (progressLog w)).

Definition setFileInput (v : string) : JS unit := fun w =>
  (Normal tt,
   mkWorld (files w) (sizes w) (processedIcons w) (isProcessing w) (progress w)
     v (objectURLs w) (nextURL w) (toasts w) (progressLog w)).

(** [URL.createObjectURL]: a fresh handle, live until revoked. *)
Definition createObjectURL : JS nat := fun w =>
  (Normal (nextURL w),
   mkWorld (files w) (sizes w) (processedIcons w) (isProcessing w) (progress w)
     (fileInput w) ({[ nextURL w ]} ∪ objectURLs w) (S (nextURL w))
     (toasts w) (progressLog w)).

(** [URL.revokeObjectURL]. *)
Definition revokeObjectURL (u : nat) : JS unit := fun w =>
  (Normal tt,
   mkWorld (files w) (sizes w) (processedIcons w) (isProcessing w) (progress w)
     (fileInput w) (objectURLs w ∖ {[ u ]}) (nextURL w)
     (toasts w) (progressLog w)).

(** Lines 160 to 164: the promise resolves on [onload], rejects on [onerror]. *)
Definition loadImage (file : File.t) : JS (Z * Z) :=
  match File.image file with
  | Some dims => ret dims
  | None => throw
  end.

(** ** The handlers *)

Local Open Scope js_scope.

(** Line 201: [(completedOperations / totalOperations) * 100]. *)
Definition percent (completedOperations totalOperations : Z) : float :=
  (Num.Z2F completedOperations / Num.Z2F totalOperations * 100)%float.

(** Lines 166 to 202, one turn of the inner loop. The locals are
    [newProcessedIcons] and [completedOperations]. The blob records the
    canvas and the [drawImage] call.

    The turn is modelled as the source's non-null assertions read: the
    canvas yields a 2d context and [toBlob] yields a blob. A browser gives
    neither for a canvas without pixels (an edge of 0, which a size that is
    a multiple of 2^32 leads to) or beyond its own limits on canvas sizes;
    there the real turn throws into the [catch] of [processImages] and the
    run ends as failed although the file has decoded. Such runs are outside
    this model: what is proved of a run that completes, or of a run that
    fails on a file that does not decode, holds of the source; that a run
    completes whenever every file decodes holds of the model only. *)
Definition renderSize (file : File.t) (img : Z * Z) (totalOperations : Z)
    (size : num) (locals : list Icon.t * Z) : JS (list Icon.t * Z) :=
  let '(newProcessedIcons, completedOperations) := locals in
  let blob :=
    Blob.mk (canvasEdge 300 size) (canvasEdge 150 size) (File.name file)
      (fit size (fst img) (snd img)) in
  processedUrl <- createObjectURL ;;
  let filename := outputName (File.name file) size in
  let newProcessedIcons :=
    (newProcessedIcons ++
       [Icon.mk (iconId (File.name file) size) (File.name file) size blob
          processedUrl filename])%list in
  let completedOperations := completedOperations + 1 in
  setProgress (percent completedOperations totalOperations) ;;
  ret (newProcessedIcons, completedOperations).

(** Lines 155 to 205, one turn of the outer loop. *)
Definition renderFile (sizeArray : list num) (totalOperations : Z)
    (file : File.t) (locals : list Icon.t * Z) : JS (list Icon.t * Z) :=
  imageUrl <- createObjectURL ;;
  img <- loadImage file ;;
  locals <- forOf sizeArray (renderSize file img totalOperations) locals ;;
  revokeObjectURL imageUrl ;;
  ret locals.

(** Lines 125 to 221. *)
Definition processImages : JS unit := fun w =>
  if Nat.eqb (length (files w)) 0 then
    toast (Toast.mk "No files selected"
             "Please select some SVG or PNG files first" true) w
  else
    let sizeArray := parseSizes (sizes w) in
    if Nat.eqb (length sizeArray) 0 then
      toast (Toast.mk "Invalid sizes"
               "Please enter valid comma-separated sizes" true) w
    else
      (setIsProcessing true ;;
       setProgress 0 ;;
       let totalOperations := Z.of_nat (length (files w) * length sizeArray) in
       tryFinally
         (tryCatch
            (locals <- forOf (files w) (renderFile sizeArray totalOperations) ([], 0) ;;
             let newProcessedIcons := fst locals in
             setProcessedIcons newProcessedIcons ;;
             toast (Toast.mk "Processing complete!"
                      ("Generated " ++
                       Num.toString (Int (Z.of_nat (length newProcessedIcons))) ++
                       " icons") false))
            (toast (Toast.mk "Processing failed"
                      "An error occurred while processing images" true)))
         (setIsProcessing false)) w.

(** Lines 254 to 262. *)
Definition clearAll : JS unit := fun w =>
  (forOf (processedIcons w) (fun icon _ => revokeObjectURL (Icon.url icon)) tt ;;
   setProcessedIcons [] ;;
   setFiles [] ;;
   setProgress 0 ;;
   setFileInput "") w.

(** ** What a run produces, as pure functions *)

Definition iconFor (file : File.t) (img : Z * Z) (size : num) (u : nat) : Icon.t :=
  Icon.mk (iconId (File.name file) size) (File.name file) size
    (Blob.mk (canvasEdge 300 size) (canvasEdge 150 size) (File.name file)
       (fit size (fst img) (snd img)))
    u (outputName (File.name file) size).

(** The icons of one decoded file, their object URLs numbered from [u]. *)
Fixpoint iconsOfSizes (file : File.t) (img : Z * Z) (sizeArray : list num) (u : nat)
    : list Icon.t :=
  match sizeArray with
  | [] => []
  | size :: rest => iconFor file img size u :: iconsOfSizes file img rest (S u)
  end.

(** The icons of the files up to the first that does not decode. Each file
    takes one object URL for itself before those of its icons. *)
Fixpoint iconsOfFiles (fs : list File.t) (sizeArray : list num) (u : nat)
    : list Icon.t :=
  match fs with
  | [] => []
  | file :: rest =>
      match File.image file with
      | Some img =>
          (iconsOfSizes file img sizeArray (S u) ++
           iconsOfFiles rest sizeArray (S u + length sizeArray))%list
      | None => []
      end
  end.

Definition decodes (file : File.t) : bool :=
  match File.image file with Some _ => true | None => false end.

(** The files decoded before the first failure. *)
Fixpoint decodedPrefix (fs : list File.t) : list File.t :=
  match fs with
  | [] => []
  | file :: rest => if decodes file then file :: decodedPrefix rest else []
  end.

(** The cells that the two loops never write. *)
Definition untouched (w : World) :=
  (files w, sizes w, processedIcons w, isProcessing w, fileInput w, toasts w).

(** The percentages reported for operations [c + 1] to [c + n] out of [total],
    in the order of the calls. *)
Definition reports (total c : Z) (n : nat) : list float :=
  List.map (fun k => percent (c + Z.of_nat k) total) (seq 1 n).

(** ** Runs *)

Definition noFilesToast : Toast.t :=
  Toast.mk "No files selected" "Please select some SVG or PNG files first" true.

Definition invalidSizesToast : Toast.t :=
  Toast.mk "Invalid sizes" "Please enter valid comma-separated sizes" true.

Definition failedToast : Toast.t :=
  Toast.mk "Processing failed" "An error occurred while processing images" true.

Definition completeToast (n : nat) : Toast.t :=
  Toast.mk "Processing complete!"
    ("Generated " ++ Num.toString (Int (Z.of_nat n)) ++ " icons") false.

(** The run passed validation: there is a file and there is a size. *)
Definition started (w : World) : Prop :=
  files w <> [] /\ parseSizes (sizes w) <> [].

(** The run was signalled as complete, as failed, or was rejected. *)
Definition succeeded (w w' : World) : Prop :=
  exists n, toasts w' = completeToast n :: toasts w.

Definition failed (w w' : World) : Prop :=
  toasts w' = failedToast :: toasts w.

Definition rejected (w w' : World) : Prop :=
  exists t, (t = noFilesToast \/ t = invalidSizesToast) /\
            toasts w' = t :: toasts w.

(** [totalOperations], line 151. *)
Definition totalOperations (w : World) : nat :=
  (length (files w) * length (parseSizes (sizes w)))%nat.

(** The pairs completed before the run ends. *)
Definition completedPairs (w : World) : nat :=
  (length (decodedPrefix (files w)) * length (parseSizes (sizes w)))%nat.

(** ** Object URLs, progress and names: what the properties speak of *)

(** The handle of every visible icon is live and was handed out before
    [nextURL]. *)
Definition handlesLive (w : World) : Prop :=
  forall icon, In icon (processedIcons w) ->
    Icon.url icon ∈ objectURLs w /\ (Icon.url icon < nextURL w)%nat.

(** The exact value of the ratio [completed / total]. *)
Definition ratio (completed total : Z) : Q := (inject_Z completed / inject_Z total)%Q.

(** A list of reported percentages climbs: no report exceeds [100] and each
    is at most the one that follows it (IEEE comparison on doubles). *)
Fixpoint climbs (l : list float) : bool :=
  match l with
  | [] => true
  | a :: rest =>
      PrimFloat.leb a 100 &&
      match rest with b :: _ => PrimFloat.leb a b | [] => true end &&
      climbs rest
  end.

(** [s] contains no dot. *)
Fixpoint noDot (s : string) : bool :=
  match s with
  | EmptyString => true
  | String c s' => negb (Ascii.eqb c ".") && noDot s'
  end.

(** ** Doubles against exact values *)

(** The rational a finite double stands for. *)
Definition F2Q (f : float) : option Q :=
  match Prim2SF f with
  | S754_zero _ => Some 0%Q
  | S754_finite s m e =>
      Some (inject_Z (if s then Z.neg m else Z.pos m) * Qpower 2 e)%Q
  | _ => None
  end.

(** [f] is finite and differs from [q] by at most [tol]. *)
Definition near (tol : Q) (f : float) (q : Q) : bool :=
  match F2Q f with
  | Some v => Qle_bool (Qabs (v - q)) tol
  | None => false
  end.

(** The placement computed on doubles agrees with the exact one: the scale
    within [2^-52] of its value, the lengths and offsets within [2^-51] of
    the target size. *)
Definition agrees (size : Z) (p : Placement.t) (e : Exact.t) : bool :=
  let tol := (inject_Z size * Qpower 2 (-51))%Q in
  near (Exact.scale e * Qpower 2 (-52))%Q (Placement.scale p) (Exact.scale e)
  && near tol (Placement.scaledWidth p) (Exact.scaledWidth e)
  && near tol (Placement.scaledHeight p) (Exact.scaledHeight e)
  && near tol (Placement.x p) (Exact.x e)
  && near tol (Placement.y p) (Exact.y e).

(** The placement stays in the [size] square up to rounding: neither scaled
    length exceeds the target size by more than [2^-51] of it, one of them
    reaches it up to the same tolerance, and no offset is below zero by
    more than that. *)
Definition withinSquare (size : Z) (p : Placement.t) : Prop :=
  exists sw sh x y : Q,
    F2Q (Placement.scaledWidth p) = Some sw
    /\ F2Q (Placement.scaledHeight p) = Some sh
    /\ F2Q (Placement.x p) = Some x
    /\ F2Q (Placement.y p) = Some y
    /\ (sw <= inject_Z size + inject_Z size * Qpower 2 (-51))%Q
    /\ (sh <= inject_Z size + inject_Z size * Qpower 2 (-51))%Q
    /\ ((inject_Z size - inject_Z size * Qpower 2 (-51) <= sw)%Q \/
        (inject_Z size - inject_Z size * Qpower 2 (-51) <= sh)%Q)
    /\ (- (inject_Z size * Qpower 2 (-51)) <= x)%Q
    /\ (- (inject_Z size * Qpower 2 (-51)) <= y)%Q.

(** ** Rounding of doubles: what the proofs speak of

    The operations on [float] are specified by the Standard Library through
    [SpecFloat]: a finite double is a sign, a mantissa [m] and an exponent
    [e], and stands for [m * 2^e]. *)

(** [2^e] as a rational. *)
Definition pow2 (e : Z) : Q := Qpower 2 e.

(** The rational that a mantissa and an exponent stand for. *)
Definition mag (m : positive) (e : Z) : Q := (inject_Z (Z.pos m) * pow2 e)%Q.

(** The unit roundoff of doubles. *)
Definition u53 : Q := pow2 (-53).

(** The value of a zero or finite double, with its sign. *)
Definition SFval (f : spec_float) : Q :=
  match f with
  | S754_finite s m e => (inject_Z (if s then Z.neg m else Z.pos m) * Qpower 2 e)%Q
  | _ => 0%Q
  end.

(** The record [mrs] of the rounding procedure holds the quotient of [N] by
    [D] and tells where the remainder lies with respect to half of [D]. *)
Definition locates (mrs : shr_record) (N D : Z) : Prop :=
  shr_m mrs = N / D
  /\ (shr_r mrs = true <-> D <= 2 * (N mod D))
  /\ (shr_s mrs = true <-> N mod D <> 0 /\ 2 * (N mod D) <> D).

(** The same for the location given to the rounding procedure. *)
Definition loc_ok (lx : location) (N D : Z) : Prop :=
  match lx with
  | loc_Exact => N mod D = 0
  | loc_Inexact c => N mod D <> 0 /\ c = (2 * (N mod D) ?= D)
  end.

(** [V] is [X] rounded to 53 bits: a multiple [R * 2^e0] of the spacing of
    the doubles around [X], within half of that spacing from [X]. *)
Definition rounds (V X : Q) : Prop :=
  exists e0 R : Z,
    (V == inject_Z R * pow2 e0)%Q /\ 2 ^ 52 <= R <= 2 ^ 53
    /\ (- pow2 (e0 - 1) <= V - X <= pow2 (e0 - 1))%Q
    /\ (pow2 (e0 + 52) <= X)%Q /\ (X < pow2 (e0 + 53))%Q.

(** A zero, or a double with a full mantissa and its exponent in a window. *)
Definition fin (lo hi : Z) (f : spec_float) : Prop :=
  match f with
  | S754_zero _ => True
  | S754_finite _ m e => Z.pos (digits2_pos m) = 53 /\ lo <= e <= hi
  | _ => False
  end.

(** [f] is a positive double with a full mantissa. *)
Definition isF (f : float) (m : positive) (e : Z) : Prop :=
  Prim2SF f = S754_finite false m e /\ Z.pos (digits2_pos m) = 53.

(** ** Size texts written out *)

Fixpoint allWhite (s : string) : bool :=
  match s with
  | EmptyString => true
  | String c s' => Str.isWhiteSpace c && allWhite s'
  end.

(** One entry of a size text: an integer in decimal, with white space
    before and after it. *)
Module Entry.
Record t : Type := mk { before : string; value : Z; after : string }.

Definition print (e : t) : string :=
  before e ++ Num.toString (Int (value e)) ++ after e.

Definition padded (e : t) : bool := allWhite (before e) && allWhite (after e).
End Entry.

(** The positive integers among the parsed entries, in order. *)
Fixpoint positives (l : list num) : list Z :=
  match l with
  | [] => []
  | NaN :: l' => positives l'
  | Int z :: l' => if 0 <? z then z :: positives l' else positives l'
  end.

(** The largest magnitude up to which every integer is a double. *)
Definition maxSafe : Z := 2 ^ 53.

(** [rest] does not go on with a decimal digit. *)
Definition stops (rest : string) : Prop :=
  match rest with
  | EmptyString => True
  | String c _ => Num.digitValue 10 c = None
  end.

(** No character of [s] is the given one. *)
Fixpoint lacks (c : ascii) (s : string) : bool :=
  match s with
  | EmptyString => true
  | String c' s' => negb (Ascii.eqb c' c) && lacks c s'
  end.

(** No character of [s] is white space. *)
Fixpoint solid (s : string) : bool :=
  match s with
  | EmptyString => true
  | String c s' => negb (Str.isWhiteSpace c) && solid s'
  end.

(** ** Sample sessions *)

(** A sample session: one square 64 by 64 image and two sizes. *)
Definition sampleWorld : World :=
  mkWorld [File.mk "logo.png" (Some (64, 64))] "16,32" [] false 0 "" ∅ 0%nat [] [].

(** A session whose second file does not decode, and which shows the
    icons of an earlier run. *)
Definition brokenWorld : World :=
  mkWorld [File.mk "logo.png" (Some (64, 64)); File.mk "bad.svg" None]
    "16,32"
    (processedIcons (run processImages sampleWorld)) false 100 ""
    (objectURLs (run processImages sampleWorld))
    (nextURL (run processImages sampleWorld)) [] [].

(** A session whose size text parses to no size. *)
Definition rejectedWorld : World :=
  mkWorld [File.mk "logo.png" (Some (64, 64))] "0,-1" [] false 0 "" ∅ 0%nat [] [].

(** A session that asks twice for the same size. *)
Definition repeatedWorld : World :=
  mkWorld [File.mk "icon.png" (Some (64, 64))] "16,16" [] false 0 "" ∅ 0%nat [] [].

(** ** Selecting files and downloading: the other handlers *)

Module Upload.
(** A [File] as the drop and change events deliver it: the file and its
    MIME [type]. *)
Record t : Type := mk { file : File.t; type : string }.
End Upload.

(** Lines 98 and 115: [file.type === "image/svg+xml" || file.type ===
    "image/png"]. *)
Definition accepts (u : Upload.t) : bool :=
  String.eqb (Upload.type u) "image/svg+xml" || String.eqb (Upload.type u) "image/png".

Module Download.
(** A click on a temporary anchor: its [href], an object URL, and its
    [download] attribute. *)
Record t : Type := mk { href : nat; download : string }.
End Download.

(** The page with the rest of what the handlers act on: the [dragActive]
    cell, the anchor clicks made so far (newest first), and for every object
    URL created for a generated archive the entries of that archive. *)
Record Session : Type := mkSession
  { page : World;
    dragActive : bool;
    clicks : list Download.t;
    zipBlobs : gmap nat (gmap string Blob.t) }.

Definition UI (A : Type) : Type := Session -> completion A * Session.

Definition retUI {A} (a : A) : UI A := fun s => (Normal a, s).

Definition bindUI {A B} (m : UI A) (k : A -> UI B) : UI B :=
  fun s => match m s with
           | (Normal a, s') => k a s'
           | (Thrown, s') => (Thrown, s')
           end.

Definition throwUI {A} : UI A := fun s => (Thrown, s).

(** A statement that acts on the page and the browser store only. *)
Definition onPage {A} (m : JS A) : UI A := fun s =>
  let '(r, w) := m (page s) in
  (r, mkSession w (dragActive s) (clicks s) (zipBlobs s)).

Declare Scope ui_scope.
Delimit Scope ui_scope with ui.
Notation "x <- m ;; k" := (bindUI m (fun x => k))
  (at level 100, m at next level, right associativity) : ui_scope.
Notation "m ;; k" := (bindUI m (fun _ => k))
  (at level 100, right associativity) : ui_scope.

Definition setDragActive (b : bool) : UI unit := fun s =>
  (Normal tt, mkSession (page s) b (clicks s) (zipBlobs s)).

(** [link.click()] on an anchor with the given attributes. *)
Definition click (d : Download.t) : UI unit := fun s =>
  (Normal tt, mkSession (page s) (dragActive s) (d :: clicks s) (zipBlobs s)).

(** [URL.createObjectURL(zipBlob)]: a fresh handle for the archive. *)
Definition createZipURL (entries : gmap string Blob.t) : UI nat := fun s =>
  let '(r, w) := createObjectURL (page s) in
  (r, mkSession w (dragActive s) (clicks s) (<[nextURL (page s) := entries]> (zipBlobs s))).

Definition setSizes (v : string) : JS unit := fun w =>
  (Normal tt,
   mkWorld (files w) v (processedIcons w) (isProcessing w) (progress w)
     (fileInput w) (objectURLs w) (nextURL w) (toasts w) (progressLog w)).

(** The template [`${n} file(s) ready for processing`]. *)
Definition readyText (n : nat) : string :=
  Num.toString (Int (Z.of_nat n)) ++ " file(s) ready for processing".

Definition filesAddedToast (n : nat) : Toast.t :=
  Toast.mk "Files added!" (readyText n) false.

Definition filesSelectedToast (n : nat) : Toast.t :=
  Toast.mk "Files selected!" (readyText n) false.

Definition zipToast (n : nat) : Toast.t :=
  Toast.mk "ZIP downloaded!"
    ("Downloaded " ++ Num.toString (Int (Z.of_nat n)) ++ " icons as ZIP") false.

Local Open Scope ui_scope.

(** Lines 81 to 89. [type] is [e.type]. *)
Definition handleDrag (type : string) : UI unit :=
  if String.eqb type "dragenter" || String.eqb type "dragover" then
    setDragActive true
  else if String.eqb type "dragleave" then
    setDragActive false
  else retUI tt.

(** Lines 91 to 110. [transferred] is [e.dataTransfer.files]; the update
    [setFiles((prev) => [...prev, ...droppedFiles])] appends to the files
    held when it is applied. *)
Definition handleDrop (transferred : list Upload.t) : UI unit :=
  setDragActive false ;;
  let droppedFiles := List.filter accepts transferred in
  if Nat.ltb 0 (length droppedFiles) then
    onPage (fun w => setFiles (files w ++ List.map Upload.file droppedFiles)%list w) ;;
    onPage (toast (filesAddedToast (length droppedFiles)))
  else retUI tt.

(** Lines 112 to 123. [targetFiles] is [e.target.files], which may be null. *)
Definition handleFileSelect (targetFiles : option (list Upload.t)) : UI unit :=
  match targetFiles with
  | Some fileList =>
      let selectedFiles := List.filter accepts fileList in
      onPage (fun w => setFiles (files w ++ List.map Upload.file selectedFiles)%list w) ;;
      onPage (toast (filesSelectedToast (length selectedFiles)))
  | None => retUI tt
  end.

(** Lines 223 to 228. *)
Definition downloadIcon (icon : Icon.t) : UI unit :=
  click (Download.mk (Icon.url icon) (Icon.filename icon)).

(** Lines 233 to 237: [zip.file(icon.filename, icon.blob)] for every icon in
    turn; an entry written under a name already present replaces it. (Icon
    file names hold no slash, so no folder entry arises.) *)
Definition zipOf (icons : list Icon.t) : gmap string Blob.t :=
  fold_left (fun zip icon => <[Icon.filename icon := Icon.blob icon]> zip) icons ∅.

(** [await zip.generateAsync({ type: "blob" })]: the archive of the entries
    when the promise resolves; [resolves] tells whether it does. *)
Definition generateAsync (resolves : bool) (zip : gmap string Blob.t)
    : UI (gmap string Blob.t) :=
  if resolves then retUI zip else throwUI.

(** Lines 230 to 252. When the promise of [generateAsync] rejects, the
    handler, which has no [catch], ends there. *)
Definition downloadAllAsZip (resolves : bool) : UI unit := fun s =>
  let icons := processedIcons (page s) in
  if Nat.eqb (length icons) 0 then retUI tt s
  else
    let zip := zipOf icons in
    (zipBlob <- generateAsync resolves zip ;;
     zipUrl <- createZipURL zipBlob ;;
     click (Download.mk zipUrl "chrome-extension-icons.zip") ;;
     onPage (revokeObjectURL zipUrl) ;;
     onPage (toast (zipToast (length icons)))) s.

(** ** Sessions *)

(** What the user can do on the page: drag over or drop on the drop zone
    (lines 315 to 318), choose files in the file input (line 341), type in
    the size field (line 383), and click the buttons [Generate] (lines 391
    to 393), [DownloadAll] (line 424), [Clear] (line 430) and, on the
    [i]-th result card, [DownloadIcon i] (line 466). *)
Inductive event : Type :=
  | Drag (type : string)
  | Drop (transferred : list Upload.t)
  | Select (targetFiles : option (list Upload.t))
  | TypeSizes (text : string)
  | Generate
  | DownloadIcon (i : nat)
  | DownloadAll (resolves : bool)
  | Clear.

(** Line 393: [disabled={isProcessing || files.length === 0}]. *)
Definition generateDisabled (w : World) : bool :=
  isProcessing w || Nat.eqb (length (files w)) 0.

(** Line 413: the results card, with its buttons, is rendered when
    [processedIcons.length > 0]. *)
Definition resultsShown (w : World) : bool := Nat.ltb 0 (length (processedIcons w)).

(** The handler an event reaches, if the control it needs is there. *)
Definition dispatch (e : event) (s : Session) : UI unit :=
  match e with
  | Drag type => handleDrag type
  | Drop transferred => handleDrop transferred
  | Select targetFiles => handleFileSelect targetFiles
  | TypeSizes text => onPage (setSizes text)
  | Generate =>
      if generateDisabled (page s) then retUI tt else onPage processImages
  | DownloadIcon i =>
      match nth_error (processedIcons (page s)) i with
      | Some icon => downloadIcon icon
      | None => retUI tt
      end
  | DownloadAll resolves =>
      if resultsShown (page s) then downloadAllAsZip resolves else retUI tt
  | Clear =>
      if resultsShown (page s) then onPage clearAll else retUI tt
  end.

(** Each event is handled to its end before the next one is taken: the
    sessions covered are those in which no event arrives while a handler
    awaits an image or the archive. *)
Definition step (s : Session) (e : event) : Session := snd (dispatch e s s).

Definition runEvents (s : Session) (es : list event) : Session := fold_left step es s.

(** The page as it is first rendered, lines 71 to 78. *)
Definition initialSession : Session :=
  mkSession (mkWorld [] "16,32,48,128" [] false 0 "" ∅ 0%nat [] []) false [] ∅.

(** Every live handle was handed out before [nextURL]. *)
Definition storeBelowNext (w : World) : Prop :=
  forall u, u ∈ objectURLs w -> (u < nextURL w)%nat.

(** An icon carries the names derived from its source name and size. *)
Definition named (icon : Icon.t) : Prop :=
  Icon.filename icon = outputName (Icon.originalName icon) (Icon.size icon)
  /\ Icon.id icon = iconId (Icon.originalName icon) (Icon.size icon).

(** No run is in progress, the store is below [nextURL], and the visible
    icons hold live, pairwise distinct handles and carry derived names. *)
Definition settled (w : World) : Prop :=
  isProcessing w = false
  /\ storeBelowNext w
  /\ handlesLive w
  /\ NoDup (List.map Icon.url (processedIcons w))
  /\ Forall named (processedIcons w).

(** A live handle that no visible icon holds. *)
Definition orphan (u : nat) (w : World) : Prop :=
  u ∈ objectURLs w /\ (u < nextURL w)%nat
  /\ ~ In u (List.map Icon.url (processedIcons w)).

(** An icon without its handle. *)
Definition view (icon : Icon.t) : string * string * num * Blob.t * string :=
  (Icon.id icon, Icon.originalName icon, Icon.size icon, Icon.blob icon,
   Icon.filename icon).

(** The cells that choosing files never writes. *)
Definition untouched_by_selection (w w' : World) : Prop :=
  sizes w' = sizes w /\ processedIcons w' = processedIcons w
  /\ isProcessing w' = isProcessing w /\ progress w' = progress w
  /\ fileInput w' = fileInput w /\ objectURLs w' = objectURLs w
  /\ nextURL w' = nextURL w /\ progressLog w' = progressLog w.

(** [rest] does not go on with a hexadecimal digit. *)
Definition stopsHex (rest : string) : Prop :=
  match rest with
  | EmptyString => True
  | String c _ => Num.digitValue 16 c = None
  end.

(** An ASCII letter in lower case; other characters are unchanged. Used to
    say that a numeral is read whatever the case of its letters. *)
Definition lowerAscii (c : ascii) : ascii :=
  let n := nat_of_ascii c in
  if (Nat.leb 65 n && Nat.leb n 90)%bool then ascii_of_nat (n + 32) else c.

Fixpoint lowerCase (s : string) : string :=
  match s with
  | EmptyString => EmptyString
  | String c s' => String (lowerAscii c) (lowerCase s')
  end.

(** The blob of the last icon in the list that bears the file name. *)
Fixpoint lastNamed (name : string) (icons : list Icon.t) : option Blob.t :=
  match icons with
  | [] => None
  | icon :: rest =>
      match lastNamed name rest with
      | Some b => Some b
      | None => if String.eqb (Icon.filename icon) name then Some (Icon.blob icon) else None
      end
  end.

Local Close Scope ui_scope.

(** * Properties *)

Arguments percent : simpl never.
Arguments fit : simpl never.
Arguments outputName : simpl never.
Arguments iconId : simpl never.
Arguments reports : simpl never.

(** ** Sanity checks of the embedding *)

Example parseSizes_default :
  parseSizes "16,32,48,128" = [Int 16; Int 32; Int 48; Int 128].
Proof. reflexivity. Qed.

Example parseSizes_spaced :
  parseSizes "16, 32,48 ,128" = [Int 16; Int 32; Int 48; Int 128].
Proof. reflexivity. Qed.

Example parseSizes_junk : parseSizes "0,-5,abc,64" = [Int 64].
Proof. reflexivity. Qed.

Example parseSizes_hex : parseSizes "0x10,12px,3.5, +7 ,0x" = [Int 16; Int 12; Int 3; Int 7].
Proof. reflexivity. Qed.

Example baseName_png : baseName "icon.png" = "icon". Proof. reflexivity. Qed.

Example baseName_plain : baseName "icon" = "icon". Proof. reflexivity. Qed.

Example baseName_two : baseName "a.tar.gz" = "a.tar". Proof. reflexivity. Qed.

Example baseName_trailing_dot : baseName "a.b." = "a.b.". Proof. reflexivity. Qed.

Example outputName_logo : outputName "logo.png" (Int 16) = "logo_16x16.png".
Proof. reflexivity. Qed.

Example fit_100x50_at_50 :
  fit (Int 50) 100 50 = Placement.mk 0.5 50 25 0 12.5.
Proof. vm_compute. reflexivity. Qed.

Example fit_64x64_at_16 :
  fit (Int 16) 64 64 = Placement.mk 0.25 16 16 0 0.
Proof. vm_compute. reflexivity. Qed.

(** ** The loops *)

Lemma reports_S total c n :
  reports total c (S n) = percent (c + 1) total :: reports total (c + 1) n.
Proof.
  unfold reports. simpl. f_equal.
  rewrite <- seq_shift, List.map_map. apply List.map_ext. intros k.
  f_equal. lia.
Qed.

Lemma reports_app total c n m :
  reports total c (n + m) =
  (reports total c n ++ reports total (c + Z.of_nat n) m)%list.
Proof.
  revert c. induction n as [|n IH]; intros c.
  - simpl. now rewrite Z.add_0_r.
  - change (S n + m)%nat with (S (n + m)). rewrite !reports_S, IH. simpl.
    do 3 f_equal. lia.
Qed.

Lemma reports_length total c n : length (reports total c n) = n.
Proof. unfold reports. now rewrite length_map, length_seq. Qed.

Lemma renderSizes_spec file img total sizeArray :
  forall icons c w,
  exists w',
    forOf sizeArray (renderSize file img total) (icons, c) w =
      (Normal ((icons ++ iconsOfSizes file img sizeArray (nextURL w))%list,
               c + Z.of_nat (length sizeArray)), w')
    /\ untouched w' = untouched w
    /\ nextURL w' = (nextURL w + length sizeArray)%nat
    /\ objectURLs w' =
         list_to_set (seq (nextURL w) (length sizeArray)) ∪ objectURLs w
    /\ progressLog w' =
         (rev (reports total c (length sizeArray)) ++ progressLog w)%list.
Proof.
  induction sizeArray as [|size rest IH]; intros icons c w.
  - exists w. simpl. unfold ret. rewrite app_nil_r, Z.add_0_r.
    repeat split; [cbn; lia | set_solver].
  - cbn [forOf]. unfold bind at 1. cbn [renderSize].
    unfold bind, createObjectURL, setProgress, ret. cbn.
    match goal with |- context [forOf rest _ (?i, ?k) ?v] =>
      destruct (IH i k v) as (w' & E & Hu & Hn & Ho & Hp) end.
    exists w'. rewrite E. cbn in Hu, Hn, Ho, Hp.
    repeat split.
    + rewrite <- app_assoc. cbn. do 3 f_equal. lia.
    + exact Hu.
    + rewrite Hn. cbn. lia.
    + rewrite Ho. cbn. set_solver.
    + rewrite Hp. change (length (size :: rest)) with (S (length rest)).
      rewrite reports_S. cbn [rev]. now rewrite <- app_assoc.
Qed.

Lemma renderFiles_spec sizeArray total fs :
  forall icons c w,
  exists w',
    forOf fs (renderFile sizeArray total) (icons, c) w =
      (if forallb decodes fs
       then Normal ((icons ++ iconsOfFiles fs sizeArray (nextURL w))%list,
                    c + Z.of_nat (length fs * length sizeArray))
       else Thrown, w')
    /\ untouched w' = untouched w
    /\ progressLog w' =
         (rev (reports total c (length (decodedPrefix fs) * length sizeArray))
          ++ progressLog w)%list
    /\ (nextURL w <= nextURL w')%nat
    /\ (forall u, (u < nextURL w)%nat -> u ∈ objectURLs w -> u ∈ objectURLs w').
Proof.
  induction fs as [|file rest IH]; intros icons c w.
  - exists w. cbn. unfold ret. rewrite app_nil_r, Z.add_0_r. auto.
  - cbn [forOf forallb decodedPrefix iconsOfFiles].
    assert (Hd : decodes file =
                 match File.image file with Some _ => true | None => false end)
      by reflexivity.
    rewrite Hd; clear Hd.
    unfold bind at 1. unfold renderFile at 1.
    unfold bind at 1. unfold createObjectURL at 1.
    unfold bind at 1. unfold loadImage.
    destruct (File.image file) as [img|] eqn:Himg.
    + unfold ret at 1. unfold bind at 1.
      match goal with |- context [forOf sizeArray _ _ ?v] =>
        destruct (renderSizes_spec file img total sizeArray icons c v)
          as (w1 & E1 & Hu1 & Hn1 & Ho1 & Hp1) end.
      rewrite E1. unfold bind at 1, revokeObjectURL at 1, ret at 1.
      match goal with |- context [forOf rest _ (?i, ?k) ?v] =>
        destruct (IH i k v) as (w2 & E2 & Hu2 & Hp2 & Hn2 & Ho2) end.
      exists w2. rewrite E2. unfold untouched in *. cbn in *. rewrite Hn1 in *.
      repeat split.
      * destruct (forallb decodes rest); [|reflexivity].
        rewrite <- app_assoc. do 3 f_equal. lia.
      * congruence.
      * rewrite Hp2, Hp1, reports_app, rev_app_distr, <- app_assoc.
        reflexivity.
      * lia.
      * intros u Hlt Hin. apply Ho2; [lia|]. rewrite Ho1. set_solver by lia.
    + unfold throw. eexists. repeat split; cbn; auto. set_solver.
Qed.

(** ** Runs *)

Lemma length_zero_nil {A} (l : list A) : Nat.eqb (length l) 0 = true <-> l = [].
Proof. destruct l; cbn; split; congruence. Qed.

Lemma processImages_no_files w :
  files w = [] ->
  processImages w = toast noFilesToast w.
Proof. intros H. unfold processImages. now rewrite H. Qed.

Lemma processImages_no_sizes w :
  files w <> [] -> parseSizes (sizes w) = [] ->
  processImages w = toast invalidSizesToast w.
Proof.
  intros Hf Hs. unfold processImages.
  destruct (Nat.eqb (length (files w)) 0) eqn:E.
  - apply length_zero_nil in E. contradiction.
  - now rewrite Hs.
Qed.

Lemma processImages_started w :
  started w ->
  exists w',
    processImages w = (Normal tt, w')
    /\ files w' = files w /\ sizes w' = sizes w /\ fileInput w' = fileInput w
    /\ isProcessing w' = false
    /\ (if forallb decodes (files w)
        then processedIcons w' =
               iconsOfFiles (files w) (parseSizes (sizes w)) (nextURL w)
             /\ toasts w' =
                  completeToast (length (processedIcons w')) :: toasts w
        else processedIcons w' = processedIcons w
             /\ toasts w' = failedToast :: toasts w)
    /\ progressLog w' =
         (rev (0%float ::
               reports (Z.of_nat (totalOperations w)) 0 (completedPairs w))
          ++ progressLog w)%list
    /\ (nextURL w <= nextURL w')%nat
    /\ (forall u, (u < nextURL w)%nat -> u ∈ objectURLs w -> u ∈ objectURLs w').
Proof.
  intros [Hf Hs]. unfold processImages.
  destruct (Nat.eqb (length (files w)) 0) eqn:E1;
    [apply length_zero_nil in E1; contradiction|].
  destruct (Nat.eqb (length (parseSizes (sizes w))) 0) eqn:E2;
    [apply length_zero_nil in E2; contradiction|].
  unfold bind at 1, setIsProcessing at 1.
  unfold bind at 1, setProgress at 1.
  unfold tryFinally, tryCatch. unfold bind at 1.
  cbn [files sizes processedIcons isProcessing progress fileInput objectURLs
       nextURL toasts progressLog].
  match goal with |- context [forOf (files w) ?b (?i, ?k) ?v] =>
    destruct (renderFiles_spec (parseSizes (sizes w))
                (Z.of_nat (length (files w) * length (parseSizes (sizes w))))
                (files w) i k v)
      as (w1 & E & Hu & Hp & Hn & Ho) end.
  rewrite E.
  unfold untouched in Hu. cbn in Hu, Hp, Hn, Ho.
  injection Hu as Hu1 Hu2 Hu3 Hu4 Hu5 Hu6.
  unfold totalOperations, completedPairs.
  destruct (forallb decodes (files w)).
  - unfold bind, setProcessedIcons, toast, setIsProcessing. cbn.
    eexists; repeat split; cbn;
      rewrite ?Hu1, ?Hu2, ?Hu3, ?Hu4, ?Hu5, ?Hu6, ?Hp; cbn [rev];
      rewrite <- ?app_assoc; auto.
  - unfold toast, setIsProcessing. cbn.
    eexists; repeat split; cbn;
      rewrite ?Hu1, ?Hu2, ?Hu3, ?Hu4, ?Hu5, ?Hu6, ?Hp; cbn [rev];
      rewrite <- ?app_assoc; auto.
Qed.

Lemma iconsOfSizes_length file img sizeArray u :
  length (iconsOfSizes file img sizeArray u) = length sizeArray.
Proof. revert u. induction sizeArray; intros u; cbn; auto. Qed.

Lemma iconsOfSizes_Forall file img sizeArray :
  forall u,
  Forall (fun icon => In (Icon.size icon) sizeArray /\
                      Icon.originalName icon = File.name file)
    (iconsOfSizes file img sizeArray u).
Proof.
  induction sizeArray as [|size rest IH]; intros u; cbn [iconsOfSizes].
  - constructor.
  - constructor.
    + cbn. auto.
    + eapply List.Forall_impl; [|apply IH]. cbn. intros icon [H1 H2]. auto.
Qed.

Lemma iconsOfFiles_length fs sizeArray :
  forall u, forallb decodes fs = true ->
  length (iconsOfFiles fs sizeArray u) = (length fs * length sizeArray)%nat.
Proof.
  induction fs as [|file rest IH]; intros u H; cbn [iconsOfFiles]; [reflexivity|].
  cbn [forallb] in H. apply andb_prop in H as [H1 H2]. unfold decodes in H1.
  destruct (File.image file); [|discriminate].
  rewrite length_app, iconsOfSizes_length, IH by assumption. cbn. lia.
Qed.

Lemma iconsOfFiles_Forall fs sizeArray :
  forall u,
  Forall (fun icon => In (Icon.size icon) sizeArray /\
                      In (Icon.originalName icon) (List.map File.name fs))
    (iconsOfFiles fs sizeArray u).
Proof.
  induction fs as [|file rest IH]; intros u; cbn [iconsOfFiles]; [constructor|].
  destruct (File.image file); [|constructor].
  apply Forall_app. split.
  - eapply List.Forall_impl; [|apply iconsOfSizes_Forall].
    cbn. intros icon [H1 H2]. rewrite H2. auto.
  - eapply List.Forall_impl; [|apply IH]. cbn. intros icon [H1 H2]. auto.
Qed.

Lemma iconsOfSizes_pairs file img sizeArray :
  forall u,
  List.map (fun icon => (Icon.originalName icon, Icon.size icon))
    (iconsOfSizes file img sizeArray u) =
  List.map (pair (File.name file)) sizeArray.
Proof.
  induction sizeArray as [|size rest IH]; intros u; cbn [iconsOfSizes List.map];
    [reflexivity|].
  rewrite IH. reflexivity.
Qed.

Lemma iconsOfFiles_pairs fs sizeArray :
  forall u, forallb decodes fs = true ->
  List.map (fun icon => (Icon.originalName icon, Icon.size icon))
    (iconsOfFiles fs sizeArray u) =
  list_prod (List.map File.name fs) sizeArray.
Proof.
  induction fs as [|file rest IH]; intros u H; cbn [iconsOfFiles]; [reflexivity|].
  cbn [forallb] in H. apply andb_prop in H as [H1 H2]. unfold decodes in H1.
  destruct (File.image file); [|discriminate].
  rewrite List.map_app, iconsOfSizes_pairs, IH by assumption. reflexivity.
Qed.

Lemma decodes_false_Exists fs :
  forallb decodes fs = false <-> List.Exists (fun f => File.image f = None) fs.
Proof.
  induction fs as [|file rest IH]; cbn.
  - split; [discriminate|]. intros H. inversion H.
  - unfold decodes at 1. destruct (File.image file) eqn:E; cbn.
    + rewrite IH. split; [auto|]. intros H. inversion H; subst; congruence.
    + split; auto.
Qed.

Lemma succeeded_not_failed w w' : succeeded w w' -> failed w w' -> False.
Proof. intros [n H1] H2. unfold failed in H2. rewrite H1 in H2. discriminate. Qed.

Lemma run_started w :
  started w ->
  let w' := run processImages w in
  files w' = files w /\ sizes w' = sizes w /\ fileInput w' = fileInput w
  /\ isProcessing w' = false
  /\ (if forallb decodes (files w)
      then processedIcons w' =
             iconsOfFiles (files w) (parseSizes (sizes w)) (nextURL w)
           /\ succeeded w w'
      else processedIcons w' = processedIcons w /\ failed w w')
  /\ progressLog w' =
       (rev (0%float ::
             reports (Z.of_nat (totalOperations w)) 0 (completedPairs w))
        ++ progressLog w)%list
  /\ (nextURL w <= nextURL w')%nat
  /\ (forall u, (u < nextURL w)%nat -> u ∈ objectURLs w -> u ∈ objectURLs w').
Proof.
  intros H. destruct (processImages_started w H)
    as (w' & E & H1 & H2 & H3 & H4 & H5 & H6 & H7 & H8).
  unfold run. rewrite E. cbn [snd]. repeat split; auto.
  destruct (forallb decodes (files w)); destruct H5 as [H5 H5']; split; auto.
  now exists (length (processedIcons w')).
Qed.

Lemma classic_started w :
  started w \/ (files w = [] \/ parseSizes (sizes w) = []).
Proof.
  unfold started. destruct (files w); [auto|].
  destruct (parseSizes (sizes w)); [auto|]. left. split; discriminate.
Qed.

(** ** The claims *)

(** C1. A run that passed validation (at least one source image, at least
    one parsed target size) and was signalled as complete leaves exactly
    [|S| * |T|] icons in the result list; the edge length of each is one of
    the parsed sizes and its source file name is the name of one of the
    source images. Read as (file name, size) pairs the icons are the
    product of the file names and the sizes, file by file. *)
Theorem run_yields_product (w : World) :
  started w ->
  succeeded w (run processImages w) ->
  length (processedIcons (run processImages w)) =
    (length (files w) * length (parseSizes (sizes w)))%nat
  /\ Forall (fun icon =>
               In (Icon.size icon) (parseSizes (sizes w)) /\
               In (Icon.originalName icon) (List.map File.name (files w)))
       (processedIcons (run processImages w))
  /\ List.map (fun icon => (Icon.originalName icon, Icon.size icon))
       (processedIcons (run processImages w)) =
     list_prod (List.map File.name (files w)) (parseSizes (sizes w)).
Proof.
  intros Hs Hok.
  destruct (run_started w Hs) as (_ & _ & _ & _ & H & _).
  destruct (forallb decodes (files w)) eqn:Hd.
  - destruct H as [-> _]. split; [|split].
    + now apply iconsOfFiles_length.
    + apply iconsOfFiles_Forall.
    + now apply iconsOfFiles_pairs.
  - destruct H as [_ Hf]. destruct (succeeded_not_failed _ _ Hok Hf).
Qed.

Lemma run_yields_product_witness :
  started sampleWorld /\
  succeeded sampleWorld (run processImages sampleWorld) /\
  length (processedIcons (run processImages sampleWorld)) = 2%nat.
Proof.
  assert (Hs : started sampleWorld) by (split; vm_compute; discriminate).
  assert (Hok : succeeded sampleWorld (run processImages sampleWorld))
    by (exists 2%nat; vm_compute; reflexivity).
  split; [exact Hs|]. split; [exact Hok|].
  exact (proj1 (run_yields_product sampleWorld Hs Hok)).
Defined.

(** A run in which every file decodes is signalled as complete, so the
    hypothesis of C1 is met by every such run. *)
Lemma run_succeeds_iff (w : World) :
  started w ->
  (succeeded w (run processImages w) <-> forallb decodes (files w) = true).
Proof.
  intros Hs. destruct (run_started w Hs) as (_ & _ & _ & _ & H & _).
  destruct (forallb decodes (files w)).
  - destruct H as [_ H]. tauto.
  - destruct H as [_ H]. split; [|discriminate].
    intros Hok. destruct (succeeded_not_failed _ _ Hok H).
Qed.

(** C3. If some source image fails to decode in a run that passed
    validation, the run is signalled as failed, the result list is the one
    shown before the run (so no icon computed in the run is surfaced),
    the files and the size text are as before and the run is over. *)
Theorem decode_failure_keeps_results (w : World) :
  started w ->
  List.Exists (fun f => File.image f = None) (files w) ->
  failed w (run processImages w)
  /\ ~ succeeded w (run processImages w)
  /\ processedIcons (run processImages w) = processedIcons w
  /\ files (run processImages w) = files w
  /\ sizes (run processImages w) = sizes w
  /\ isProcessing (run processImages w) = false.
Proof.
  intros Hs Hbad.
  destruct (run_started w Hs) as (H1 & H2 & _ & H4 & H & _).
  apply decodes_false_Exists in Hbad. rewrite Hbad in H.
  destruct H as [H5 H6]. repeat split; auto.
  intros Hok. exact (succeeded_not_failed _ _ Hok H6).
Qed.

(** What a failed run does write: the progress cell, which here goes from
    100 to 50, and the object-URL store, which keeps the handles created
    before the failure (here the store grows from two handles to five). *)
Example decode_failure_moves_progress :
  progress brokenWorld = 100%float
  /\ progress (run processImages brokenWorld) = 50%float
  /\ size (objectURLs brokenWorld) = 2%nat
  /\ size (objectURLs (run processImages brokenWorld)) = 5%nat.
Proof. repeat split; vm_compute; reflexivity. Qed.

Lemma decode_failure_keeps_results_witness :
  started brokenWorld /\
  List.Exists (fun f => File.image f = None) (files brokenWorld) /\
  processedIcons (run processImages brokenWorld) = processedIcons brokenWorld.
Proof.
  assert (Hs : started brokenWorld) by (split; vm_compute; discriminate).
  assert (Hb : List.Exists (fun f => File.image f = None) (files brokenWorld))
    by (apply Exists_cons_tl, Exists_cons_hd; reflexivity).
  split; [exact Hs|]. split; [exact Hb|].
  exact (proj1 (proj2 (proj2 (decode_failure_keeps_results brokenWorld Hs Hb)))).
Defined.

(** C8. With no file selected, or with a size text that parses to no size
    (as [""] and ["0,-1"] do), the handler returns at once and the run is
    rejected with a destructive toast; every cell of the page, the
    object-URL store and the progress log are those of the world it was
    called in. *)
Theorem validation_rejects (w : World) :
  files w = [] \/ parseSizes (sizes w) = [] ->
  (exists t,
     (t = noFilesToast \/ t = invalidSizesToast)
     /\ Toast.destructive t = true
     /\ processImages w =
          (Normal tt,
           mkWorld (files w) (sizes w) (processedIcons w) (isProcessing w)
             (progress w) (fileInput w) (objectURLs w) (nextURL w)
             (t :: toasts w) (progressLog w)))
  /\ rejected w (run processImages w)
  /\ parseSizes "" = [] /\ parseSizes "0,-1" = [].
Proof.
  intros H.
  assert (E : exists t,
     (t = noFilesToast \/ t = invalidSizesToast)
     /\ Toast.destructive t = true
     /\ processImages w =
          (Normal tt,
           mkWorld (files w) (sizes w) (processedIcons w) (isProcessing w)
             (progress w) (fileInput w) (objectURLs w) (nextURL w)
             (t :: toasts w) (progressLog w))).
  { destruct (files w) as [|file rest] eqn:Hf.
    - exists noFilesToast. rewrite processImages_no_files by assumption.
      unfold toast. rewrite Hf. auto.
    - destruct H as [H|H]; [discriminate|].
      exists invalidSizesToast.
      rewrite processImages_no_sizes by (rewrite ?Hf; auto; discriminate).
      unfold toast. rewrite Hf. auto. }
  split; [exact E|]. split; [|split; reflexivity].
  destruct E as (t & Ht & _ & E). exists t. split; [exact Ht|].
  unfold run. rewrite E. reflexivity.
Qed.

Lemma validation_rejects_witness :
  (files rejectedWorld = [] \/ parseSizes (sizes rejectedWorld) = [])
  /\ exists t,
       (t = noFilesToast \/ t = invalidSizesToast)
       /\ Toast.destructive t = true
       /\ processImages rejectedWorld =
            (Normal tt,
             mkWorld (files rejectedWorld) (sizes rejectedWorld)
               (processedIcons rejectedWorld) (isProcessing rejectedWorld)
               (progress rejectedWorld) (fileInput rejectedWorld)
               (objectURLs rejectedWorld) (nextURL rejectedWorld)
               (t :: toasts rejectedWorld) (progressLog rejectedWorld)).
Proof.
  split; [right; reflexivity|].
  exact (proj1 (validation_rejects rejectedWorld (or_intror eq_refl))).
Defined.

(** C9. Parsing keeps repeated sizes: with the size text ["16,16"] and one
    decodable source image the run completes with two icons, one per list
    entry, whose derived file names and ids coincide. *)
Theorem repeated_size_repeats_icon (w : World) (file : File.t) (img : Z * Z) :
  files w = [file] ->
  File.image file = Some img ->
  sizes w = "16,16" ->
  parseSizes (sizes w) = [Int 16; Int 16]
  /\ succeeded w (run processImages w)
  /\ exists a b,
       processedIcons (run processImages w) = [a; b]
       /\ Icon.size a = Int 16 /\ Icon.size b = Int 16
       /\ Icon.filename a = Icon.filename b
       /\ Icon.id a = Icon.id b.
Proof.
  intros Hf Hi Hs.
  assert (Hp : parseSizes (sizes w) = [Int 16; Int 16]) by now rewrite Hs.
  assert (Hst : started w) by (split; rewrite ?Hf, ?Hp; discriminate).
  destruct (run_started w Hst) as (_ & _ & _ & _ & H & _).
  rewrite Hf in H. cbn [forallb] in H. unfold decodes in H. rewrite Hi in H.
  cbn [andb] in H. destruct H as [H Hok].
  split; [exact Hp|]. split; [exact Hok|].
  rewrite H, Hp. cbn [iconsOfFiles]. rewrite Hi. cbn [iconsOfSizes app].
  eexists _, _. split; [reflexivity|]. cbn. auto.
Qed.

Lemma repeated_size_repeats_icon_witness :
  (files repeatedWorld = [File.mk "icon.png" (Some (64, 64))]
   /\ File.image (File.mk "icon.png" (Some (64, 64))) = Some (64, 64)
   /\ sizes repeatedWorld = "16,16")
  /\ (parseSizes (sizes repeatedWorld) = [Int 16; Int 16]
      /\ succeeded repeatedWorld (run processImages repeatedWorld)
      /\ exists a b,
           processedIcons (run processImages repeatedWorld) = [a; b]
           /\ Icon.size a = Int 16 /\ Icon.size b = Int 16
           /\ Icon.filename a = Icon.filename b
           /\ Icon.id a = Icon.id b).
Proof.
  split; [repeat split|].
  exact (repeated_size_repeats_icon repeatedWorld
           (File.mk "icon.png" (Some (64, 64))) (64, 64)
           eq_refl eq_refl eq_refl).
Defined.

(** ** Object URLs *)

Lemma revokeAll_spec (icons : list Icon.t) :
  forall w,
  exists w',
    forOf icons (fun icon _ => revokeObjectURL (Icon.url icon)) tt w = (Normal tt, w')
    /\ untouched w' = untouched w
    /\ progress w' = progress w /\ progressLog w' = progressLog w
    /\ nextURL w' = nextURL w
    /\ objectURLs w' = objectURLs w ∖ list_to_set (List.map Icon.url icons).
Proof.
  induction icons as [|icon rest IH]; intros w.
  - exists w. cbn. unfold ret. repeat split. set_solver.
  - cbn [forOf]. unfold bind at 1, revokeObjectURL at 1.
    match goal with |- context [forOf rest _ tt ?v] =>
      destruct (IH v) as (w' & E & Hu & Hp & Hl & Hn & Ho) end.
    exists w'. rewrite E. unfold untouched in *. cbn in *.
    repeat split; auto. rewrite Ho. set_solver.
Qed.

(** [clearAll] revokes the handle of every visible icon and empties the
    result list, the file list and the progress. *)
Lemma clearAll_releases (w : World) :
  processedIcons (run clearAll w) = []
  /\ files (run clearAll w) = []
  /\ progress (run clearAll w) = 0%float
  /\ objectURLs (run clearAll w) =
       objectURLs w ∖ list_to_set (List.map Icon.url (processedIcons w))
  /\ forall icon, In icon (processedIcons w) ->
       Icon.url icon ∉ objectURLs (run clearAll w).
Proof.
  destruct (revokeAll_spec (processedIcons w) w) as (w' & E & Hu & Hp & Hl & Hn & Ho).
  assert (R : clearAll w =
              (Normal tt,
               mkWorld [] (sizes w') [] (isProcessing w') 0 "" (objectURLs w')
                 (nextURL w') (toasts w') (0%float :: progressLog w'))).
  { unfold clearAll. unfold bind at 1. rewrite E. reflexivity. }
  unfold run. rewrite R. cbn.
  split; [reflexivity|]. split; [reflexivity|]. split; [reflexivity|].
  split; [exact Ho|].
  intros icon Hin. rewrite Ho.
  apply (in_map Icon.url) in Hin. apply list_elem_of_In in Hin. set_solver.
Qed.

(** A run never revokes a handle that was live when it began, whatever its
    outcome: the handles of the icons it replaces stay in the store. *)
Lemma processImages_keeps_handles (w : World) :
  handlesLive w ->
  forall icon, In icon (processedIcons w) ->
    Icon.url icon ∈ objectURLs (run processImages w).
Proof.
  intros Hl icon Hin. destruct (Hl icon Hin) as [H1 H2].
  destruct (classic_started w) as [Hs|Hs].
  - destruct (run_started w Hs) as (_ & _ & _ & _ & _ & _ & _ & H). now apply H.
  - destruct Hs as [Hs|Hs].
    + unfold run. rewrite processImages_no_files by assumption. exact H1.
    + destruct (files w) eqn:Hf.
      * unfold run. rewrite processImages_no_files by assumption. exact H1.
      * unfold run. rewrite processImages_no_sizes; [exact H1| |exact Hs].
        rewrite Hf. discriminate.
Qed.

(** C5, evaluated on the code. Run the pipeline twice on the sample session.
    The second run completes and replaces the two icons of the first; their
    object URLs (handles 1 and 2) are held by no visible icon any more, and
    both are still among the four handles in the browser's store. [clearAll] run at the same point
    would have revoked them ([clearAll_releases]). *)
Theorem superseded_handles_stay_live :
  let w1 := run processImages sampleWorld in
  let w2 := run processImages w1 in
  succeeded w1 w2
  /\ List.map Icon.url (processedIcons w1) = [1%nat; 2%nat]
  /\ List.map Icon.url (processedIcons w2) = [4%nat; 5%nat]
  /\ size (objectURLs w2) = 4%nat
  /\ Forall (fun icon => Icon.url icon ∈ objectURLs w2) (processedIcons w1)
  /\ Forall (fun icon => Icon.url icon ∉ objectURLs (run clearAll w1))
       (processedIcons w1).
Proof.
  cbv zeta.
  assert (Hlive : handlesLive (run processImages sampleWorld)).
  { intros icon Hin. vm_compute in Hin.
    destruct Hin as [<-|[<-|[]]]; split;
      try (apply (bool_decide_unpack _); vm_compute; exact I);
      vm_compute; lia. }
  split; [exists 2%nat; vm_compute; reflexivity|].
  split; [vm_compute; reflexivity|].
  split; [vm_compute; reflexivity|].
  split; [vm_compute; reflexivity|].
  split.
  - apply List.Forall_forall. intros icon Hin.
    exact (processImages_keeps_handles _ Hlive icon Hin).
  - apply List.Forall_forall. intros icon Hin.
    exact (proj2 (proj2 (proj2 (proj2 (clearAll_releases _)))) icon Hin).
Qed.

(** ** Rounding of doubles *)

(** *** Rounding to the nearest double *)

Lemma digits2_pos_bounds (p : positive) :
  2 ^ (Z.pos (digits2_pos p) - 1) <= Z.pos p < 2 ^ Z.pos (digits2_pos p).
Proof.
  induction p as [p IH|p IH|]; cbn [digits2_pos];
    [| |vm_compute; split; [discriminate|reflexivity]];
    rewrite Pos2Z.inj_succ;
    replace (Z.succ (Z.pos (digits2_pos p)) - 1)
      with (Z.succ (Z.pos (digits2_pos p) - 1)) by lia;
    rewrite !Z.pow_succ_r by lia; lia.
Qed.

Lemma digits2_pos_unique (p : positive) (d : Z) :
  2 ^ (d - 1) <= Z.pos p < 2 ^ d -> Z.pos (digits2_pos p) = d.
Proof.
  intros [Hlo Hhi]. pose proof (digits2_pos_bounds p) as [Blo Bhi].
  set (k := Z.pos (digits2_pos p)) in *.
  assert (Hk : 0 < k) by (unfold k; lia).
  destruct (Z.lt_trichotomy k d) as [H|[H|H]]; [|exact H|].
  - exfalso. assert (2 ^ k <= 2 ^ (d - 1)) by (apply Z.pow_le_mono_r; lia). lia.
  - exfalso. destruct (Z.le_gt_cases 0 d) as [Hd|Hd].
    + assert (2 ^ d <= 2 ^ (k - 1)) by (apply Z.pow_le_mono_r; lia). lia.
    + rewrite (Z.pow_neg_r 2 d) in Hhi by lia. lia.
Qed.

Lemma iter_pos_iter {A : Type} (f : A -> A) (p : positive) :
  forall x, SpecFloat.iter_pos f p x = Pos.iter f x p.
Proof.
  induction p as [p IH|p IH|]; intros x; cbn [SpecFloat.iter_pos Pos.iter].
  - now rewrite !IH, !Pos.iter_swap.
  - now rewrite !IH.
  - reflexivity.
Qed.

Lemma loc_locates (m : Z) (lx : location) (N D : Z) :
  0 < D -> m = N / D -> loc_ok lx N D -> locates (shr_record_of_loc m lx) N D.
Proof.
  intros HD Hm Hl. pose proof (Z.mod_pos_bound N D HD) as Hr.
  unfold locates. destruct lx as [|[| |]]; cbn in *.
  - rewrite Hl. repeat split; try assumption; try discriminate; try lia.
  - destruct Hl as [H0 Hc]. symmetry in Hc. apply Z.compare_eq_iff in Hc.
    repeat split; try assumption; try discriminate; try lia.
  - destruct Hl as [H0 Hc]. symmetry in Hc. rewrite Z.compare_lt_iff in Hc.
    repeat split; try assumption; try discriminate; try lia.
  - destruct Hl as [H0 Hc]. symmetry in Hc. rewrite Z.compare_gt_iff in Hc.
    repeat split; try assumption; try discriminate; try lia.
Qed.

Lemma shr_1_locates (mrs : shr_record) (N D : Z) :
  0 <= N -> 0 < D -> locates mrs N D -> locates (shr_1 mrs) N (D * 2).
Proof.
  intros HN HD (Hm & Hr & Hs).
  pose proof (Z.mod_pos_bound N D HD) as Hrho.
  pose proof (Z.div_pos N D HN HD) as Hq.
  pose proof (Z.div_div N D 2 ltac:(lia) ltac:(lia)) as Hdd.
  pose proof (Z.rem_mul_r N D 2 ltac:(lia) ltac:(lia)) as Hmm.
  destruct mrs as [m r s]. cbn [shr_m shr_r shr_s] in *.
  assert (Hrs : orb r s = true <-> N mod D <> 0).
  { rewrite orb_true_iff, Hr, Hs. lia. }
  unfold locates, shr_1. rewrite <- Hdd, Hmm, <- Hm.
  destruct m as [|[p|p|]|p]; cbn [shr_m shr_r shr_s]; try lia.
  - split; [reflexivity|]. change (0 mod 2) with 0.
    rewrite Hrs. split; [split; [discriminate|lia]|lia].
  - assert (E1 : Z.pos p~1 / 2 = Z.pos p)
      by (symmetry; apply (Z.div_unique _ _ _ 1); lia).
    assert (E2 : Z.pos p~1 mod 2 = 1)
      by (symmetry; apply (Z.mod_unique _ _ (Z.pos p)); lia).
    rewrite E1, E2, Hrs. split; [reflexivity|]. split; [split; [lia|reflexivity]|lia].
  - assert (E1 : Z.pos p~0 / 2 = Z.pos p)
      by (symmetry; apply (Z.div_unique _ _ _ 0); lia).
    assert (E2 : Z.pos p~0 mod 2 = 0)
      by (symmetry; apply (Z.mod_unique _ _ (Z.pos p)); lia).
    rewrite E1, E2, Hrs. split; [reflexivity|]. split; [split; [discriminate|lia]|lia].
  - split; [reflexivity|]. change (1 mod 2) with 1.
    rewrite Hrs. split; [split; [lia|reflexivity]|lia].
Qed.

Lemma shr_locates (mrs : shr_record) (N D : Z) (p : positive) :
  0 <= N -> 0 < D -> locates mrs N D ->
  locates (SpecFloat.iter_pos shr_1 p mrs) N (D * 2 ^ Z.pos p).
Proof.
  intros HN HD H. rewrite iter_pos_iter.
  induction p as [|p IH] using Pos.peano_ind.
  - cbn [Pos.iter]. change (2 ^ 1) with 2. now apply shr_1_locates.
  - rewrite Pos.iter_succ, Pos2Z.inj_succ, Z.pow_succ_r by lia.
    replace (D * (2 * 2 ^ Z.pos p)) with (D * 2 ^ Z.pos p * 2) by lia.
    apply shr_1_locates; [exact HN| |exact IH].
    apply Z.mul_pos_pos; [exact HD|]. apply Z.pow_pos_nonneg; lia.
Qed.

Lemma rne_locates (mrs : shr_record) (N D : Z) :
  0 <= N -> 0 < D -> locates mrs N D ->
  let R := round_nearest_even (shr_m mrs) (loc_of_shr_record mrs) in
  (R = N / D \/ R = N / D + 1) /\ Z.abs (2 * (R * D - N)) <= D.
Proof.
  intros HN HD (Hm & Hr & Hs).
  pose proof (Z.mod_pos_bound N D HD) as Hrho.
  pose proof (Z.div_mod N D ltac:(lia)) as Hdm.
  destruct mrs as [m r s]. cbn [shr_m shr_r shr_s] in *. subst m.
  set (q := N / D) in *. set (rho := N mod D) in *.
  destruct r, s; cbn [loc_of_shr_record round_nearest_even].
  - assert (D <= 2 * rho) by (apply Hr; reflexivity). split; [right; reflexivity|nia].
  - assert (D <= 2 * rho) by (apply Hr; reflexivity).
    destruct (Z.even q); [split; [left; reflexivity|]|split; [right; reflexivity|]]; nia.
  - assert (~ D <= 2 * rho) by (intros H; apply Hr in H; discriminate).
    split; [left; reflexivity|nia].
  - assert (~ D <= 2 * rho) by (intros H; apply Hr in H; discriminate).
    split; [left; reflexivity|nia].
Qed.

Lemma fexp_normal (z : Z) : -1074 <= z - 53 -> fexp prec emax z = z - 53.
Proof. unfold fexp, SpecFloat.emin, prec, emax. lia. Qed.

Lemma shr_spec (m : Z) (lx : location) (ex n N D : Z) :
  0 <= N -> 0 < D -> 0 <= n -> m = N / D -> loc_ok lx N D ->
  exists mrs,
    shr (shr_record_of_loc m lx) ex n = (mrs, ex + n)
    /\ locates mrs N (D * 2 ^ n).
Proof.
  intros HN HD Hn Hm Hl.
  pose proof (loc_locates m lx N D HD Hm Hl) as H0.
  destruct n as [|k|k]; [| |lia].
  - exists (shr_record_of_loc m lx). cbn [shr]. rewrite Z.add_0_r.
    split; [reflexivity|]. now rewrite Z.pow_0_r, Z.mul_1_r.
  - exists (SpecFloat.iter_pos shr_1 k (shr_record_of_loc m lx)). cbn [shr].
    split; [reflexivity|]. now apply shr_locates.
Qed.

Lemma shr_fexp_eq (m e : Z) (l : location) (n : Z) :
  fexp prec emax (Zdigits2 m + e) - e = n ->
  shr_fexp prec emax m e l = shr (shr_record_of_loc m l) e n.
Proof. intros H. unfold shr_fexp. now rewrite H. Qed.

(** The heart of every operation: [binary_round_aux] on a mantissa of at
    least 53 bits, away from underflow and overflow, returns a 53-bit
    mantissa [m] and exponent [e] such that [m * 2^e = R * 2^(ex + n)],
    where [R] is an integer nearest to [N / (D * 2^n)]. *)
Lemma round_aux_spec (sx : bool) (p : positive) (ex : Z) (lx : location) (N D : Z) :
  0 < D -> Z.pos p = N / D -> loc_ok lx N D ->
  53 <= Z.pos (digits2_pos p) ->
  -1074 <= ex + Z.pos (digits2_pos p) - 53 ->
  ex + Z.pos (digits2_pos p) - 53 < 971 ->
  let n := Z.pos (digits2_pos p) - 53 in
  exists R m e,
    binary_round_aux prec emax sx (Z.pos p) ex lx = S754_finite sx m e
    /\ Z.abs (2 * (R * (D * 2 ^ n) - N)) <= D * 2 ^ n
    /\ Z.pos (digits2_pos m) = 53
    /\ ((Z.pos m = R /\ e = ex + n) \/
        (R = 2 ^ 53 /\ Z.pos m = 2 ^ 52 /\ e = ex + n + 1)).
Proof.
  intros HD Hp Hl Hdg Hlo Hhi n.
  pose proof (digits2_pos_bounds p) as [Blo Bhi].
  set (dg := Z.pos (digits2_pos p)) in *.
  assert (Hn : 0 <= n) by (unfold n; lia).
  assert (HN : 0 <= N).
  { pose proof (Z.div_mod N D ltac:(lia)) as E.
    pose proof (Z.mod_pos_bound N D HD). rewrite <- Hp in E. nia. }
  assert (H2n : 0 < 2 ^ n) by (apply Z.pow_pos_nonneg; lia).
  assert (HD' : 0 < D * 2 ^ n) by (apply Z.mul_pos_pos; assumption).
  destruct (shr_spec (Z.pos p) lx ex n N D HN HD Hn Hp Hl) as (mrs & Hshr & Hloc).
  pose proof (rne_locates mrs N (D * 2 ^ n) HN HD' Hloc) as [HR Hnear].
  cbv zeta in HR, Hnear.
  set (R := round_nearest_even (shr_m mrs) (loc_of_shr_record mrs)) in *.
  (* the truncated mantissa has 53 bits *)
  assert (Hq : 2 ^ 52 <= N / (D * 2 ^ n) < 2 ^ 53).
  { rewrite <- Z.div_div by lia. rewrite <- Hp.
    replace (dg - 1) with (n + 52) in Blo by (unfold n; lia).
    replace dg with (n + 53) in Bhi by (unfold n; lia).
    rewrite Z.pow_add_r in Blo, Bhi by lia. split.
    - apply Z.div_le_lower_bound; lia.
    - apply Z.div_lt_upper_bound; lia. }
  assert (HRb : 2 ^ 52 <= R <= 2 ^ 53) by lia.
  unfold binary_round_aux. rewrite (shr_fexp_eq (Z.pos p) ex lx n).
  2:{ change (Zdigits2 (Z.pos p)) with dg. rewrite fexp_normal by lia. unfold n. lia. }
  rewrite Hshr. fold R.
  destruct R as [|r|r] eqn:ER; [lia| |lia].
  destruct (Z.eq_dec (Z.pos r) (2 ^ 53)) as [E53|N53].
  - (* the carry: one more shift, which is exact *)
    assert (Er : r = 9007199254740992%positive)
      by (change (2 ^ 53) with 9007199254740992 in E53; lia).
    subst r.
    exists 9007199254740992, (4503599627370496%positive), (ex + n + 1).
    rewrite (shr_fexp_eq 9007199254740992 (ex + n) loc_Exact 1).
    2:{ change (Zdigits2 9007199254740992) with 54. rewrite fexp_normal by lia. lia. }
    change (shr (shr_record_of_loc 9007199254740992 loc_Exact) (ex + n) 1)
      with ({| shr_m := 4503599627370496; shr_r := false; shr_s := false |}, ex + n + 1).
    cbv beta iota delta [shr_m].
    replace (ex + n + 1 <=? emax - prec) with true
      by (symmetry; apply Z.leb_le; unfold emax, prec, n; lia).
    split; [reflexivity|]. split; [exact Hnear|]. split; [reflexivity|].
    right. split; [reflexivity|]. split; reflexivity.
  - assert (Hd : Z.pos (digits2_pos r) = 53)
      by (apply digits2_pos_unique; change (53 - 1) with 52; lia).
    exists (Z.pos r), r, (ex + n).
    rewrite (shr_fexp_eq (Z.pos r) (ex + n) loc_Exact 0).
    2:{ change (Zdigits2 (Z.pos r)) with (Z.pos (digits2_pos r)). rewrite Hd.
        rewrite fexp_normal by (unfold n; lia). lia. }
    change (shr (shr_record_of_loc (Z.pos r) loc_Exact) (ex + n) 0)
      with ({| shr_m := Z.pos r; shr_r := false; shr_s := false |}, ex + n).
    cbv beta iota delta [shr_m].
    replace (ex + n <=? emax - prec) with true
      by (symmetry; apply Z.leb_le; unfold emax, prec, n; lia).
    split; [reflexivity|]. split; [exact Hnear|]. split; [exact Hd|].
    left. split; reflexivity.
Qed.

Local Open Scope Q_scope.

Lemma pow2_pos (e : Z) : 0 < pow2 e.
Proof. apply Qpower_0_lt. reflexivity. Qed.

Lemma pow2_add (a b : Z) : pow2 (a + b) == pow2 a * pow2 b.
Proof. apply Qpower_plus. discriminate. Qed.

Lemma pow2_Z (n : Z) : (0 <= n)%Z -> pow2 n == inject_Z (2 ^ n).
Proof. intros H. unfold pow2. now rewrite Zpower_Qpower. Qed.

Lemma pow2_le (a b : Z) : (a <= b)%Z -> pow2 a <= pow2 b.
Proof. intros H. apply Qpower_le_compat_l; [exact H|discriminate]. Qed.

Lemma mag_pos (m : positive) (e : Z) : 0 < mag m e.
Proof.
  unfold mag. apply Qmult_lt_0_compat; [|apply pow2_pos].
  change 0 with (inject_Z 0). rewrite <- Zlt_Qlt. lia.
Qed.

(** An integer nearest to a quotient, in the rationals. *)
Lemma nearest_Q (R N D : Z) :
  (0 < D)%Z -> (Z.abs (2 * (R * D - N)) <= D)%Z ->
  - (1 # 2) <= inject_Z R - inject_Z N / inject_Z D <= 1 # 2.
Proof.
  intros HD H.
  assert (Hd : 0 < inject_Z D) by (change 0 with (inject_Z 0); rewrite <- Zlt_Qlt; exact HD).
  assert (H1 : (2 * N <= 2 * (R * D) + D)%Z) by lia.
  assert (H2 : (2 * (R * D) <= D + 2 * N)%Z) by lia.
  rewrite Zle_Qle in H1, H2.
  rewrite !inject_Z_plus, !inject_Z_mult in H1, H2.
  change (inject_Z 2) with 2 in H1, H2.
  assert (E : inject_Z R - inject_Z N / inject_Z D ==
              (inject_Z R * inject_Z D - inject_Z N) / inject_Z D).
  { field. intros E. rewrite E in Hd. exact (Qlt_irrefl _ Hd). }
  rewrite E. set (a := inject_Z R * inject_Z D) in *. split.
  - apply Qle_shift_div_l; [exact Hd|]. lra.
  - apply Qle_shift_div_r; [exact Hd|]. lra.
Qed.

Lemma inject_Z_pos (z : Z) : (0 < z)%Z -> 0 < inject_Z z.
Proof. intros H. change 0 with (inject_Z 0). now rewrite <- Zlt_Qlt. Qed.

Lemma floor_le_Q (N D : Z) :
  (0 < D)%Z -> inject_Z (N / D) <= inject_Z N / inject_Z D.
Proof.
  intros HD. apply Qle_shift_div_l; [now apply inject_Z_pos|].
  rewrite <- inject_Z_mult, <- Zle_Qle. rewrite Z.mul_comm. now apply Z.mul_div_le.
Qed.

Lemma floor_gt_Q (N D : Z) :
  (0 < D)%Z -> inject_Z N / inject_Z D < inject_Z (N / D + 1).
Proof.
  intros HD. apply Qlt_shift_div_r; [now apply inject_Z_pos|].
  rewrite <- inject_Z_mult, <- Zlt_Qlt. rewrite Z.mul_comm.
  now apply Z.mul_succ_div_gt.
Qed.

Lemma bits53 (m : positive) :
  Z.pos (digits2_pos m) = 53%Z -> (2 ^ 52 <= Z.pos m < 2 ^ 53)%Z.
Proof. intros H. pose proof (digits2_pos_bounds m) as B. rewrite H in B. exact B. Qed.

Lemma pow2_m1 (e : Z) : pow2 (e - 1) == pow2 e * (1 # 2).
Proof. unfold Z.sub. rewrite pow2_add. reflexivity. Qed.

Lemma round_aux_Q (sx : bool) (p : positive) (ex : Z) (lx : location) (N D : Z) :
  (0 < D)%Z -> Z.pos p = (N / D)%Z -> loc_ok lx N D ->
  (53 <= Z.pos (digits2_pos p))%Z ->
  (-1074 <= ex + Z.pos (digits2_pos p) - 53)%Z ->
  (ex + Z.pos (digits2_pos p) - 53 < 971)%Z ->
  let e0 := (ex + Z.pos (digits2_pos p) - 53)%Z in
  let X := inject_Z N / inject_Z D * pow2 ex in
  exists m e,
    binary_round_aux prec emax sx (Z.pos p) ex lx = S754_finite sx m e
    /\ Z.pos (digits2_pos m) = 53%Z
    /\ (e0 <= e <= e0 + 1)%Z
    /\ - pow2 (e0 - 1) <= mag m e - X <= pow2 (e0 - 1)
    /\ pow2 (e0 + 52) <= X
    /\ X < pow2 (e0 + 53)
    /\ exists R, mag m e == inject_Z R * pow2 e0 /\ (2 ^ 52 <= R <= 2 ^ 53)%Z.
Proof.
  intros HD Hp Hl Hdg Hlo Hhi e0 X.
  destruct (round_aux_spec sx p ex lx N D HD Hp Hl Hdg Hlo Hhi)
    as (R & m & e & Hres & Hnear & Hm & Hcase).
  cbv zeta in Hnear.
  set (n := (Z.pos (digits2_pos p) - 53)%Z) in *.
  assert (Hn : (0 <= n)%Z) by (unfold n; lia).
  assert (He0 : (e0 = ex + n)%Z) by (unfold e0, n; lia).
  assert (H2n : (0 < 2 ^ n)%Z) by (apply Z.pow_pos_nonneg; lia).
  assert (HD' : (0 < D * 2 ^ n)%Z) by (apply Z.mul_pos_pos; assumption).
  pose proof (nearest_Q R N (D * 2 ^ n) HD' Hnear) as Hq.
  pose proof (pow2_pos e0) as Ht. pose proof (pow2_pos ex) as Htx.
  assert (Hd : 0 < inject_Z D) by now apply inject_Z_pos.
  assert (Hpn : 0 < inject_Z (2 ^ n)) by now apply inject_Z_pos.
  assert (Et : pow2 e0 == pow2 ex * inject_Z (2 ^ n)).
  { rewrite He0, pow2_add, (pow2_Z n Hn). reflexivity. }
  assert (EV : mag m e == inject_Z R * pow2 e0).
  { destruct Hcase as [[E1 E2]|[E1 [E2 E3]]].
    - unfold mag. rewrite E1, E2, <- He0. reflexivity.
    - unfold mag. rewrite E1, E2, E3, <- He0, pow2_add. 
      change (inject_Z (2 ^ 52)) with (4503599627370496 # 1).
      change (inject_Z (2 ^ 53)) with (9007199254740992 # 1).
      change (pow2 1) with 2. field. }
  assert (EX : X == inject_Z N / inject_Z (D * 2 ^ n) * pow2 e0).
  { unfold X. rewrite Et, inject_Z_mult. field. split; intros E.
    - rewrite E in Hpn. exact (Qlt_irrefl _ Hpn).
    - rewrite E in Hd. exact (Qlt_irrefl _ Hd). }
  exists m, e. split; [exact Hres|]. split; [exact Hm|]. split.
  { destruct Hcase as [[_ E2]|[_ [_ E3]]]; lia. }
  split.
  { rewrite EV, EX, pow2_m1.
    set (t := pow2 e0) in *. set (y := inject_Z N / inject_Z (D * 2 ^ n)) in *.
    set (r := inject_Z R) in *. destruct Hq as [Hq1 Hq2].
    split; nra. }
  split.
  { apply Qle_trans with (inject_Z (Z.pos p) * pow2 ex).
    + pose proof (digits2_pos_bounds p) as [Blo _].
      replace (Z.pos (digits2_pos p) - 1)%Z with (n + 52)%Z in Blo by (unfold n; lia).
      replace (e0 + 52)%Z with ((n + 52) + ex)%Z by lia.
      rewrite pow2_add, (pow2_Z (n + 52)) by lia.
      apply Qmult_le_compat_r; [|apply Qlt_le_weak, Htx].
      now rewrite <- Zle_Qle.
    + unfold X. apply Qmult_le_compat_r; [|apply Qlt_le_weak, Htx].
      rewrite Hp. now apply floor_le_Q. }
  split.
  { apply Qlt_le_trans with (inject_Z (Z.pos p + 1) * pow2 ex).
    + unfold X. apply Qmult_lt_compat_r; [exact Htx|].
      rewrite Hp. now apply floor_gt_Q.
    + pose proof (digits2_pos_bounds p) as [_ Bhi].
      replace (Z.pos (digits2_pos p)) with (n + 53)%Z in Bhi by (unfold n; lia).
      replace (e0 + 53)%Z with ((n + 53) + ex)%Z by lia.
      rewrite pow2_add, (pow2_Z (n + 53)) by lia.
      apply Qmult_le_compat_r; [|apply Qlt_le_weak, Htx].
      rewrite <- Zle_Qle. lia. }
  exists R. split; [exact EV|].
  pose proof (bits53 m Hm) as Bm.
  destruct Hcase as [[E1 E2]|[E1 _]]; lia.
Qed.

Lemma rel_of_abs (e0 : Z) (V X : Q) :
  - pow2 (e0 - 1) <= V - X <= pow2 (e0 - 1) ->
  pow2 (e0 + 52) <= X ->
  - (X * u53) <= V - X <= X * u53.
Proof.
  intros [H1 H2] HX.
  assert (E : pow2 (e0 - 1) == pow2 (e0 + 52) * u53).
  { unfold u53. rewrite <- pow2_add. replace (e0 + 52 + -53)%Z with (e0 - 1)%Z by lia.
    reflexivity. }
  assert (Hu : 0 < u53) by apply pow2_pos.
  assert (Hle : pow2 (e0 - 1) <= X * u53).
  { rewrite E. apply Qmult_le_compat_r; [exact HX|apply Qlt_le_weak, Hu]. }
  split; lra.
Qed.

(** *** Multiplication *)

Lemma SFmul_Q (s1 s2 : bool) (m1 m2 : positive) (e1 e2 : Z) :
  Z.pos (digits2_pos m1) = 53%Z -> Z.pos (digits2_pos m2) = 53%Z ->
  (-1074 <= e1 + e2 + 52)%Z -> (e1 + e2 + 53 < 971)%Z ->
  let X := mag m1 e1 * mag m2 e2 in
  exists m e,
    SFmul prec emax (S754_finite s1 m1 e1) (S754_finite s2 m2 e2) =
      S754_finite (xorb s1 s2) m e
    /\ Z.pos (digits2_pos m) = 53%Z
    /\ (e1 + e2 + 52 <= e <= e1 + e2 + 54)%Z
    /\ - (X * u53) <= mag m e - X <= X * u53
    /\ rounds (mag m e) X.
Proof.
  intros H1 H2 Hlo Hhi X.
  pose proof (bits53 m1 H1) as B1. pose proof (bits53 m2 H2) as B2.
  pose proof (digits2_pos_bounds (m1 * m2)) as [Blo Bhi].
  set (dg := Z.pos (digits2_pos (m1 * m2))) in *.
  assert (Hdg : (105 <= dg <= 106)%Z).
  { rewrite Pos2Z.inj_mul in Blo, Bhi.
    assert (P1 : (2 ^ 104 <= Z.pos m1 * Z.pos m2)%Z)
      by (change (2 ^ 104)%Z with (2 ^ 52 * 2 ^ 52)%Z; nia).
    assert (P2 : (Z.pos m1 * Z.pos m2 < 2 ^ 106)%Z)
      by (change (2 ^ 106)%Z with (2 ^ 53 * 2 ^ 53)%Z; nia).
    split.
    - destruct (Z.le_gt_cases 105 dg) as [H|H]; [exact H|exfalso].
      assert (2 ^ dg <= 2 ^ 104)%Z by (apply Z.pow_le_mono_r; lia). lia.
    - destruct (Z.le_gt_cases dg 106) as [H|H]; [exact H|exfalso].
      assert (2 ^ 106 <= 2 ^ (dg - 1))%Z by (apply Z.pow_le_mono_r; lia). lia. }
  destruct (round_aux_Q (xorb s1 s2) (m1 * m2) (e1 + e2) loc_Exact
              (Z.pos (m1 * m2)) 1) as (m & e & Hres & Hm & He & Hab & HX & HXu & R & HR & HRb).
  - lia.
  - now rewrite Z.div_1_r.
  - cbn. apply Z.mod_1_r.
  - fold dg. lia.
  - fold dg. lia.
  - fold dg. lia.
  - fold dg in He, Hab, HX, HXu, HR. exists m, e. split; [exact Hres|]. split; [exact Hm|].
    split; [lia|].
    assert (EX : inject_Z (Z.pos (m1 * m2)) / inject_Z 1 * pow2 (e1 + e2) == X).
    { unfold X, mag. rewrite Pos2Z.inj_mul, inject_Z_mult, pow2_add.
      change (inject_Z 1) with 1. field. }
    rewrite EX in Hab, HX, HXu. split; [exact (rel_of_abs _ _ _ Hab HX)|].
    eexists _, R. split; [exact HR|]. split; [exact HRb|]. split; [exact Hab|].
    split; [exact HX|exact HXu].
Qed.

(** *** Division *)

Lemma new_location_ok (m2 r N : Z) :
  (0 < m2)%Z -> r = (N mod m2)%Z -> loc_ok (new_location m2 r) N m2.
Proof.
  intros Hm Hr. subst r. pose proof (Z.mod_pos_bound N m2 Hm) as Hb.
  unfold new_location.
  destruct (Z.even m2) eqn:Ev.
  - unfold new_location_even.
    destruct (Z.eqb_spec (N mod m2) 0) as [E|E]; unfold loc_ok; [exact E|].
    split; [exact E|reflexivity].
  - unfold new_location_odd.
    destruct (Z.eqb_spec (N mod m2) 0) as [E|E]; unfold loc_ok; [exact E|].
    split; [exact E|].
    assert (Hodd : Z.odd m2 = true) by (rewrite <- Z.negb_even, Ev; reflexivity).
    apply Z.odd_spec in Hodd. destruct Hodd as [k Hk].
    destruct (Z.compare_spec (2 * (N mod m2) + 1) m2) as [H|H|H];
      symmetry; [apply Z.compare_lt_iff|apply Z.compare_lt_iff|apply Z.compare_gt_iff]; lia.
Qed.

Lemma SFdiv_Q (s1 s2 : bool) (m1 m2 : positive) (e1 e2 : Z) :
  Z.pos (digits2_pos m1) = 53%Z -> Z.pos (digits2_pos m2) = 53%Z ->
  (-1074 <= e1 - e2 - 53)%Z -> (e1 - e2 - 52 < 971)%Z ->
  let X := mag m1 e1 / mag m2 e2 in
  exists m e,
    SFdiv prec emax (S754_finite s1 m1 e1) (S754_finite s2 m2 e2) =
      S754_finite (xorb s1 s2) m e
    /\ Z.pos (digits2_pos m) = 53%Z
    /\ (e1 - e2 - 53 <= e <= e1 - e2 - 51)%Z
    /\ - (X * u53) <= mag m e - X <= X * u53
    /\ rounds (mag m e) X.
Proof.
  intros H1 H2 Hlo Hhi X.
  pose proof (bits53 m1 H1) as B1. pose proof (bits53 m2 H2) as B2.
  unfold SFdiv, SFdiv_core_binary. cbn [Zdigits2]. rewrite H1, H2.
  rewrite fexp_normal by lia.
  replace (53 + e1 - (53 + e2) - 53)%Z with (e1 - e2 - 53)%Z by lia.
  rewrite Z.min_l by lia.
  replace (e1 - e2 - (e1 - e2 - 53))%Z with 53%Z by lia.
  rewrite Z.shiftl_mul_pow2 by lia.
  set (N := (Z.pos m1 * 2 ^ 53)%Z).
  destruct (Z.div_eucl N (Z.pos m2)) as [q r] eqn:Ediv.
  assert (Eq : q = (N / Z.pos m2)%Z) by (unfold Z.div; now rewrite Ediv).
  assert (Er : r = (N mod Z.pos m2)%Z) by (unfold Z.modulo; now rewrite Ediv).
  assert (Hq : (2 ^ 52 <= q < 2 ^ 54)%Z).
  { rewrite Eq. unfold N. split.
    - apply Z.div_le_lower_bound; [lia|].
      change (2 ^ 53)%Z with 9007199254740992%Z in *.
      change (2 ^ 52)%Z with 4503599627370496%Z in *. nia.
    - apply Z.div_lt_upper_bound; [lia|].
      change (2 ^ 53)%Z with 9007199254740992%Z in *.
      change (2 ^ 52)%Z with 4503599627370496%Z in *.
      change (2 ^ 54)%Z with 18014398509481984%Z in *. nia. }
  destruct q as [|pq|pq]; [lia| |lia].
  pose proof (digits2_pos_bounds pq) as [Blo Bhi].
  set (dg := Z.pos (digits2_pos pq)) in *.
  assert (Hdg : (53 <= dg <= 54)%Z).
  { split.
    - destruct (Z.le_gt_cases 53 dg) as [H|H]; [exact H|exfalso].
      assert (2 ^ dg <= 2 ^ 52)%Z by (apply Z.pow_le_mono_r; lia). lia.
    - destruct (Z.le_gt_cases dg 54) as [H|H]; [exact H|exfalso].
      assert (2 ^ 54 <= 2 ^ (dg - 1))%Z by (apply Z.pow_le_mono_r; lia). lia. }
  destruct (round_aux_Q (xorb s1 s2) pq (e1 - e2 - 53) (new_location (Z.pos m2) r)
              N (Z.pos m2)) as (m & e & Hres & Hm & He & Hab & HX & HXu & R & HR & HRb).
  - lia.
  - exact Eq.
  - apply new_location_ok; [lia|exact Er].
  - fold dg. lia.
  - fold dg. lia.
  - fold dg. lia.
  - fold dg in He, Hab, HX, HXu, HR. exists m, e. split; [exact Hres|]. split; [exact Hm|].
    split; [lia|].
    assert (EX : inject_Z N / inject_Z (Z.pos m2) * pow2 (e1 - e2 - 53) == X).
    { unfold X, mag, N. rewrite inject_Z_mult.
      replace (e1 - e2 - 53)%Z with (e1 + (- e2 + -53))%Z by lia.
      rewrite !pow2_add.
      assert (E2 : pow2 (- e2) == / pow2 e2) by (unfold pow2; apply Qpower_opp).
      rewrite E2. change (inject_Z (2 ^ 53)) with (9007199254740992 # 1).
      change (pow2 (-53)) with (1 # 9007199254740992).
      pose proof (pow2_pos e2) as P2.
      pose proof (inject_Z_pos (Z.pos m2) ltac:(lia)) as P3.
      field. split; intros E; [rewrite E in P2; exact (Qlt_irrefl _ P2)|
                               rewrite E in P3; exact (Qlt_irrefl _ P3)]. }
    rewrite EX in Hab, HX, HXu. split; [exact (rel_of_abs _ _ _ Hab HX)|].
    eexists _, R. split; [exact HR|]. split; [exact HRb|]. split; [exact Hab|].
    split; [exact HX|exact HXu].
Qed.

(** *** Rounding an integer mantissa *)

Lemma iter_xO (p d : positive) :
  Z.pos (Pos.iter xO p d) = (Z.pos p * 2 ^ Z.pos d)%Z.
Proof.
  induction d as [|d IH] using Pos.peano_ind.
  - cbn [Pos.iter]. change (2 ^ 1)%Z with 2%Z. lia.
  - rewrite Pos.iter_succ, Pos2Z.inj_succ, Z.pow_succ_r by lia.
    rewrite Pos2Z.inj_xO, IH. lia.
Qed.

Lemma shl_align_spec (mx : positive) (ex ez : Z) :
  (ez <= ex)%Z ->
  exists m', shl_align mx ex ez = (m', ez)
             /\ Z.pos m' = (Z.pos mx * 2 ^ (ex - ez))%Z.
Proof.
  intros H. unfold shl_align.
  destruct (ez - ex)%Z as [|d|d] eqn:E; [|lia|].
  - exists mx. replace ez with ex by lia. split; [reflexivity|].
    rewrite Z.sub_diag, Z.pow_0_r. lia.
  - exists (Pos.iter xO mx d). split; [reflexivity|].
    rewrite iter_xO. replace (ex - ez)%Z with (Z.pos d) by lia. reflexivity.
Qed.

Lemma shl_align_id (mx : positive) (ex ez : Z) :
  (ex <= ez)%Z -> shl_align mx ex ez = (mx, ex).
Proof.
  intros H. unfold shl_align. destruct (ez - ex)%Z as [|d|d] eqn:E; try reflexivity. lia.
Qed.

Lemma digits_shift (p : positive) (k : Z) (m : positive) :
  (0 <= k)%Z -> Z.pos m = (Z.pos p * 2 ^ k)%Z ->
  Z.pos (digits2_pos m) = (Z.pos (digits2_pos p) + k)%Z.
Proof.
  intros Hk Hm. pose proof (digits2_pos_bounds p) as [Blo Bhi].
  apply digits2_pos_unique. rewrite Hm.
  replace (Z.pos (digits2_pos p) + k - 1)%Z with (Z.pos (digits2_pos p) - 1 + k)%Z by lia.
  rewrite !Z.pow_add_r by lia.
  assert (0 < 2 ^ k)%Z by (apply Z.pow_pos_nonneg; lia). nia.
Qed.

Lemma binary_round_Q (sx : bool) (p : positive) (ex : Z) :
  let dg := Z.pos (digits2_pos p) in
  (-1074 <= ex + dg - 53)%Z -> (ex + dg - 53 < 971)%Z ->
  let e0 := (ex + dg - 53)%Z in
  let X := inject_Z (Z.pos p) * pow2 ex in
  exists m e,
    binary_round prec emax sx p ex = S754_finite sx m e
    /\ Z.pos (digits2_pos m) = 53%Z
    /\ (e0 <= e <= e0 + 1)%Z
    /\ - (X * u53) <= mag m e - X <= X * u53
    /\ ((dg <= 53)%Z -> mag m e == X).
Proof.
  intros dg Hlo Hhi e0 X.
  assert (HXpos : 0 < X).
  { unfold X. apply Qmult_lt_0_compat; [apply inject_Z_pos; lia|apply pow2_pos]. }
  assert (Hu : 0 < u53) by apply pow2_pos.
  unfold binary_round. fold dg. rewrite fexp_normal by lia.
  replace (dg + ex - 53)%Z with e0 by (unfold e0; lia).
  destruct (Z.le_gt_cases dg 53) as [Hs|Hb].
  - (* at most 53 bits: shifted left, then kept as it is *)
    destruct (shl_align_spec p ex e0 ltac:(unfold e0; lia)) as (mz & Hal & Hmz).
    rewrite Hal.
    assert (Hdz : Z.pos (digits2_pos mz) = 53%Z).
    { rewrite (digits_shift p (ex - e0) mz) by (unfold e0; lia || exact Hmz).
      fold dg. unfold e0. lia. }
    destruct (round_aux_spec sx mz e0 loc_Exact (Z.pos mz) 1) as
      (R & m & e & Hres & Hnear & Hm & Hcase).
    + lia.
    + now rewrite Z.div_1_r.
    + cbn. apply Z.mod_1_r.
    + lia.
    + rewrite Hdz. unfold e0. lia.
    + rewrite Hdz. unfold e0. lia.
    + cbv zeta in Hnear. rewrite Hdz in Hnear, Hcase.
      change (53 - 53)%Z with 0%Z in Hnear, Hcase.
      rewrite Z.pow_0_r in Hnear.
      assert (ER : R = Z.pos mz) by lia.
      pose proof (bits53 mz Hdz) as Bz.
      destruct Hcase as [[E1 E2]|[E1 _]]; [|lia].
      assert (Em : m = mz) by lia. subst m.
      assert (EV : mag mz e == X).
      { unfold mag, X. rewrite E2, Z.add_0_r, Hmz, inject_Z_mult.
        rewrite <- (pow2_Z (ex - e0)) by (unfold e0; lia).
        rewrite <- Qmult_assoc, <- pow2_add.
        replace (ex - e0 + e0)%Z with ex by lia. reflexivity. }
      exists mz, e. split; [exact Hres|]. split; [exact Hdz|].
      split; [lia|]. split; [|intros _; exact EV].
      rewrite EV. assert (0 < X * u53) by (apply Qmult_lt_0_compat; assumption).
      split; lra.
  - rewrite shl_align_id by (unfold e0; lia).
    destruct (round_aux_Q sx p ex loc_Exact (Z.pos p) 1) as
      (m & e & Hres & Hm & He & Hab & HX0 & _).
    + lia.
    + now rewrite Z.div_1_r.
    + cbn. apply Z.mod_1_r.
    + fold dg. lia.
    + fold dg. lia.
    + fold dg. lia.
    + fold dg in He, Hab, HX0. fold e0 in He, Hab, HX0.
      assert (EX : inject_Z (Z.pos p) / inject_Z 1 * pow2 ex == X).
      { unfold X. change (inject_Z 1) with 1. field. }
      rewrite EX in Hab, HX0.
      exists m, e. split; [exact Hres|]. split; [exact Hm|]. split; [exact He|].
      split; [exact (rel_of_abs _ _ _ Hab HX0)|lia].
Qed.

Lemma valid_53 (s : bool) (m : positive) (e : Z) :
  Z.pos (digits2_pos m) = 53%Z -> (-1074 <= e <= 971)%Z ->
  valid_binary (S754_finite s m e) = true.
Proof.
  intros Hm He. unfold SpecFloat.valid_binary, bounded, canonical_mantissa.
  rewrite Hm, fexp_normal by lia.
  apply andb_true_intro. split; [apply Z.eqb_eq; lia|].
  apply Z.leb_le. unfold emax, prec. lia.
Qed.

Lemma SFval_pos (m : positive) (e : Z) : SFval (S754_finite false m e) = mag m e.
Proof. reflexivity. Qed.

Lemma SFval_neg (m : positive) (e : Z) : SFval (S754_finite true m e) == - mag m e.
Proof.
  unfold SFval, mag, pow2. change (inject_Z (Z.neg m)) with (- inject_Z (Z.pos m)). ring.
Qed.

Lemma pow_lt_inv (a b : Z) : (0 <= b)%Z -> (2 ^ a < 2 ^ b)%Z -> (a < b)%Z.
Proof.
  intros Hb H. destruct (Z.lt_ge_cases a b) as [L|G]; [exact L|exfalso].
  assert (2 ^ b <= 2 ^ a)%Z by (apply Z.pow_le_mono_r; lia). lia.
Qed.

(** *** Subtraction of two positive doubles *)

Lemma SFsub_Q (m1 m2 : positive) (e1 e2 : Z) :
  Z.pos (digits2_pos m1) = 53%Z -> Z.pos (digits2_pos m2) = 53%Z ->
  (-1000 <= e1 <= 900)%Z -> (-1000 <= e2 <= 900)%Z ->
  let X := mag m1 e1 - mag m2 e2 in
  let r := SFsub prec emax (S754_finite false m1 e1) (S754_finite false m2 e2) in
  fin (Z.min e1 e2 - 52) (Z.max e1 e2 + 1) r
  /\ - (Qabs X * u53) <= SFval r - X <= Qabs X * u53.
Proof.
  intros H1 H2 He1 He2 X r.
  pose proof (bits53 m1 H1) as B1. pose proof (bits53 m2 H2) as B2.
  assert (Hu : 0 < u53) by apply pow2_pos.
  unfold r, SFsub. cbn [cond_Zopp].
  set (ez := Z.min e1 e2).
  destruct (shl_align_spec m1 e1 ez ltac:(unfold ez; lia)) as (a1 & Ha1 & Va1).
  destruct (shl_align_spec m2 e2 ez ltac:(unfold ez; lia)) as (a2 & Ha2 & Va2).
  rewrite Ha1, Ha2. cbn [fst].
  assert (EX : X == inject_Z (Z.pos a1 - Z.pos a2) * pow2 ez).
  { unfold X, mag. unfold Z.sub at 1. rewrite inject_Z_plus, inject_Z_opp, Va1, Va2.
    rewrite !inject_Z_mult.
    rewrite <- (pow2_Z (e1 - ez)), <- (pow2_Z (e2 - ez)) by (unfold ez; lia).
    assert (P1 : pow2 e1 == pow2 (e1 - ez) * pow2 ez)
      by (rewrite <- pow2_add; replace (e1 - ez + ez)%Z with e1 by lia; reflexivity).
    assert (P2 : pow2 e2 == pow2 (e2 - ez) * pow2 ez)
      by (rewrite <- pow2_add; replace (e2 - ez + ez)%Z with e2 by lia; reflexivity).
    rewrite P1, P2. ring. }
  assert (Hbig : forall d, (Z.pos d <= Z.pos a1 \/ Z.pos d <= Z.pos a2)%Z ->
                 (Z.pos (digits2_pos d) <= 53 + Z.max e1 e2 - ez)%Z).
  { intros d Hd. pose proof (digits2_pos_bounds d) as [Blo _].
    assert (Hlt : (2 ^ (Z.pos (digits2_pos d) - 1) < 2 ^ (53 + Z.max e1 e2 - ez))%Z).
    { apply Z.le_lt_trans with (Z.pos d); [exact Blo|].
      assert (Q1 : (2 ^ (e1 - ez) <= 2 ^ (Z.max e1 e2 - ez))%Z)
        by (apply Z.pow_le_mono_r; unfold ez; lia).
      assert (Q2 : (2 ^ (e2 - ez) <= 2 ^ (Z.max e1 e2 - ez))%Z)
        by (apply Z.pow_le_mono_r; unfold ez; lia).
      replace (53 + Z.max e1 e2 - ez)%Z with (53 + (Z.max e1 e2 - ez))%Z by lia.
      rewrite Z.pow_add_r by (unfold ez; lia).
      assert (0 < 2 ^ (Z.max e1 e2 - ez))%Z by (apply Z.pow_pos_nonneg; unfold ez; lia).
      destruct Hd; nia. }
    apply pow_lt_inv in Hlt; [lia|unfold ez; lia]. }
  destruct (Z.pos a1 - Z.pos a2)%Z as [|d|d] eqn:ED; cbn [binary_normalize].
  - split; [exact I|]. cbn [SFval].
    assert (E0 : X == 0) by (rewrite EX; change (inject_Z 0) with 0; ring).
    rewrite E0. change (Qabs 0) with 0. split; lra.
  - pose proof (Hbig d ltac:(lia)) as Hdg.
    pose proof (Pos2Z.is_pos (digits2_pos d)) as Hd1.
    destruct (binary_round_Q false d ez) as (m & e & Hres & Hm & He & Hrel & _).
    + unfold ez. lia.
    + unfold ez in *. lia.
    + rewrite Hres. split; [split; [exact Hm|unfold ez in *; lia]|].
      rewrite SFval_pos. rewrite <- EX in Hrel.
      assert (HXp : 0 <= X).
      { rewrite EX. apply Qmult_le_0_compat; [|apply Qlt_le_weak, pow2_pos].
        change 0 with (inject_Z 0). rewrite <- Zle_Qle. lia. }
      rewrite (Qabs_pos X HXp). exact Hrel.
  - pose proof (Hbig d ltac:(lia)) as Hdg.
    pose proof (Pos2Z.is_pos (digits2_pos d)) as Hd1.
    destruct (binary_round_Q true d ez) as (m & e & Hres & Hm & He & Hrel & _).
    + unfold ez. lia.
    + unfold ez in *. lia.
    + rewrite Hres. split; [split; [exact Hm|unfold ez in *; lia]|].
      rewrite SFval_neg.
      assert (EX' : inject_Z (Z.pos d) * pow2 ez == - X).
      { rewrite EX. change (inject_Z (Z.neg d)) with (- inject_Z (Z.pos d)). ring. }
      rewrite EX' in Hrel.
      assert (HXn : X <= 0).
      { rewrite EX. change (inject_Z (Z.neg d)) with (- inject_Z (Z.pos d)).
        pose proof (pow2_pos ez). pose proof (inject_Z_pos (Z.pos d) ltac:(lia)).
        nra. }
      rewrite (Qabs_neg X HXn). destruct Hrel as [R1 R2]. split; lra.
Qed.

(** *** Order *)

Lemma mag_lt_exp (m1 m2 : positive) (e1 e2 : Z) :
  Z.pos (digits2_pos m1) = 53%Z -> Z.pos (digits2_pos m2) = 53%Z ->
  (e1 < e2)%Z -> mag m1 e1 < mag m2 e2.
Proof.
  intros H1 H2 He. pose proof (bits53 m1 H1) as B1. pose proof (bits53 m2 H2) as B2.
  unfold mag.
  assert (P : pow2 e2 == pow2 (e2 - e1 - 1) * pow2 1 * pow2 e1).
  { rewrite <- !pow2_add.
    replace (e2 - e1 - 1 + 1 + e1)%Z with e2 by lia. reflexivity. }
  change (pow2 1) with 2 in P. rewrite P.
  assert (Q1 : 1 <= pow2 (e2 - e1 - 1)).
  { change 1 with (pow2 0). apply pow2_le. lia. }
  pose proof (pow2_pos e1) as Pe.
  assert (A1 : inject_Z (Z.pos m1) < inject_Z (2 ^ 53)) by (rewrite <- Zlt_Qlt; lia).
  assert (A2 : inject_Z (2 ^ 52) <= inject_Z (Z.pos m2)) by (rewrite <- Zle_Qle; lia).
  change (inject_Z (2 ^ 53)) with (9007199254740992 # 1) in A1.
  change (inject_Z (2 ^ 52)) with (4503599627370496 # 1) in A2.
  set (x1 := inject_Z (Z.pos m1)) in *. set (x2 := inject_Z (Z.pos m2)) in *.
  set (t := pow2 e1) in *. set (c := pow2 (e2 - e1 - 1)) in *.
  assert (x1 * t < 9007199254740992 * t) by nra.
  assert (9007199254740992 * t <= x2 * c * 2 * t).
  { assert (4503599627370496 <= x2 * c) by nra. nra. }
  lra.
Qed.

Lemma SFltb_spec (m1 m2 : positive) (e1 e2 : Z) :
  Z.pos (digits2_pos m1) = 53%Z -> Z.pos (digits2_pos m2) = 53%Z ->
  (SFltb (S754_finite false m1 e1) (S754_finite false m2 e2) = true
   <-> mag m1 e1 < mag m2 e2).
Proof.
  intros H1 H2. unfold SFltb, SFcompare.
  destruct (Z.compare_spec e1 e2) as [E|L|G].
  - subst e2. change (Pos.compare_cont Eq m1 m2) with (Pos.compare m1 m2).
    pose proof (pow2_pos e1) as Pe. unfold mag.
    destruct (Pos.compare_spec m1 m2) as [E|L|G].
    + subst m2. split; [discriminate|]. intros H. exfalso. exact (Qlt_irrefl _ H).
    + split; [intros _|reflexivity].
      apply Qmult_lt_compat_r; [exact Pe|]. rewrite <- Zlt_Qlt. lia.
    + split; [discriminate|]. intros H. exfalso.
      assert (inject_Z (Z.pos m2) * pow2 e1 < inject_Z (Z.pos m1) * pow2 e1).
      { apply Qmult_lt_compat_r; [exact Pe|]. rewrite <- Zlt_Qlt. lia. }
      lra.
  - split; [intros _|reflexivity]. now apply mag_lt_exp.
  - split; [discriminate|]. intros H. exfalso.
    pose proof (mag_lt_exp m2 m1 e2 e1 H2 H1 G). lra.
Qed.

(** *** The engine's doubles *)

Lemma F2Q_finite (f : float) (s : bool) (m : positive) (e : Z) :
  Prim2SF f = S754_finite s m e -> F2Q f = Some (SFval (S754_finite s m e)).
Proof. intros H. unfold F2Q. rewrite H. reflexivity. Qed.

Lemma F2Q_zero (f : float) (s : bool) :
  Prim2SF f = S754_zero s -> F2Q f = Some 0.
Proof. intros H. unfold F2Q. rewrite H. reflexivity. Qed.

Lemma F2Q_isF (f : float) (m : positive) (e : Z) :
  isF f m e -> F2Q f = Some (mag m e).
Proof. intros [H _]. exact (F2Q_finite f false m e H). Qed.

Lemma near_intro (tol : Q) (f : float) (v q : Q) :
  F2Q f = Some v -> - tol <= v - q <= tol -> near tol f q = true.
Proof.
  intros Hf H. unfold near. rewrite Hf. apply Qle_bool_iff.
  apply Qabs_Qle_condition. exact H.
Qed.

Lemma Z2F_spec (z : Z) :
  (0 < z < 2 ^ 53)%Z ->
  exists m e, isF (Num.Z2F z) m e /\ (-52 <= e <= 1)%Z /\ mag m e == inject_Z z.
Proof.
  intros Hz. destruct z as [|p|p]; [lia| |lia].
  pose proof (digits2_pos_bounds p) as [Blo _].
  assert (Hdg : (Z.pos (digits2_pos p) <= 53)%Z).
  { assert (Hlt : (2 ^ (Z.pos (digits2_pos p) - 1) < 2 ^ 53)%Z) by lia.
    apply pow_lt_inv in Hlt; lia. }
  destruct (binary_round_Q false p 0) as (m & e & Hres & Hm & He & _ & Hex); [lia|lia|].
  exists m, e. split; [split; [|exact Hm]|split; [lia|]].
  - unfold Num.Z2F. change (binary_normalize prec emax (Z.pos p) 0 false)
      with (binary_round prec emax false p 0).
    rewrite Hres. apply Prim2SF_SF2Prim. apply valid_53; [exact Hm|lia].
  - rewrite (Hex Hdg). change (pow2 0) with 1. ring.
Qed.

Lemma div_F (a b : float) (ma mb : positive) (ea eb : Z) :
  isF a ma ea -> isF b mb eb ->
  (-1074 <= ea - eb - 53)%Z -> (ea - eb - 52 < 971)%Z ->
  let X := mag ma ea / mag mb eb in
  exists m e, isF (a / b)%float m e
    /\ (ea - eb - 53 <= e <= ea - eb - 51)%Z
    /\ - (X * u53) <= mag m e - X <= X * u53
    /\ rounds (mag m e) X.
Proof.
  intros [Ha Da] [Hb Db] Hlo Hhi X.
  destruct (SFdiv_Q false false ma mb ea eb Da Db Hlo Hhi)
    as (m & e & Hres & Hm & He & Hrel & Hrnd).
  exists m, e. split; [split; [|exact Hm]|split; [exact He|split; [exact Hrel|exact Hrnd]]].
  rewrite FloatAxioms.div_spec, Ha, Hb. exact Hres.
Qed.

Lemma mul_F (a b : float) (ma mb : positive) (ea eb : Z) :
  isF a ma ea -> isF b mb eb ->
  (-1074 <= ea + eb + 52)%Z -> (ea + eb + 53 < 971)%Z ->
  let X := mag ma ea * mag mb eb in
  exists m e, isF (a * b)%float m e
    /\ (ea + eb + 52 <= e <= ea + eb + 54)%Z
    /\ - (X * u53) <= mag m e - X <= X * u53
    /\ rounds (mag m e) X.
Proof.
  intros [Ha Da] [Hb Db] Hlo Hhi X.
  destruct (SFmul_Q false false ma mb ea eb Da Db Hlo Hhi)
    as (m & e & Hres & Hm & He & Hrel & Hrnd).
  exists m, e. split; [split; [|exact Hm]|split; [exact He|split; [exact Hrel|exact Hrnd]]].
  rewrite FloatAxioms.mul_spec, Ha, Hb. exact Hres.
Qed.

Lemma isF_not_nan (a : float) (m : positive) (e : Z) : isF a m e -> is_nan a = false.
Proof.
  intros [Ha _]. unfold is_nan. rewrite FloatAxioms.eqb_spec, Ha.
  unfold SFeqb, SFcompare. rewrite Z.compare_refl.
  change (Pos.compare_cont Eq m m) with (Pos.compare m m). now rewrite Pos.compare_refl.
Qed.

Lemma min_F (a b : float) (ma mb : positive) (ea eb : Z) :
  isF a ma ea -> isF b mb eb ->
  (Num.Math_min a b = a /\ mag ma ea <= mag mb eb)
  \/ (Num.Math_min a b = b /\ mag mb eb <= mag ma ea).
Proof.
  intros Ha Hb. unfold Num.Math_min.
  rewrite (isF_not_nan a ma ea Ha), (isF_not_nan b mb eb Hb). cbn [orb].
  destruct Ha as [Ha Da], Hb as [Hb Db].
  rewrite !FloatAxioms.ltb_spec, Ha, Hb.
  pose proof (SFltb_spec ma mb ea eb Da Db) as L1.
  pose proof (SFltb_spec mb ma eb ea Db Da) as L2.
  destruct (SFltb (S754_finite false ma ea) (S754_finite false mb eb)) eqn:E1.
  - left. split; [reflexivity|]. apply Qlt_le_weak, L1. reflexivity.
  - destruct (SFltb (S754_finite false mb eb) (S754_finite false ma ea)) eqn:E2.
    + right. split; [reflexivity|]. apply Qlt_le_weak, L2. reflexivity.
    + assert (N1 : ~ mag ma ea < mag mb eb) by (intros H; apply L1 in H; discriminate).
      assert (N2 : ~ mag mb eb < mag ma ea) by (intros H; apply L2 in H; discriminate).
      apply Qnot_lt_le in N1, N2.
      destruct (get_sign a); [left|right]; split; try reflexivity; assumption.
Qed.

(** Half of the difference of two positive doubles, as in
    [(size - scaledWidth) / 2]. *)
Lemma half_diff_F (a b : float) (ma mb : positive) (ea eb : Z) :
  isF a ma ea -> isF b mb eb ->
  (-500 <= ea <= 500)%Z -> (-500 <= eb <= 500)%Z ->
  let D := mag ma ea - mag mb eb in
  exists v, F2Q ((a - b) / 2)%float = Some v
    /\ - (Qabs D * (3 # 2) * u53) <= v - D / 2 <= Qabs D * (3 # 2) * u53.
Proof.
  intros [Ha Da] [Hb Db] Hea Heb D.
  destruct (SFsub_Q ma mb ea eb Da Db ltac:(lia) ltac:(lia)) as [Hfin Hrel].
  cbv zeta in Hfin, Hrel. fold D in Hrel.
  assert (H2 : Prim2SF 2%float = S754_finite false 4503599627370496 (-51))
    by (vm_compute; reflexivity).
  assert (Hsub : Prim2SF (a - b)%float =
                 SFsub prec emax (S754_finite false ma ea) (S754_finite false mb eb))
    by (rewrite FloatAxioms.sub_spec, Ha, Hb; reflexivity).
  change u53 with (1 # 9007199254740992) in *.
  unfold Qdiv. change (/ 2) with (1 # 2).
  destruct (SFsub prec emax (S754_finite false ma ea) (S754_finite false mb eb))
    as [s0| | |s0 m e] eqn:Er; cbn [fin] in Hfin; try contradiction.
  - exists 0. split.
    + apply (F2Q_zero _ (xorb s0 false)). rewrite FloatAxioms.div_spec, Hsub, H2. reflexivity.
    + cbn [SFval] in Hrel. destruct Hrel as [R1 R2].
      destruct (Qlt_le_dec D 0) as [Hn|Hp].
      * rewrite (Qabs_neg D) in * by lra. split; lra.
      * rewrite (Qabs_pos D) in * by lra. split; lra.
  - destruct Hfin as [Dm He].
    destruct (SFdiv_Q s0 false m 4503599627370496 e (-51) Dm eq_refl
                ltac:(lia) ltac:(lia)) as (m' & e' & Hres & Hm' & He' & Hrel' & _).
    rewrite xorb_false_r in Hres.
    assert (Ehalf : mag m e / mag 4503599627370496 (-51) == mag m e * (1 # 2)).
    { unfold mag at 2. change (inject_Z (Z.pos 4503599627370496) * pow2 (-51)) with
        ((4503599627370496 # 1) * (1 # 2251799813685248)). field. }
    rewrite Ehalf in Hrel'. change u53 with (1 # 9007199254740992) in Hrel'.
    exists (SFval (S754_finite s0 m' e')). split.
    + apply F2Q_finite. rewrite FloatAxioms.div_spec, Hsub, H2. exact Hres.
    + pose proof (mag_pos m e) as Pm. destruct Hrel as [R1 R2], Hrel' as [R3 R4].
      destruct s0.
      * rewrite SFval_neg in *.
        destruct (Qlt_le_dec D 0) as [Hn|Hp].
        -- rewrite (Qabs_neg D) in * by lra. split; lra.
        -- rewrite (Qabs_pos D) in * by lra. split; lra.
      * rewrite SFval_pos in *.
        destruct (Qlt_le_dec D 0) as [Hn|Hp].
        -- rewrite (Qabs_neg D) in * by lra. split; lra.
        -- rewrite (Qabs_pos D) in * by lra. split; lra.
Qed.

(** *** The placement on doubles against the exact one *)

Lemma scale_err (a1 a2 q1 q2 c : Q) :
  0 < a1 -> 0 < a2 ->
  - (a1 * u53) <= q1 - a1 <= a1 * u53 ->
  - (a2 * u53) <= q2 - a2 <= a2 * u53 ->
  (c == q1 /\ q1 <= q2) \/ (c == q2 /\ q2 <= q1) ->
  - (Qmin a1 a2 * u53) <= c - Qmin a1 a2 <= Qmin a1 a2 * u53.
Proof.
  intros H1 H2 [A1 A2] [B1 B2] Hc. change u53 with (1 # 9007199254740992) in *.
  destruct (Q.min_spec a1 a2) as [[Hlt E]|[Hle E]]; rewrite E;
    destruct Hc as [[Ec Hq]|[Ec Hq]]; rewrite Ec; split; lra.
Qed.

Lemma axis_agrees (fS fW fC : float) (mS mW mC : positive) (eS eW eC : Z)
    (size width : Z) (sc : Q) :
  isF fS mS eS -> mag mS eS == inject_Z size -> (-52 <= eS <= 1)%Z ->
  isF fW mW eW -> mag mW eW == inject_Z width -> (-52 <= eW <= 1)%Z ->
  isF fC mC eC -> (-106 <= eC <= 2)%Z ->
  0 < inject_Z size -> 0 < inject_Z width -> 0 <= sc ->
  inject_Z width * sc <= inject_Z size ->
  - (sc * u53) <= mag mC eC - sc <= sc * u53 ->
  near (inject_Z size * 2 ^ (-51)) (fW * fC)%float (inject_Z width * sc) = true
  /\ near (inject_Z size * 2 ^ (-51)) ((fS - fW * fC) / 2)%float
       ((inject_Z size - inject_Z width * sc) / 2) = true.
Proof.
  intros FS VS ES FW VW EW FC EC HS HW Hsc Hfit [C1 C2].
  destruct (mul_F fW fC mW mC eW eC FW FC ltac:(lia) ltac:(lia))
    as (m & e & Fm & Em & [M1 M2] & _).
  destruct (half_diff_F fS (fW * fC)%float mS m eS e FS Fm ltac:(lia) ltac:(lia))
    as (v & Hv & [D1 D2]).
  rewrite VS in D1, D2. rewrite VW in M1, M2.
  change u53 with (1 # 9007199254740992) in *.
  change (2 ^ (-51)) with (1 # 2251799813685248).
  unfold Qdiv in *. change (/ 2) with (1 # 2) in *.
  set (S := inject_Z size) in *. set (W := inject_Z width) in *.
  set (c := mag mC eC) in *. set (sw := mag m e) in *.
  assert (G1 : W * sc * (1 - (1 # 9007199254740992)) <= W * c) by nra.
  assert (G2 : W * c <= W * sc * (1 + (1 # 9007199254740992))) by nra.
  set (p := W * sc) in *. set (g := W * c) in *.
  assert (Hp0 : 0 <= p) by (unfold p; nra).
  split.
  - apply (near_intro _ _ sw); [exact (F2Q_isF _ _ _ Fm)|]. split; lra.
  - apply (near_intro _ _ v); [exact Hv|].
    destruct (Qlt_le_dec (S - sw) 0) as [Hn|Hpos].
    + rewrite (Qabs_neg (S - sw)) in D1, D2 by lra. split; lra.
    + rewrite (Qabs_pos (S - sw)) in D1, D2 by lra. split; lra.
Qed.

Lemma fit_agrees_all (size width height : Z) :
  (0 < size < 2 ^ 53)%Z -> (0 < width < 2 ^ 53)%Z -> (0 < height < 2 ^ 53)%Z ->
  agrees size (fit (Int size) width height) (Exact.fit size width height) = true.
Proof.
  intros Hs Hw Hh.
  destruct (Z2F_spec size Hs) as (mS & eS & FS & ES & VS).
  destruct (Z2F_spec width Hw) as (mW & eW & FW & EW & VW).
  destruct (Z2F_spec height Hh) as (mH & eH & FH & EH & VH).
  pose proof (inject_Z_pos size ltac:(lia)) as PS.
  pose proof (inject_Z_pos width ltac:(lia)) as PW.
  pose proof (inject_Z_pos height ltac:(lia)) as PH.
  destruct (div_F _ _ mS mW eS eW FS FW ltac:(lia) ltac:(lia))
    as (m1 & e1 & F1 & E1 & R1 & _).
  destruct (div_F _ _ mS mH eS eH FS FH ltac:(lia) ltac:(lia))
    as (m2 & e2 & F2 & E2 & R2 & _).
  rewrite VS, VW in R1. rewrite VS, VH in R2.
  set (S := inject_Z size) in *. set (W := inject_Z width) in *.
  set (H := inject_Z height) in *.
  assert (A1 : 0 < S / W) by (apply Qlt_shift_div_l; lra).
  assert (A2 : 0 < S / H) by (apply Qlt_shift_div_l; lra).
  set (sc := Qmin (S / W) (S / H)).
  set (fC := Num.Math_min (Num.Z2F size / Num.Z2F width) (Num.Z2F size / Num.Z2F height)).
  assert (HC : exists mC eC, isF fC mC eC /\ (-106 <= eC <= 2)%Z
                 /\ - (sc * u53) <= mag mC eC - sc <= sc * u53).
  { destruct (min_F _ _ m1 m2 e1 e2 F1 F2) as [[Em Hle]|[Em Hle]].
    - exists m1, e1. unfold fC. rewrite Em. split; [exact F1|]. split; [lia|].
      apply (scale_err _ _ (mag m1 e1) (mag m2 e2)); try assumption.
      left. split; [reflexivity|exact Hle].
    - exists m2, e2. unfold fC. rewrite Em. split; [exact F2|]. split; [lia|].
      apply (scale_err _ _ (mag m1 e1) (mag m2 e2)); try assumption.
      right. split; [reflexivity|exact Hle]. }
  destruct HC as (mC & eC & FC & EC & RC).
  assert (Hsc0 : 0 <= sc).
  { unfold sc. destruct (Q.min_spec (S / W) (S / H)) as [[_ E]|[_ E]]; rewrite E; lra. }
  assert (HWsc : W * sc <= S).
  { apply Qle_trans with (W * (S / W)).
    - apply Qmult_le_l; [exact PW|apply Q.le_min_l].
    - rewrite Qmult_div_r; [apply Qle_refl|]. intros E. rewrite E in PW.
      exact (Qlt_irrefl _ PW). }
  assert (HHsc : H * sc <= S).
  { apply Qle_trans with (H * (S / H)).
    - apply Qmult_le_l; [exact PH|apply Q.le_min_r].
    - rewrite Qmult_div_r; [apply Qle_refl|]. intros E. rewrite E in PH.
      exact (Qlt_irrefl _ PH). }
  destruct (axis_agrees (Num.Z2F size) (Num.Z2F width) fC mS mW mC eS eW eC
              size width sc FS VS ES FW VW EW FC EC PS PW Hsc0 HWsc RC) as [NW NX].
  destruct (axis_agrees (Num.Z2F size) (Num.Z2F height) fC mS mH mC eS eH eC
              size height sc FS VS ES FH VH EH FC EC PS PH Hsc0 HHsc RC) as [NH NY].
  unfold agrees, fit, Exact.fit.
  cbn [Num.toFloat Placement.scale Placement.scaledWidth Placement.scaledHeight
       Placement.x Placement.y Exact.scale Exact.scaledWidth Exact.scaledHeight
       Exact.x Exact.y].
  fold S W H. fold sc fC. fold S W H in NW, NX, NH, NY. rewrite NW, NX, NH, NY.
  rewrite !andb_true_r.
  apply (near_intro _ _ (mag mC eC)); [exact (F2Q_isF _ _ _ FC)|].
  change u53 with (1 # 9007199254740992) in RC.
  change (2 ^ (-52)) with (1 # 4503599627370496).
  destruct RC as [RC1 RC2]. split; lra.
Qed.

(** *** The reported percentage *)

Lemma SFleb_spec (m1 m2 : positive) (e1 e2 : Z) :
  Z.pos (digits2_pos m1) = 53%Z -> Z.pos (digits2_pos m2) = 53%Z ->
  mag m1 e1 <= mag m2 e2 ->
  SFleb (S754_finite false m1 e1) (S754_finite false m2 e2) = true.
Proof.
  intros H1 H2 Hle. unfold SFleb, SFcompare.
  destruct (Z.compare_spec e1 e2) as [E|L|G]; [|reflexivity|].
  - subst e2. change (Pos.compare_cont Eq m1 m2) with (Pos.compare m1 m2).
    destruct (Pos.compare_spec m1 m2) as [E|L|G]; [reflexivity|reflexivity|exfalso].
    pose proof (pow2_pos e1) as Pe. unfold mag in Hle.
    assert (inject_Z (Z.pos m2) * pow2 e1 < inject_Z (Z.pos m1) * pow2 e1).
    { apply Qmult_lt_compat_r; [exact Pe|]. rewrite <- Zlt_Qlt. lia. }
    lra.
  - exfalso. pose proof (mag_lt_exp m2 m1 e2 e1 H2 H1 G). lra.
Qed.

Lemma leb_F (a b : float) (ma mb : positive) (ea eb : Z) :
  isF a ma ea -> isF b mb eb -> mag ma ea <= mag mb eb -> PrimFloat.leb a b = true.
Proof.
  intros [Ha Da] [Hb Db] Hle. rewrite FloatAxioms.leb_spec, Ha, Hb.
  now apply SFleb_spec.
Qed.

(** A double divided by itself is exactly [1]. *)
Lemma div_self_F (a : float) (m : positive) (e : Z) :
  isF a m e -> (a / a)%float = 1%float.
Proof.
  intros [Ha Da]. pose proof (bits53 m Da) as B.
  apply Prim2SF_inj. rewrite FloatAxioms.div_spec, Ha.
  change (Prim2SF 1) with (S754_finite false 4503599627370496 (-52)).
  unfold SF64div, SFdiv, SFdiv_core_binary.
  change (Zdigits2 (Z.pos m)) with (Z.pos (digits2_pos m)). rewrite Da.
  rewrite fexp_normal by lia.
  replace (53 + e - (53 + e) - 53)%Z with (-53)%Z by lia.
  replace (e - e)%Z with 0%Z by lia.
  change (Z.min (-53) 0) with (-53)%Z. change (0 - -53)%Z with 53%Z.
  rewrite Z.shiftl_mul_pow2 by lia.
  set (N := (Z.pos m * 2 ^ 53)%Z).
  assert (Eq : (N / Z.pos m)%Z = (2 ^ 53)%Z)
    by (unfold N; rewrite Z.mul_comm; apply Z.div_mul; lia).
  assert (Er : (N mod Z.pos m)%Z = 0%Z)
    by (unfold N; rewrite Z.mul_comm; apply Z.mod_mul; lia).
  destruct (Z.div_eucl N (Z.pos m)) as [q r] eqn:Ediv.
  assert (Eq' : q = (2 ^ 53)%Z) by (rewrite <- Eq; unfold Z.div; now rewrite Ediv).
  assert (Er' : r = 0%Z) by (rewrite <- Er; unfold Z.modulo; now rewrite Ediv).
  subst q r. change (2 ^ 53)%Z with (Z.pos 9007199254740992).
  destruct (round_aux_spec false 9007199254740992 (-53)
              (new_location (Z.pos m) 0) N (Z.pos m))
    as (R & m' & e' & Hres & Hnear & Hm' & Hcase).
  - lia.
  - symmetry. exact Eq.
  - apply new_location_ok; [lia|symmetry; exact Er].
  - vm_compute. discriminate.
  - vm_compute. discriminate.
  - vm_compute. reflexivity.
  - change (xorb false false) with false. rewrite Hres.
    cbv zeta in Hnear.
    change (Z.pos (digits2_pos 9007199254740992) - 53)%Z with 1%Z in Hnear, Hcase.
    change (2 ^ 1)%Z with 2%Z in Hnear. unfold N in Hnear.
    change (2 ^ 53)%Z with 9007199254740992%Z in *.
    change (2 ^ 52)%Z with 4503599627370496%Z in *.
    assert (ER : R = 4503599627370496%Z) by nia.
    destruct Hcase as [[E1 E2]|[E1 _]]; [|lia].
    assert (Em : m' = 4503599627370496%positive) by lia.
    subst m' e'. reflexivity.
Qed.

Lemma F100 : isF 100%float 7036874417766400 (-46) /\ mag 7036874417766400 (-46) == 100.
Proof. split; [split; vm_compute; reflexivity|vm_compute; reflexivity]. Qed.

(** The percentage reported for [c] of [total] operations is within three
    roundoffs of [100 * c / total]. *)
Lemma percent_spec (c total : Z) :
  (0 < c < 2 ^ 53)%Z -> (0 < total < 2 ^ 53)%Z ->
  let X := ratio c total * 100 in
  exists m e, isF (percent c total) m e
    /\ - (X * (3 # 1) * u53) <= mag m e - X <= X * (3 # 1) * u53.
Proof.
  intros Hc Ht X.
  destruct (Z2F_spec c Hc) as (mc & ec & Fc & Ec & Vc).
  destruct (Z2F_spec total Ht) as (mt & et & Ft & Et & Vt).
  destruct (div_F _ _ mc mt ec et Fc Ft ltac:(lia) ltac:(lia))
    as (mq & eq & Fq & Eq & [Q1 Q2] & _).
  destruct F100 as [F100 V100].
  destruct (mul_F _ _ mq 7036874417766400 eq (-46) Fq F100 ltac:(lia) ltac:(lia))
    as (m & e & Fm & Em & [M1 M2] & _).
  exists m, e. split; [exact Fm|].
  rewrite Vc, Vt in Q1, Q2. rewrite V100 in M1, M2.
  pose proof (inject_Z_pos c ltac:(lia)) as Pc.
  pose proof (inject_Z_pos total ltac:(lia)) as Pt.
  assert (Pr : 0 < ratio c total) by (unfold ratio; apply Qlt_shift_div_l; lra).
  unfold X. fold (ratio c total) in Q1, Q2.
  change u53 with (1 # 9007199254740992) in *.
  set (r := ratio c total) in *. set (q := mag mq eq) in *. set (v := mag m e) in *.
  split; lra.
Qed.

Lemma ratio_succ (c total : Z) :
  (0 < total)%Z -> ratio (c + 1) total == ratio c total + / inject_Z total.
Proof.
  intros Ht. unfold ratio. rewrite inject_Z_plus. change (inject_Z 1) with 1.
  pose proof (inject_Z_pos total Ht) as P. field.
  intros E. rewrite E in P. exact (Qlt_irrefl _ P).
Qed.

Lemma ratio_scale (c total : Z) (b : Q) :
  (0 < total)%Z -> inject_Z c <= b -> ratio c total <= b * / inject_Z total.
Proof.
  intros Ht Hb. unfold ratio, Qdiv. apply Qmult_le_compat_r; [exact Hb|].
  apply Qinv_le_0_compat, Qlt_le_weak, inject_Z_pos. exact Ht.
Qed.

(** Rounding never reverses the order of two distinct values. *)
Lemma rounds_mono (V1 X1 V2 X2 : Q) :
  rounds V1 X1 -> rounds V2 X2 -> X1 < X2 -> V1 <= V2.
Proof.
  intros (e1 & R1 & EV1 & B1 & [L1 U1] & Xl1 & Xu1)
         (e2 & R2 & EV2 & B2 & [L2 U2] & Xl2 & Xu2) Hlt.
  assert (I1 : inject_Z (2 ^ 52) <= inject_Z R1 <= inject_Z (2 ^ 53))
    by (rewrite <- !Zle_Qle; exact B1).
  assert (I2 : inject_Z (2 ^ 52) <= inject_Z R2 <= inject_Z (2 ^ 53))
    by (rewrite <- !Zle_Qle; exact B2).
  rewrite <- !(pow2_Z 52), <- !(pow2_Z 53) in * by lia.
  destruct (Z.lt_trichotomy e1 e2) as [L|[E|G]].
  - rewrite EV1, EV2.
    apply Qle_trans with (pow2 53 * pow2 e1).
    { apply Qmult_le_compat_r; [apply I1|apply Qlt_le_weak, pow2_pos]. }
    apply Qle_trans with (pow2 52 * pow2 e2).
    { rewrite <- !pow2_add. apply pow2_le. lia. }
    apply Qmult_le_compat_r; [apply I2|apply Qlt_le_weak, pow2_pos].
  - subst e2. rewrite pow2_m1 in *. pose proof (pow2_pos e1) as Pt.
    rewrite EV1 in U1. rewrite EV2 in L2.
    set (t := pow2 e1) in *. set (r1 := inject_Z R1) in *. set (r2 := inject_Z R2) in *.
    assert (Hr : r1 < r2 + 1) by nra.
    assert (HZ : (R1 < R2 + 1)%Z).
    { rewrite Zlt_Qlt, inject_Z_plus. exact Hr. }
    assert (Hle : r1 <= r2) by (unfold r1, r2; rewrite <- Zle_Qle; lia).
    rewrite EV1, EV2. fold r1 r2. apply Qmult_le_compat_r; [exact Hle|apply Qlt_le_weak, Pt].
  - exfalso.
    assert (pow2 (e2 + 53) <= pow2 (e1 + 52)) by (apply pow2_le; lia).
    lra.
Qed.

Lemma isF_unique (a b : float) (ma mb : positive) (ea eb : Z) :
  isF a ma ea -> isF b mb eb -> mag ma ea == mag mb eb -> a = b.
Proof.
  intros [Ha Da] [Hb Db] E.
  destruct (Z.lt_trichotomy ea eb) as [L|[Ee|G]].
  - pose proof (mag_lt_exp ma mb ea eb Da Db L). lra.
  - subst eb. apply Prim2SF_inj. rewrite Ha, Hb. f_equal.
    unfold mag in E. pose proof (pow2_pos ea) as Pt.
    assert (E' : inject_Z (Z.pos ma) == inject_Z (Z.pos mb)).
    { apply (Qmult_inj_r _ _ (pow2 ea)); [|exact E]. intros E0. rewrite E0 in Pt.
      exact (Qlt_irrefl _ Pt). }
    rewrite inject_Z_injective in E'. congruence.
  - pose proof (mag_lt_exp mb ma eb ea Db Da G). lra.
Qed.

(** Multiplying by [100] keeps the order of two doubles. *)
Lemma mul100_mono (a b : float) (ma mb : positive) (ea eb : Z) :
  isF a ma ea -> isF b mb eb ->
  (-200 <= ea <= 200)%Z -> (-200 <= eb <= 200)%Z ->
  mag ma ea <= mag mb eb ->
  PrimFloat.leb (a * 100) (b * 100) = true.
Proof.
  intros Fa Fb Ea Eb Hle. destruct F100 as [F100 V100].
  destruct (mul_F _ _ ma 7036874417766400 ea (-46) Fa F100 ltac:(lia) ltac:(lia))
    as (m1 & e1 & F1 & _ & _ & Rn1).
  destruct (mul_F _ _ mb 7036874417766400 eb (-46) Fb F100 ltac:(lia) ltac:(lia))
    as (m2 & e2 & F2 & _ & _ & Rn2).
  destruct (Qlt_le_dec (mag ma ea) (mag mb eb)) as [Hlt|Hge].
  - apply (leb_F _ _ m1 m2 e1 e2 F1 F2).
    apply (rounds_mono _ _ _ _ Rn1 Rn2). rewrite V100. lra.
  - assert (Eab : a = b) by (apply (isF_unique a b ma mb ea eb Fa Fb); lra).
    subst b. apply (leb_F _ _ m1 m1 e1 e1 F1 F1). apply Qle_refl.
Qed.

Lemma ratio_lt (c d total : Z) :
  (0 < total)%Z -> (c < d)%Z -> ratio c total < ratio d total.
Proof.
  intros Ht Hlt. unfold ratio, Qdiv. apply Qmult_lt_compat_r.
  - apply Qinv_lt_0_compat, inject_Z_pos. exact Ht.
  - now rewrite <- Zlt_Qlt.
Qed.

(** The quotients [c / total] on doubles go up with [c]. *)
Lemma quotient_mono (c d total : Z) :
  (0 < c)%Z -> (c < d)%Z -> (d < 2 ^ 53)%Z -> (0 < total < 2 ^ 53)%Z ->
  PrimFloat.leb (Num.Z2F c / Num.Z2F total * 100) (Num.Z2F d / Num.Z2F total * 100) = true.
Proof.
  intros Hc Hcd Hd Ht.
  destruct (Z2F_spec c ltac:(lia)) as (mc & ec & Fc & Ec & Vc).
  destruct (Z2F_spec d ltac:(lia)) as (md & ed & Fd & Ed & Vd).
  destruct (Z2F_spec total Ht) as (mt & et & Ft & Et & Vt).
  destruct (div_F _ _ mc mt ec et Fc Ft ltac:(lia) ltac:(lia))
    as (m1 & e1 & F1 & E1 & _ & Rn1).
  destruct (div_F _ _ md mt ed et Fd Ft ltac:(lia) ltac:(lia))
    as (m2 & e2 & F2 & E2 & _ & Rn2).
  apply (mul100_mono _ _ m1 m2 e1 e2 F1 F2); [lia|lia|].
  apply (rounds_mono _ _ _ _ Rn1 Rn2).
  rewrite Vc, Vd, Vt. apply (ratio_lt c d total); lia.
Qed.

(** The last report of a complete run is exactly [100]. *)
Lemma percent_full (total : Z) :
  (0 < total < 2 ^ 53)%Z -> percent total total = 100%float.
Proof.
  intros Ht. destruct (Z2F_spec total Ht) as (m & e & F & _ & _).
  unfold percent. rewrite (div_self_F _ m e F). vm_compute. reflexivity.
Qed.

(** As long as the counter and the total are safe integers, the reported
    doubles never go down and none exceeds [100]. *)
Lemma percent_mono (c total : Z) :
  (0 < c)%Z -> (c < total)%Z -> (total < 2 ^ 53)%Z ->
  PrimFloat.leb (percent c total) (percent (c + 1) total) = true.
Proof. intros Hc Hlt Ht. unfold percent. apply quotient_mono; lia. Qed.

Lemma percent_le_100 (c total : Z) :
  (0 < c)%Z -> (c <= total)%Z -> (total < 2 ^ 53)%Z ->
  PrimFloat.leb (percent c total) 100 = true.
Proof.
  intros Hc Hle Ht. destruct (Z.eq_dec c total) as [E|N].
  - subst c. rewrite percent_full by lia. vm_compute. reflexivity.
  - rewrite <- (percent_full total) by lia. unfold percent. apply quotient_mono; lia.
Qed.

Local Close Scope Q_scope.

(** ** Progress *)

Lemma decodedPrefix_length fs : (length (decodedPrefix fs) <= length fs)%nat.
Proof.
  induction fs as [|file rest IH]; cbn; [lia|].
  destruct (decodes file); cbn; lia.
Qed.

Lemma decodedPrefix_all fs : forallb decodes fs = true -> decodedPrefix fs = fs.
Proof.
  induction fs as [|file rest IH]; cbn; [reflexivity|].
  destruct (decodes file); cbn; [|discriminate].
  intros H. now rewrite IH.
Qed.

Lemma reports_0 total n :
  reports total 0 n = List.map (fun c => percent (Z.of_nat c) total) (seq 1 n).
Proof. unfold reports. apply List.map_ext. intros c. reflexivity. Qed.

Lemma leb_zero_F (a : float) (m : positive) (e : Z) :
  isF a m e -> PrimFloat.leb 0 a = true.
Proof.
  intros [Ha _]. rewrite FloatAxioms.leb_spec, Ha.
  change (Prim2SF 0) with (S754_zero false). reflexivity.
Qed.

Lemma climbs_reports (total : Z) :
  0 < total < 2 ^ 53 ->
  forall n a : nat, (1 <= a)%nat -> (Z.of_nat a + Z.of_nat n <= total + 1) ->
  climbs (List.map (fun c => percent (Z.of_nat c) total) (seq a n)) = true.
Proof.
  intros Ht. induction n as [|n IH]; intros a Ha Hn; [reflexivity|].
  cbn [seq List.map climbs].
  rewrite percent_le_100 by lia. rewrite (IH (S a)) by lia.
  destruct n as [|n]; [reflexivity|]. cbn [seq List.map].
  replace (Z.of_nat (S a)) with (Z.of_nat a + 1) by lia.
  rewrite percent_mono by lia. reflexivity.
Qed.

Lemma climbs_from_zero (total : Z) (k : nat) :
  0 < total < 2 ^ 53 -> Z.of_nat k <= total ->
  climbs (0%float :: List.map (fun c => percent (Z.of_nat c) total) (seq 1 k)) = true.
Proof.
  intros Ht Hk. cbn [climbs].
  rewrite (climbs_reports total Ht k 1) by lia.
  change (PrimFloat.leb 0 100) with true.
  destruct k as [|k]; [reflexivity|]. cbn [seq List.map].
  destruct (percent_spec (Z.of_nat 1) total
              ltac:(change (2 ^ 53) with 9007199254740992; lia) Ht)
    as (m & e & F & _).
  rewrite (leb_zero_F _ m e F). reflexivity.
Qed.

Lemma percent_near (c total : Z) :
  0 < c < 2 ^ 53 -> 0 < total < 2 ^ 53 ->
  near (ratio c total * 100 * Qpower 2 (-51))%Q (percent c total) (ratio c total * 100)%Q
  = true.
Proof.
  intros Hc Ht. destruct (percent_spec c total Hc Ht) as (m & e & F & [A1 A2]).
  apply (near_intro _ _ (mag m e)); [exact (F2Q_isF _ _ _ F)|].
  assert (Pr : (0 < ratio c total)%Q).
  { unfold ratio. apply Qlt_shift_div_l; [apply inject_Z_pos; lia|].
    rewrite Qmult_0_l. apply inject_Z_pos. lia. }
  change u53 with (1 # 9007199254740992)%Q in *.
  change (Qpower 2 (-51)) with (1 # 2251799813685248)%Q.
  set (r := ratio c total) in *. split; lra.
Qed.

(** C6. In a run that passed validation, [setProgress] is called once with
    [0] and then once after each completed pair, with the percentage of the
    counter values 1, 2, ..., k in this order, where k is the number of pairs
    completed: the counter goes up by exactly one per pair and never passes
    the total [|files| * |sizes|], which it reaches when the run is
    signalled complete. As long as the total is a safe integer (below
    [maxSafe], where the counter itself is exact), the doubles actually
    reported never go down and none exceeds 100; each is the ratio
    completed / total times 100 up to rounding (within [2^-51] of its
    value), and the report for the full count is exactly 100. *)
Theorem progress_counts_up (w : World) :
  started w ->
  let total := totalOperations w in
  let k := completedPairs w in
  (k <= total)%nat
  /\ (succeeded w (run processImages w) -> k = total)
  /\ progressLog (run processImages w) =
       (rev (0%float ::
             List.map (fun c => percent (Z.of_nat c) (Z.of_nat total)) (seq 1 k))
        ++ progressLog w)%list
  /\ (Z.of_nat total < maxSafe ->
        climbs (0%float ::
                List.map (fun c => percent (Z.of_nat c) (Z.of_nat total)) (seq 1 k))
        = true
        /\ (forall c, (1 <= c <= k)%nat ->
              near (ratio (Z.of_nat c) (Z.of_nat total) * 100 * Qpower 2 (-51))%Q
                (percent (Z.of_nat c) (Z.of_nat total))
                (ratio (Z.of_nat c) (Z.of_nat total) * 100)%Q = true)
        /\ percent (Z.of_nat total) (Z.of_nat total) = 100%float).
Proof.
  intros Hs total k.
  assert (Hk : (k <= total)%nat).
  { unfold k, total, completedPairs, totalOperations.
    apply Nat.mul_le_mono_r, decodedPrefix_length. }
  assert (Hpos : (1 <= total)%nat).
  { unfold total, totalOperations. destruct Hs as [Hf Hz].
    destruct (files w); [contradiction|].
    destruct (parseSizes (sizes w)); [contradiction|]. cbn. lia. }
  destruct (run_started w Hs) as (_ & _ & _ & _ & _ & Hp & _).
  split; [exact Hk|]. split; [|split].
  - intros Hok. apply run_succeeds_iff in Hok; [|exact Hs].
    unfold k, total, completedPairs, totalOperations.
    now rewrite decodedPrefix_all.
  - rewrite Hp. fold total. fold k. now rewrite reports_0.
  - intros Hb. unfold maxSafe in Hb.
    assert (Ht : 0 < Z.of_nat total < 2 ^ 53) by lia.
    split; [|split].
    + apply climbs_from_zero; [exact Ht|lia].
    + intros c Hc. apply percent_near; [lia|exact Ht].
    + apply percent_full. exact Ht.
Qed.

Lemma progress_counts_up_witness :
  started sampleWorld
  /\ progressLog (run processImages sampleWorld) =
       (rev (0%float ::
             List.map (fun c => percent (Z.of_nat c)
                                  (Z.of_nat (totalOperations sampleWorld)))
               (seq 1 (completedPairs sampleWorld)))
        ++ progressLog sampleWorld)%list
  /\ Z.of_nat (totalOperations sampleWorld) < maxSafe
  /\ climbs (0%float ::
             List.map (fun c => percent (Z.of_nat c)
                                  (Z.of_nat (totalOperations sampleWorld)))
               (seq 1 (completedPairs sampleWorld))) = true.
Proof.
  assert (Hs : started sampleWorld) by (split; vm_compute; discriminate).
  assert (Hb : Z.of_nat (totalOperations sampleWorld) < maxSafe)
    by (vm_compute; reflexivity).
  split; [exact Hs|].
  split; [exact (proj1 (proj2 (proj2 (progress_counts_up sampleWorld Hs))))|].
  split; [exact Hb|].
  exact (proj1 (proj2 (proj2 (proj2 (progress_counts_up sampleWorld Hs))) Hb)).
Defined.

(** ** File names *)

Lemma append_nil (s : string) : "" ++ s = s.
Proof. reflexivity. Qed.

Lemma append_cons (c : ascii) (a s : string) : String c a ++ s = String c (a ++ s).
Proof. reflexivity. Qed.

Lemma noSlashDot_dot a b : noSlashDot (a ++ String "." b) = false.
Proof.
  induction a as [|c a IH]; rewrite ?append_nil, ?append_cons; cbn.
  - reflexivity.
  - rewrite IH. apply andb_false_r.
Qed.

Lemma baseName_strips stem ext :
  ext <> "" -> noSlashDot ext = true ->
  baseName (stem ++ String "." ext) = stem.
Proof.
  intros Hne Hext.
  induction stem as [|c stem IH]; rewrite ?append_nil, ?append_cons; cbn.
  - rewrite Hext. destruct ext; [contradiction|]. reflexivity.
  - rewrite noSlashDot_dot, andb_false_r. now rewrite IH.
Qed.

Lemma baseName_noDot name : noDot name = true -> baseName name = name.
Proof.
  induction name as [|c name IH]; cbn; [reflexivity|].
  intros H. apply andb_prop in H as [H1 H2].
  destruct (Ascii.eqb c "."); [discriminate|]. cbn. now rewrite IH.
Qed.

(** The claim C7 as stated fails: a second application strips a second
    extension. *)
Lemma baseName_not_idempotent :
  baseName (baseName "a.tar.gz") <> baseName "a.tar.gz".
Proof. cbn. discriminate. Qed.

(** C7, amended. The icon pushed for a file and a size is named by the
    file's base name followed by [_], the size, [x], the size and [.png].
    The base name is the name without its last extension: a trailing dot
    followed by one or more characters other than dot and slash is removed.
    A name without a dot is left unchanged, so extraction is idempotent on
    names with at most one extension (["icon.png"] gives ["icon"], ["icon"]
    stays), while a name with several loses one per application. *)
Theorem filename_derivation :
  (forall file img total size icons c w,
     exists icon w',
       renderSize file img total size (icons, c) w =
         (Normal ((icons ++ [icon])%list, c + 1), w')
       /\ Icon.originalName icon = File.name file
       /\ Icon.size icon = size
       /\ Icon.filename icon =
            baseName (File.name file) ++ "_" ++ Num.toString size ++ "x" ++
            Num.toString size ++ ".png")
  /\ (forall stem ext,
        ext <> "" -> noSlashDot ext = true ->
        baseName (stem ++ "." ++ ext) = stem)
  /\ (forall name, noDot name = true -> baseName name = name)
  /\ (forall stem ext,
        noDot stem = true -> ext <> "" -> noSlashDot ext = true ->
        baseName (baseName (stem ++ "." ++ ext)) = baseName (stem ++ "." ++ ext))
  /\ baseName "icon.png" = "icon"
  /\ baseName "icon" = "icon"
  /\ baseName "a.tar.gz" = "a.tar"
  /\ baseName "a.tar" = "a".
Proof.
  split; [|split; [|split; [|split]]].
  - intros file img total size icons c w. cbn [renderSize].
    unfold bind, createObjectURL, setProgress, ret.
    eexists _, _. split; [reflexivity|]. cbn. auto.
  - intros stem ext. apply baseName_strips.
  - apply baseName_noDot.
  - intros stem ext Hs Hne Hext.
    change (stem ++ "." ++ ext) with (stem ++ String "." ext).
    rewrite (baseName_strips stem ext Hne Hext). now apply baseName_noDot.
  - repeat split.
Qed.

Lemma filename_derivation_witness :
  baseName ("icon" ++ "." ++ "png") = "icon".
Proof.
  apply (proj1 (proj2 filename_derivation) "icon" "png").
  - discriminate.
  - reflexivity.
Defined.

(** ** Aspect fit *)

Lemma exact_fit_bounds (size width height : Z) :
  0 < size -> 0 < width -> 0 < height ->
  let e := Exact.fit size width height in
  (Exact.scale e == Qmin (inject_Z size / inject_Z width)
                         (inject_Z size / inject_Z height))%Q
  /\ (Exact.scaledWidth e <= inject_Z size)%Q
  /\ (Exact.scaledHeight e <= inject_Z size)%Q
  /\ ((Exact.scaledWidth e == inject_Z size)%Q \/
      (Exact.scaledHeight e == inject_Z size)%Q)
  /\ (Exact.x e == (inject_Z size - Exact.scaledWidth e) / 2)%Q
  /\ (Exact.y e == (inject_Z size - Exact.scaledHeight e) / 2)%Q
  /\ (0 <= Exact.x e)%Q /\ (0 <= Exact.y e)%Q.
Proof.
  intros Hs Hw Hh. cbn zeta. unfold Exact.fit. cbn [Exact.scale Exact.scaledWidth Exact.scaledHeight Exact.x Exact.y].
  pose proof (inject_Z_pos _ Hs) as HS.
  pose proof (inject_Z_pos _ Hw) as HW.
  pose proof (inject_Z_pos _ Hh) as HH.
  set (S := inject_Z size) in *. set (W := inject_Z width) in *.
  set (H := inject_Z height) in *.
  assert (HW0 : ~ (W == 0)%Q) by (intros E; rewrite E in HW; exact (Qlt_irrefl _ HW)).
  assert (HH0 : ~ (H == 0)%Q) by (intros E; rewrite E in HH; exact (Qlt_irrefl _ HH)).
  assert (Hsw : (W * (S / W) == S)%Q) by (apply Qmult_div_r; exact HW0).
  assert (Hsh : (H * (S / H) == S)%Q) by (apply Qmult_div_r; exact HH0).
  assert (Hhalf : forall q, (q <= S)%Q -> (0 <= (S - q) / 2)%Q).
  { intros q Hq. apply Qle_shift_div_l; [reflexivity|].
    rewrite Qmult_0_l. unfold Qminus. rewrite <- (Qplus_opp_r q).
    apply Qplus_le_l. exact Hq. }
  destruct (Qlt_le_dec (S / W) (S / H)) as [Hlt|Hle].
  - assert (Hmin : (Qmin (S / W) (S / H) == S / W)%Q)
      by (apply Q.min_l, Qlt_le_weak, Hlt).
    assert (Hwid : (W * Qmin (S / W) (S / H) == S)%Q) by now rewrite Hmin.
    assert (Hhei : (H * Qmin (S / W) (S / H) <= S)%Q).
    { rewrite Hmin. apply Qle_trans with (H * (S / H))%Q.
      - apply Qmult_le_l; [exact HH|]. apply Qlt_le_weak, Hlt.
      - rewrite Hsh. apply Qle_refl. }
    split; [reflexivity|]. split; [rewrite Hwid; apply Qle_refl|].
    split; [exact Hhei|]. split; [left; exact Hwid|].
    split; [reflexivity|]. split; [reflexivity|].
    split; apply Hhalf; [rewrite Hwid; apply Qle_refl|exact Hhei].
  - assert (Hmin : (Qmin (S / W) (S / H) == S / H)%Q) by (apply Q.min_r, Hle).
    assert (Hhei : (H * Qmin (S / W) (S / H) == S)%Q) by now rewrite Hmin.
    assert (Hwid : (W * Qmin (S / W) (S / H) <= S)%Q).
    { rewrite Hmin. apply Qle_trans with (W * (S / W))%Q.
      - apply Qmult_le_l; [exact HW|]. exact Hle.
      - rewrite Hsw. apply Qle_refl. }
    split; [reflexivity|]. split; [exact Hwid|].
    split; [rewrite Hhei; apply Qle_refl|]. split; [right; exact Hhei|].
    split; [reflexivity|]. split; [reflexivity|].
    split; apply Hhalf; [exact Hwid|rewrite Hhei; apply Qle_refl].
Qed.

Lemma near_elim (tol : Q) (f : float) (q : Q) :
  near tol f q = true ->
  exists v, F2Q f = Some v /\ (- tol <= v - q <= tol)%Q.
Proof.
  unfold near. destruct (F2Q f) as [v|]; [|discriminate].
  intros H. exists v. split; [reflexivity|].
  apply Qabs_Qle_condition, Qle_bool_iff. exact H.
Qed.

Lemma fit_withinSquare (size width height : Z) :
  0 < size -> 0 < width -> 0 < height ->
  agrees size (fit (Int size) width height) (Exact.fit size width height) = true ->
  withinSquare size (fit (Int size) width height).
Proof.
  intros Hs Hw Hh Ha.
  destruct (exact_fit_bounds size width height Hs Hw Hh)
    as (_ & Bw & Bh & Bone & _ & _ & Bx & By).
  cbv zeta in Bw, Bh, Bone, Bx, By.
  unfold agrees in Ha.
  apply andb_prop in Ha as [Ha Ny]. apply andb_prop in Ha as [Ha Nx].
  apply andb_prop in Ha as [Ha Nh]. apply andb_prop in Ha as [_ Nw].
  destruct (near_elim _ _ _ Nw) as (sw & Fw & [W1 W2]).
  destruct (near_elim _ _ _ Nh) as (sh & Fh & [H1 H2]).
  destruct (near_elim _ _ _ Nx) as (x & Fx & [X1 X2]).
  destruct (near_elim _ _ _ Ny) as (y & Fy & [Y1 Y2]).
  exists sw, sh, x, y.
  split; [exact Fw|]. split; [exact Fh|]. split; [exact Fx|]. split; [exact Fy|].
  set (e := Exact.fit size width height) in *.
  set (S := inject_Z size) in *.
  change (Qpower 2 (-51)) with (1 # 2251799813685248)%Q in *.
  split; [lra|]. split; [lra|]. split; [|split; lra].
  destruct Bone as [E|E]; [left|right]; rewrite E in *; lra.
Qed.

(** The claim C2 as stated fails on doubles: a 49 by 49 image at target size
    16 is scaled to 15.999999999999998 on both axes, so neither scaled
    length equals the target size. *)
Lemma fit_49x49_at_16_misses :
  ~ (PrimFloat.leb (Placement.scaledWidth (fit (Int 16) 49 49)) 16 = true
     /\ PrimFloat.leb (Placement.scaledHeight (fit (Int 16) 49 49)) 16 = true
     /\ (PrimFloat.eqb (Placement.scaledWidth (fit (Int 16) 49 49)) 16 = true \/
         PrimFloat.eqb (Placement.scaledHeight (fit (Int 16) 49 49)) 16 = true)).
Proof. vm_compute. intros (_ & _ & [H|H]); discriminate. Qed.

(** Rounding can also overshoot: a 187 by 187 image at target size 48 is
    scaled to 48.000000000000007, above the target, and its offset is
    negative. *)
Example fit_187x187_at_48_overshoots :
  PrimFloat.ltb 48 (Placement.scaledWidth (fit (Int 48) 187 187)) = true
  /\ PrimFloat.ltb (Placement.x (fit (Int 48) 187 187)) 0 = true.
Proof. vm_compute. split; reflexivity. Qed.

(** C2, amended. Each icon's blob records the canvas, whose edges are the
    target size when that is at most 2^31 - 1, and the one [drawImage] call,
    made at the placement [fit] computes on doubles. For every target size
    and positive image width and height that are safe integers (below
    [maxSafe]), each of the five doubles agrees with the value of its
    formula evaluated without rounding: the scale within 2^-52 of it
    (relatively), the scaled lengths and the offsets within 2^-51 of the
    target size. Without rounding the formulas give scaled lengths of at
    most the target size, one of them equal to it, and nonnegative centring
    offsets; so on doubles no scaled length exceeds the target size by more
    than 2^-51 of it, one of them reaches it up to that tolerance, and no
    offset is below zero by more than that. A 100 by 50 image at size 50
    gives exactly scale 0.5, lengths 50 and 25, offsets 0 and 12.5; a 49 by
    49 image at size 16 is scaled to 15.999999999999998, the double
    [0x1.fffffffffffffp+3], and a 187 by 187 image at size 48 to
    48.000000000000007, the double [0x1.8000000000001p+5]. *)
Theorem aspect_fit :
  (forall file img total size icons c w,
     exists icon w',
       renderSize file img total size (icons, c) w =
         (Normal ((icons ++ [icon])%list, c + 1), w')
       /\ Icon.size icon = size
       /\ Blob.width (Icon.blob icon) = canvasEdge 300 size
       /\ Blob.height (Icon.blob icon) = canvasEdge 150 size
       /\ Blob.drawn (Icon.blob icon) = fit size (fst img) (snd img))
  /\ (forall z default,
        0 < z <= 2147483647 -> canvasEdge default (Int z) = z)
  /\ (forall size width height,
        0 < size < maxSafe -> 0 < width < maxSafe -> 0 < height < maxSafe ->
        agrees size (fit (Int size) width height)
          (Exact.fit size width height) = true
        /\ withinSquare size (fit (Int size) width height))
  /\ (forall size width height,
        0 < size -> 0 < width -> 0 < height ->
        let e := Exact.fit size width height in
        (Exact.scale e == Qmin (inject_Z size / inject_Z width)
                               (inject_Z size / inject_Z height))%Q
        /\ (Exact.scaledWidth e <= inject_Z size)%Q
        /\ (Exact.scaledHeight e <= inject_Z size)%Q
        /\ ((Exact.scaledWidth e == inject_Z size)%Q \/
            (Exact.scaledHeight e == inject_Z size)%Q)
        /\ (Exact.x e == (inject_Z size - Exact.scaledWidth e) / 2)%Q
        /\ (Exact.y e == (inject_Z size - Exact.scaledHeight e) / 2)%Q
        /\ (0 <= Exact.x e)%Q /\ (0 <= Exact.y e)%Q)
  /\ fit (Int 50) 100 50 = Placement.mk 0.5 50 25 0 12.5
  /\ Placement.scaledWidth (fit (Int 16) 49 49) = 0x1.fffffffffffffp+3%float
  /\ Placement.scaledWidth (fit (Int 48) 187 187) = 0x1.8000000000001p+5%float.
Proof.
  split; [|split; [|split; [|split; [|split; [|split]]]]].
  - intros file img total size icons c w. cbn [renderSize].
    unfold bind, createObjectURL, setProgress, ret.
    eexists _, _. split; [reflexivity|]. cbn. auto.
  - intros z default Hz. unfold canvasEdge.
    rewrite Z.mod_small by (change (2 ^ 32) with 4294967296; lia).
    destruct (Z.leb_spec z 2147483647); [reflexivity|lia].
  - intros size width height Hs Hw Hh. unfold maxSafe in *.
    pose proof (fit_agrees_all size width height Hs Hw Hh) as Ha.
    split; [exact Ha|]. apply fit_withinSquare; [lia|lia|lia|exact Ha].
  - exact exact_fit_bounds.
  - vm_compute. reflexivity.
  - vm_compute. reflexivity.
  - vm_compute. reflexivity.
Qed.

Lemma aspect_fit_witness :
  (0 < 48 < maxSafe /\ 0 < 187 < maxSafe)
  /\ agrees 48 (fit (Int 48) 187 187) (Exact.fit 48 187 187) = true
  /\ withinSquare 48 (fit (Int 48) 187 187).
Proof.
  assert (H1 : 0 < 48 < maxSafe) by (split; reflexivity).
  assert (H2 : 0 < 187 < maxSafe) by (split; reflexivity).
  split; [split; assumption|].
  exact (proj1 (proj2 (proj2 aspect_fit)) 48 187 187 H1 H2 H2).
Defined.

(** ** Parsing the size text *)

Lemma parseSizes_positives text :
  parseSizes text =
  List.map Int
    (positives (List.map (fun e => Num.parseInt (Str.trim e)) (Str.split "," text))).
Proof.
  unfold parseSizes.
  induction (List.map (fun e => Num.parseInt (Str.trim e)) (Str.split "," text))
    as [|n l IH]; cbn; [reflexivity|].
  destruct n as [|z]; cbn; [exact IH|].
  destruct (0 <? z); cbn; now rewrite IH.
Qed.

Lemma positives_In l z : In z (positives l) <-> In (Int z) l /\ 0 < z.
Proof.
  induction l as [|n l IH]; cbn; [tauto|].
  destruct n as [|y].
  - rewrite IH. split; [tauto|]. intros [[H|H] Hz]; [discriminate|tauto].
  - destruct (0 <? y) eqn:E; cbn; rewrite IH.
    + apply Z.ltb_lt in E. split.
      * intros [->|[H1 H2]]; auto.
      * intros [[H|H] Hz]; [injection H as ->; auto|auto].
    + apply Z.ltb_ge in E. split; [tauto|].
      intros [[H|H] Hz]; [injection H as ->; lia|auto].
Qed.

(** Scanning decimal digits. *)

Lemma digitValue_uint_char (d : Decimal.uint) :
  match NilEmpty.string_of_uint d with
  | EmptyString => d = Decimal.Nil
  | String c _ => exists k, Num.digitValue 10 c = Some k /\ Str.isWhiteSpace c = false
                            /\ c <> "-"%char /\ c <> "+"%char /\ c <> ","%char
  end.
Proof.
  destruct d; cbn; [reflexivity|..]; eexists; repeat split; discriminate.
Qed.

Ltac eval_digit :=
  match goal with
  | |- context [Num.digitValue 10 ?c] =>
      let v := eval vm_compute in (Num.digitValue 10 c) in
      change (Num.digitValue 10 c) with v
  end; cbv iota beta.

Lemma scanDigits_acc (d : Decimal.uint) (rest : string) :
  forall p : positive,
  Num.scanDigits 10 (NilEmpty.string_of_uint d ++ rest) (Some (Z.pos p)) =
  Num.scanDigits 10 rest (Some (Z.pos (Pos.of_uint_acc d p))).
Proof.
  induction d; intros p; cbn [NilEmpty.string_of_uint Pos.of_uint_acc];
    rewrite ?append_nil, ?append_cons; [reflexivity|..];
    cbn [Num.scanDigits]; eval_digit; cbn [default];
    rewrite <- IHd;
    apply (f_equal (fun a => Num.scanDigits 10 _ (Some a))); unfold id; lia.
Qed.

Lemma scanDigits_zero (d : Decimal.uint) (rest : string) :
  Num.scanDigits 10 (NilEmpty.string_of_uint d ++ rest) (Some 0) =
  Num.scanDigits 10 rest (Some (Z.of_N (Pos.of_uint d))).
Proof.
  induction d; cbn [NilEmpty.string_of_uint Pos.of_uint];
    rewrite ?append_nil, ?append_cons; [reflexivity|..];
    cbn [Num.scanDigits]; eval_digit; cbn [default];
    [exact IHd|..]; apply scanDigits_acc.
Qed.

Lemma scanDigits_start (d : Decimal.uint) (rest : string) :
  d <> Decimal.Nil ->
  Num.scanDigits 10 (NilEmpty.string_of_uint d ++ rest) None =
  Num.scanDigits 10 (NilEmpty.string_of_uint d ++ rest) (Some 0).
Proof.
  intros Hd. destruct d; [contradiction|..];
    cbn [NilEmpty.string_of_uint]; rewrite append_cons;
    cbn [Num.scanDigits]; eval_digit; reflexivity.
Qed.

Lemma scanDigits_stops (rest : string) (acc : option Z) :
  stops rest -> Num.scanDigits 10 rest acc = acc.
Proof. destruct rest as [|c r]; cbn; [reflexivity|]. now intros ->. Qed.

Lemma of_uint_pos_nonnil (d : Decimal.uint) : 0 < Z.of_uint d -> d <> Decimal.Nil.
Proof. intros H ->. cbn in H. lia. Qed.

Lemma scanDigits_uint (d : Decimal.uint) (rest : string) :
  0 < Z.of_uint d -> stops rest ->
  Num.scanDigits 10 (NilEmpty.string_of_uint d ++ rest) None = Some (Z.of_uint d).
Proof.
  intros Hd Hr. rewrite scanDigits_start by now apply of_uint_pos_nonnil.
  rewrite scanDigits_zero. now apply scanDigits_stops.
Qed.

Lemma stripPrefix_uint (d : Decimal.uint) (rest : string) :
  0 < Z.of_uint d ->
  Num.stripPrefix (NilEmpty.string_of_uint d ++ rest) =
    (10, NilEmpty.string_of_uint d ++ rest).
Proof.
  intros Hd. destruct d as [|d|d|d|d|d|d|d|d|d|d];
    try reflexivity; [cbn in Hd; lia|].
  destruct d; try reflexivity. cbn in Hd. lia.
Qed.

Lemma parseInt_unsigned (c : ascii) (s : string) :
  Str.isWhiteSpace c = false -> c <> "-"%char -> c <> "+"%char ->
  Num.stripPrefix (String c s) = (10, String c s) ->
  Num.parseInt (String c s) =
    match Num.scanDigits 10 (String c s) None with
    | None => NaN
    | Some mathInt => Int (1 * mathInt)
    end.
Proof.
  intros Hw Hm Hp Hs. unfold Num.parseInt. cbn [Str.trimStart]. rewrite Hw.
  destruct c as [[] [] [] [] [] [] [] []];
    try contradiction; try (now rewrite Hs).
Qed.

Lemma parseInt_negative (s : string) :
  Num.parseInt (String "-" s) =
    match (let '(R, digits) := Num.stripPrefix s in Num.scanDigits R digits None) with
    | None => NaN
    | Some mathInt => Int (-1 * mathInt)
    end.
Proof.
  unfold Num.parseInt. cbn [Str.trimStart].
  change (Str.isWhiteSpace "-") with false. cbv iota beta.
  destruct (Num.stripPrefix s). reflexivity.
Qed.

Lemma parseInt_uint (d : Decimal.uint) (rest : string) :
  0 < Z.of_uint d -> stops rest ->
  Num.parseInt (NilEmpty.string_of_uint d ++ rest) = Int (Z.of_uint d).
Proof.
  intros Hd Hr.
  pose proof (digitValue_uint_char d) as Hc.
  pose proof (stripPrefix_uint d rest Hd) as Hs.
  pose proof (scanDigits_uint d rest Hd Hr) as Hv.
  destruct (NilEmpty.string_of_uint d) as [|c s] eqn:E.
  - subst d. cbn in Hd. lia.
  - destruct Hc as (k & _ & Hw & Hm & Hp & _). rewrite append_cons in *.
    rewrite parseInt_unsigned, Hv by assumption. f_equal; try lia.
Qed.

Lemma parseInt_negative_uint (d : Decimal.uint) (rest : string) :
  0 < Z.of_uint d -> stops rest ->
  Num.parseInt (String "-" (NilEmpty.string_of_uint d ++ rest)) = Int (- Z.of_uint d).
Proof.
  intros Hd Hr. rewrite parseInt_negative, stripPrefix_uint by assumption.
  rewrite scanDigits_uint by assumption. f_equal; try lia.
Qed.

(** Decimal numerals. *)

Lemma append_empty (s : string) : s ++ "" = s.
Proof. induction s as [|c s IH]; rewrite ?append_nil, ?append_cons; [reflexivity|]. now rewrite IH. Qed.

Lemma of_uint_to_uint (p : positive) : Z.of_uint (Pos.to_uint p) = Z.pos p.
Proof. unfold Z.of_uint. now rewrite Unsigned.of_to. Qed.

Lemma toString_pos (p : positive) :
  Num.toString (Int (Z.pos p)) = NilEmpty.string_of_uint (Pos.to_uint p).
Proof.
  cbn. pose proof (Unsigned.to_uint_nonnil p) as H.
  destruct (Pos.to_uint p); [contradiction|..]; reflexivity.
Qed.

Lemma toString_neg (p : positive) :
  Num.toString (Int (Z.neg p)) = String "-" (NilEmpty.string_of_uint (Pos.to_uint p)).
Proof.
  cbn. pose proof (Unsigned.to_uint_nonnil p) as H.
  destruct (Pos.to_uint p); [contradiction|..]; reflexivity.
Qed.

(** Parsing what [toString] prints gives the number back. *)
Lemma parseInt_toString (z : Z) : Num.parseInt (Num.toString (Int z)) = Int z.
Proof.
  destruct z as [|p|p].
  - reflexivity.
  - rewrite toString_pos, <- (append_empty (NilEmpty.string_of_uint _)).
    rewrite parseInt_uint; rewrite ?of_uint_to_uint; cbn; auto; lia.
  - rewrite toString_neg, <- (append_empty (NilEmpty.string_of_uint _)).
    rewrite parseInt_negative_uint; rewrite ?of_uint_to_uint; cbn; auto; lia.
Qed.

Lemma uint_solid (d : Decimal.uint) :
  solid (NilEmpty.string_of_uint d) = true /\ lacks "," (NilEmpty.string_of_uint d) = true.
Proof.
  induction d; cbn [NilEmpty.string_of_uint solid lacks]; [split; reflexivity|..];
    destruct IHd as [-> ->]; split; reflexivity.
Qed.

Lemma toString_solid (z : Z) :
  solid (Num.toString (Int z)) = true
  /\ lacks "," (Num.toString (Int z)) = true
  /\ Num.toString (Int z) <> "".
Proof.
  destruct z as [|p|p].
  - repeat split. discriminate.
  - rewrite toString_pos. destruct (uint_solid (Pos.to_uint p)) as [H1 H2].
    repeat split; auto. pose proof (Unsigned.to_uint_nonnil p) as H.
    destruct (Pos.to_uint p); [contradiction|..]; discriminate.
  - rewrite toString_neg. destruct (uint_solid (Pos.to_uint p)) as [H1 H2].
    cbn [solid lacks]. rewrite H1, H2. repeat split. discriminate.
Qed.

(** Trimming and splitting. *)

Lemma trimEnd_white (s : string) : allWhite s = true -> Str.trimEnd s = "".
Proof.
  induction s as [|c s IH]; cbn; [reflexivity|].
  intros H. apply andb_prop in H as [H1 H2]. now rewrite IH, H1.
Qed.

Lemma trimEnd_solid (s : string) : solid s = true -> Str.trimEnd s = s.
Proof.
  induction s as [|c s IH]; cbn; [reflexivity|].
  intros H. apply andb_prop in H as [H1 H2]. rewrite IH by assumption.
  destruct (Str.isWhiteSpace c); [discriminate|]. now destruct s.
Qed.

Lemma trimEnd_app (a b : string) :
  Str.trimEnd b <> "" -> Str.trimEnd (a ++ b) = a ++ Str.trimEnd b.
Proof.
  intros Hb. induction a as [|c a IH]; rewrite ?append_nil, ?append_cons;
    [reflexivity|].
  cbn [Str.trimEnd]. rewrite IH.
  destruct (a ++ Str.trimEnd b) eqn:E; [|reflexivity].
  destruct a; rewrite ?append_nil, ?append_cons in E; [contradiction|discriminate].
Qed.

Lemma trimEnd_app_white (a b : string) :
  a <> "" -> solid a = true -> allWhite b = true -> Str.trimEnd (a ++ b) = a.
Proof.
  intros Ha Hs Hb. induction a as [|c a IH]; [contradiction|].
  rewrite append_cons. cbn [Str.trimEnd]. cbn in Hs.
  apply andb_prop in Hs as [H1 H2].
  destruct a as [|c' a].
  - rewrite append_nil, trimEnd_white by assumption.
    now destruct (Str.isWhiteSpace c).
  - rewrite IH by (assumption || discriminate). reflexivity.
Qed.

Lemma trimStart_app (a b : string) :
  allWhite a = true -> Str.trimStart (a ++ b) = Str.trimStart b.
Proof.
  induction a as [|c a IH]; rewrite ?append_nil, ?append_cons; [reflexivity|].
  cbn. intros H. apply andb_prop in H as [-> H2]. now apply IH.
Qed.

Lemma trimStart_solid (s : string) : solid s = true -> Str.trimStart s = s.
Proof.
  destruct s as [|c s]; cbn; [reflexivity|].
  intros H. apply andb_prop in H as [H1 H2].
  now destruct (Str.isWhiteSpace c).
Qed.

Lemma trim_padded (l body r : string) :
  allWhite l = true -> allWhite r = true -> solid body = true -> body <> "" ->
  Str.trim (l ++ body ++ r) = body.
Proof.
  intros Hl Hr Hb Hne. unfold Str.trim.
  rewrite trimEnd_app; rewrite trimEnd_app_white by assumption; [|assumption].
  rewrite trimStart_app by assumption. now apply trimStart_solid.
Qed.

Lemma white_lacks_comma (s : string) : allWhite s = true -> lacks "," s = true.
Proof.
  induction s as [|c s IH]; cbn; [reflexivity|].
  intros H. apply andb_prop in H as [H1 H2]. rewrite IH by assumption.
  destruct (Ascii.eqb_spec c ","); [subst c; discriminate|reflexivity].
Qed.

Lemma lacks_app (c : ascii) (a b : string) :
  lacks c (a ++ b) = lacks c a && lacks c b.
Proof.
  induction a as [|c' a IH]; rewrite ?append_nil, ?append_cons; cbn; [reflexivity|].
  now rewrite IH, andb_assoc.
Qed.

Lemma split_lacks (sep : ascii) (s : string) :
  lacks sep s = true -> Str.split sep s = [s].
Proof.
  induction s as [|c s IH]; cbn; [reflexivity|].
  intros H. apply andb_prop in H as [H1 H2].
  destruct (Ascii.eqb c sep); [discriminate|]. now rewrite IH.
Qed.

Lemma split_app (sep : ascii) (a s : string) :
  lacks sep a = true ->
  Str.split sep (a ++ String sep s) = a :: Str.split sep s.
Proof.
  induction a as [|c a IH]; rewrite ?append_nil, ?append_cons; cbn.
  - now rewrite Ascii.eqb_refl.
  - intros H. apply andb_prop in H as [H1 H2].
    destruct (Ascii.eqb c sep); [discriminate|]. now rewrite IH.
Qed.

Lemma split_join (sep : ascii) (l : list string) :
  l <> [] -> Forall (fun s => lacks sep s = true) l ->
  Str.split sep (Str.join sep l) = l.
Proof.
  induction l as [|a l IH]; [contradiction|]. intros _ H.
  inversion H as [|? ? Ha Hl]; subst.
  destruct l as [|b l]; cbn [Str.join].
  - now apply split_lacks.
  - rewrite split_app by assumption. f_equal. apply IH; [discriminate|assumption].
Qed.

Lemma entry_parse (e : Entry.t) :
  Entry.padded e = true ->
  Num.parseInt (Str.trim (Entry.print e)) = Int (Entry.value e).
Proof.
  intros H. apply andb_prop in H as [Hl Hr].
  destruct (toString_solid (Entry.value e)) as (Hs & _ & Hne).
  unfold Entry.print. rewrite trim_padded by assumption.
  apply parseInt_toString.
Qed.

Lemma entry_lacks_comma (e : Entry.t) :
  Entry.padded e = true -> lacks "," (Entry.print e) = true.
Proof.
  intros H. apply andb_prop in H as [Hl Hr].
  destruct (toString_solid (Entry.value e)) as (_ & Hc & _).
  unfold Entry.print. rewrite !lacks_app, Hc, !white_lacks_comma by assumption.
  reflexivity.
Qed.

Lemma positives_Int (zs : list Z) :
  positives (List.map Int zs) = List.filter (fun z => 0 <? z) zs.
Proof.
  induction zs as [|z zs IH]; cbn; [reflexivity|].
  rewrite IH. reflexivity.
Qed.

Lemma parseSizes_printed (es : list Entry.t) :
  Forall (fun e => Entry.padded e = true) es ->
  parseSizes (Str.join "," (List.map Entry.print es)) =
  List.map Int (List.filter (fun z => 0 <? z) (List.map Entry.value es)).
Proof.
  intros H. destruct es as [|e es]; [reflexivity|].
  rewrite parseSizes_positives, split_join.
  - rewrite List.map_map. f_equal.
    rewrite <- positives_Int, List.map_map. f_equal.
    apply List.map_ext_in. intros a Ha. apply entry_parse.
    rewrite List.Forall_forall in H. now apply H.
  - discriminate.
  - apply List.Forall_forall. intros s Hs. apply in_map_iff in Hs as (a & <- & Ha).
    apply entry_lacks_comma. rewrite List.Forall_forall in H. now apply H.
Qed.

(** C4. The size text is split at every comma; each entry is trimmed and
    read by [parseInt]; the result lists, in the order of the entries, the
    values that are integers greater than zero, so an entry that reads as
    [NaN] or as a value [<= 0] contributes nothing. Every entry that is a
    decimal integer with white space around it is read as that integer:
    a text printed from integers parses to the positive ones among them.
    The texts ["16, 32,48 ,128"] and ["0,-5,abc,64"] parse to 16, 32, 48, 128
    and to 64. *)
Theorem parseSizes_spec :
  (forall text,
     parseSizes text =
     List.map Int
       (positives
          (List.map (fun e => Num.parseInt (Str.trim e)) (Str.split "," text))))
  /\ (forall text n,
        In n (parseSizes text) ->
        exists z e,
          n = Int z /\ 0 < z /\ In e (Str.split "," text)
          /\ Num.parseInt (Str.trim e) = Int z)
  /\ (forall es : list Entry.t,
        Forall (fun e => Entry.padded e = true /\
                         Z.abs (Entry.value e) <= maxSafe) es ->
        parseSizes (Str.join "," (List.map Entry.print es)) =
        List.map Int (List.filter (fun z => 0 <? z) (List.map Entry.value es)))
  /\ parseSizes "16, 32,48 ,128" = [Int 16; Int 32; Int 48; Int 128]
  /\ parseSizes "0,-5,abc,64" = [Int 64].
Proof.
  split; [exact parseSizes_positives|]. split; [|split; [|split; reflexivity]].
  - intros text n Hn. rewrite parseSizes_positives in Hn.
    apply in_map_iff in Hn as (z & <- & Hz).
    apply positives_In in Hz as [Hin Hpos].
    apply in_map_iff in Hin as (e & He & Hin).
    exists z, e. auto.
  - intros es H. apply parseSizes_printed.
    eapply List.Forall_impl; [|exact H]. cbn. tauto.
Qed.

Lemma parseSizes_spec_witness :
  Forall (fun e => Entry.padded e = true /\ Z.abs (Entry.value e) <= maxSafe)
    [Entry.mk " " 16 ""; Entry.mk "" (-5) " "; Entry.mk "" 128 ""]
  /\ parseSizes
       (Str.join "," (List.map Entry.print
          [Entry.mk " " 16 ""; Entry.mk "" (-5) " "; Entry.mk "" 128 ""])) =
     List.map Int
       (List.filter (fun z => 0 <? z)
          (List.map Entry.value
             [Entry.mk " " 16 ""; Entry.mk "" (-5) " "; Entry.mk "" 128 ""])).
Proof.
  assert (H : Forall (fun e => Entry.padded e = true /\
                               Z.abs (Entry.value e) <= maxSafe)
                [Entry.mk " " 16 ""; Entry.mk "" (-5) " "; Entry.mk "" 128 ""]).
  { repeat constructor; cbn; unfold maxSafe; lia. }
  split; [exact H|].
  exact (proj1 (proj2 (proj2 parseSizes_spec)) _ H).
Defined.

(** C10. An entry whose trimmed text is a decimal numeral of positive value
    followed by a character that is not a decimal digit is kept: [parseInt]
    reads the numeral and ignores the rest, so the value is among the parsed
    sizes. ["12px"] gives 12 and ["3.5"] gives 3. *)
Theorem numeric_prefix_is_kept
    (text e : string) (d : Decimal.uint) (c : ascii) (rest : string) :
  In e (Str.split "," text) ->
  Str.trim e = NilEmpty.string_of_uint d ++ String c rest ->
  Num.digitValue 10 c = None ->
  0 < Z.of_uint d <= maxSafe ->
  Num.parseInt (Str.trim e) = Int (Z.of_uint d)
  /\ In (Int (Z.of_uint d)) (parseSizes text)
  /\ parseSizes "12px" = [Int 12]
  /\ parseSizes "3.5" = [Int 3].
Proof.
  intros He Ht Hc [Hd _].
  assert (Hp : Num.parseInt (Str.trim e) = Int (Z.of_uint d))
    by (rewrite Ht; apply parseInt_uint; assumption).
  split; [exact Hp|]. split; [|split; reflexivity].
  rewrite parseSizes_positives. apply in_map. apply positives_In.
  split; [|exact Hd]. rewrite <- Hp.
  apply (in_map (fun e => Num.parseInt (Str.trim e))). exact He.
Qed.

Lemma numeric_prefix_is_kept_witness :
  In " 12px" (Str.split "," "16, 12px,abc")
  /\ In (Int 12) (parseSizes "16, 12px,abc").
Proof.
  assert (He : In " 12px" (Str.split "," "16, 12px,abc")) by (cbn; auto).
  split; [exact He|].
  refine (proj1 (proj2 (numeric_prefix_is_kept "16, 12px,abc" " 12px"
            (Decimal.D1 (Decimal.D2 Decimal.Nil)) "p" "x" He eq_refl eq_refl _))).
  unfold maxSafe. cbn. lia.
Defined.

(** * The other handlers and whole sessions *)

Local Open Scope ui_scope.

(** ** Selecting files *)


(** The page of [w] with other files and one more toast. *)
Lemma handleDrop_run (transferred : list Upload.t) (s : Session) :
  handleDrop transferred s =
  (Normal tt,
   match List.filter accepts transferred with
   | [] => mkSession (page s) false (clicks s) (zipBlobs s)
   | droppedFiles =>
       let w := page s in
       mkSession
         (mkWorld (files w ++ List.map Upload.file droppedFiles)%list (sizes w)
            (processedIcons w) (isProcessing w) (progress w) (fileInput w)
            (objectURLs w) (nextURL w)
            (filesAddedToast (length droppedFiles) :: toasts w) (progressLog w))
         false (clicks s) (zipBlobs s)
   end).
Proof.
  unfold handleDrop, bindUI, setDragActive.
  destruct (List.filter accepts transferred) as [|u us]; reflexivity.
Qed.

(** X1. A drop clears the drag highlight and appends to the file list, in
    the order dropped, exactly the transferred files whose type is
    [image/svg+xml] or [image/png]; earlier files stay in front and a toast
    counts the files added. When no transferred file has such a type the
    page is left as it was: no file is added and no toast is shown. *)
Theorem drop_appends_accepted (transferred : list Upload.t) (s : Session) :
  let s' := snd (handleDrop transferred s) in
  let added := List.filter accepts transferred in
  fst (handleDrop transferred s) = Normal tt
  /\ dragActive s' = false
  /\ files (page s') = (files (page s) ++ List.map Upload.file added)%list
  /\ Forall (fun u => Upload.type u = "image/svg+xml" \/ Upload.type u = "image/png") added
  /\ (forall u, In u transferred -> accepts u = false -> ~ In u added)
  /\ (added = [] -> page s' = page s)
  /\ (added <> [] -> toasts (page s') = filesAddedToast (length added) :: toasts (page s))
  /\ untouched_by_selection (page s) (page s').
Proof.
  cbv zeta. rewrite handleDrop_run. cbn [fst snd].
  assert (Ht : Forall (fun u => Upload.type u = "image/svg+xml" \/
                                Upload.type u = "image/png")
                 (List.filter accepts transferred)).
  { apply List.Forall_forall. intros u Hu. apply filter_In in Hu as [_ Hu].
    unfold accepts in Hu. apply orb_prop in Hu as [Hu|Hu];
      apply String.eqb_eq in Hu; auto. }
  assert (Hn : forall u, In u transferred -> accepts u = false ->
                         ~ In u (List.filter accepts transferred)).
  { intros u _ Hu Hin. apply filter_In in Hin as [_ Hin]. congruence. }
  destruct (List.filter accepts transferred) as [|u us] eqn:E.
  - cbn. rewrite app_nil_r. unfold untouched_by_selection.
    repeat apply conj; try reflexivity; try assumption; intros; congruence.
  - cbn -[filesAddedToast]. unfold untouched_by_selection. cbn.
    repeat apply conj; try reflexivity; try assumption; intros; congruence.
Qed.

(** X2. A change of the file input appends the chosen SVG and PNG files in
    the same way, and always shows a toast with their number, also when that
    number is zero; with no file list the handler does nothing. It never
    touches the drag highlight, the results, the size text or the store. *)
Theorem select_appends_accepted (targetFiles : option (list Upload.t)) (s : Session) :
  let s' := snd (handleFileSelect targetFiles s) in
  fst (handleFileSelect targetFiles s) = Normal tt
  /\ dragActive s' = dragActive s
  /\ untouched_by_selection (page s) (page s')
  /\ match targetFiles with
     | None => s' = s
     | Some fileList =>
         files (page s') =
           (files (page s) ++ List.map Upload.file (List.filter accepts fileList))%list
         /\ toasts (page s') =
              filesSelectedToast (length (List.filter accepts fileList))
              :: toasts (page s)
     end
  /\ (forall fileList,
        targetFiles = Some fileList -> List.filter accepts fileList = [] ->
        files (page s') = files (page s)
        /\ toasts (page s') =
             Toast.mk "Files selected!" "0 file(s) ready for processing" false
             :: toasts (page s)).
Proof.
  cbv zeta. destruct targetFiles as [fileList|].
  - unfold handleFileSelect, bindUI, onPage, setFiles, toast.
    cbn -[filesSelectedToast]. unfold untouched_by_selection. cbn.
    repeat apply conj; try reflexivity.
    intros l [= <-] E. rewrite E. cbn. now rewrite app_nil_r.
  - cbn. unfold untouched_by_selection. destruct s. cbn.
    repeat apply conj; try reflexivity. intros l H. discriminate.
Qed.

Lemma validation_rejected_run (w : World) :
  files w = [] \/ parseSizes (sizes w) = [] ->
  exists t,
    (t = noFilesToast \/ t = invalidSizesToast)
    /\ processImages w =
         (Normal tt,
          mkWorld (files w) (sizes w) (processedIcons w) (isProcessing w)
            (progress w) (fileInput w) (objectURLs w) (nextURL w)
            (t :: toasts w) (progressLog w)).
Proof.
  intros H. destruct (files w) as [|file rest] eqn:Hf.
  - exists noFilesToast. rewrite processImages_no_files by assumption.
    unfold toast. rewrite Hf. auto.
  - destruct H as [H|H]; [discriminate|].
    exists invalidSizesToast.
    rewrite processImages_no_sizes by (rewrite ?Hf; auto; discriminate).
    unfold toast. rewrite Hf. auto.
Qed.

(** ** Outcomes of a run *)

Lemma rejected_not_succeeded w w' : rejected w w' -> succeeded w w' -> False.
Proof.
  intros (t & [->| ->] & H1) [n H2]; rewrite H1 in H2; discriminate.
Qed.

Lemma rejected_not_failed w w' : rejected w w' -> failed w w' -> False.
Proof.
  intros (t & [->| ->] & H1) H2; unfold failed in H2; rewrite H1 in H2;
    discriminate.
Qed.

(** X3. [processImages] never throws to its caller and shows exactly one
    toast, which tells the outcome: rejected, complete or failed, and never
    two of them. The run is rejected exactly when there is no file or no
    valid size. It is signalled complete only if every file decodes, and a
    run that has started on a file that does not decode is signalled
    failed. Whenever the run has started [isProcessing] is false at the
    end. *)
Theorem run_outcome (w : World) :
  let w' := run processImages w in
  fst (processImages w) = Normal tt
  /\ length (toasts w') = S (length (toasts w))
  /\ (rejected w w' \/ succeeded w w' \/ failed w w')
  /\ ~ (rejected w w' /\ succeeded w w')
  /\ ~ (rejected w w' /\ failed w w')
  /\ ~ (succeeded w w' /\ failed w w')
  /\ (rejected w w' <-> ~ started w)
  /\ (succeeded w w' -> forallb decodes (files w) = true)
  /\ (started w -> List.Exists (fun f => File.image f = None) (files w) ->
      failed w w')
  /\ (started w -> isProcessing w' = false).
Proof.
  cbv zeta.
  assert (X1 : forall w', ~ (rejected w w' /\ succeeded w w'))
    by (intros w' [A B]; exact (rejected_not_succeeded w w' A B)).
  assert (X2 : forall w', ~ (rejected w w' /\ failed w w'))
    by (intros w' [A B]; exact (rejected_not_failed w w' A B)).
  assert (X3 : forall w', ~ (succeeded w w' /\ failed w w'))
    by (intros w' [A B]; exact (succeeded_not_failed w w' A B)).
  destruct (classic_started w) as [Hs|Hn].
  - destruct (processImages_started w Hs)
      as (w' & E & _ & _ & _ & Hp & H & _).
    unfold run. rewrite E. cbn [fst snd].
    split; [reflexivity|].
    destruct (forallb decodes (files w)) eqn:Hd; destruct H as [Hi Ht].
    + assert (Hok : succeeded w w') by (eexists; exact Ht).
      split; [rewrite Ht; reflexivity|]. split; [right; left; exact Hok|].
      split; [apply X1|]. split; [apply X2|]. split; [apply X3|].
      split; [split; [intros Hr; destruct (X1 w' (conj Hr Hok))|
                      intros Hns; contradiction]|].
      split; [intros _; reflexivity|].
      split; [|intros _; exact Hp].
      intros _ He. apply decodes_false_Exists in He. congruence.
    + split; [rewrite Ht; reflexivity|]. split; [right; right; exact Ht|].
      split; [apply X1|]. split; [apply X2|]. split; [apply X3|].
      split; [split; [intros Hr; destruct (X2 w' (conj Hr Ht))|
                      intros Hns; contradiction]|].
      split; [intros Hok; destruct (X3 w' (conj Hok Ht))|].
      split; [intros _ _; exact Ht|intros _; exact Hp].
  - assert (Hns : ~ started w) by (intros [H1 H2]; tauto).
    destruct (validation_rejected_run w Hn) as (t & Ht & E).
    unfold run. rewrite E. cbn [fst snd toasts].
    set (w' := mkWorld (files w) (sizes w) (processedIcons w) (isProcessing w)
                 (progress w) (fileInput w) (objectURLs w) (nextURL w)
                 (t :: toasts w) (progressLog w)).
    assert (Hr : rejected w w') by (exists t; auto).
    split; [reflexivity|]. split; [reflexivity|]. split; [left; exact Hr|].
    split; [apply X1|]. split; [apply X2|]. split; [apply X3|].
    split; [split; [intros _; exact Hns|intros _; exact Hr]|].
    split; [intros Hok; destruct (X1 w' (conj Hr Hok))|].
    split; intros Hst; contradiction.
Qed.

(** ** More on the size text *)

Lemma split_nonempty (sep : ascii) (s : string) : Str.split sep s <> [].
Proof.
  destruct s as [|c s]; cbn; [discriminate|].
  destruct (Ascii.eqb c sep); [discriminate|].
  destruct (Str.split sep s); discriminate.
Qed.

Lemma split_sep (sep : ascii) (a b : string) :
  Str.split sep (a ++ String sep b) = (Str.split sep a ++ Str.split sep b)%list.
Proof.
  induction a as [|c a IH]; rewrite ?append_nil, ?append_cons; cbn [Str.split].
  - now rewrite Ascii.eqb_refl.
  - rewrite IH. destruct (Ascii.eqb c sep); [reflexivity|].
    pose proof (split_nonempty sep a) as Hne.
    destruct (Str.split sep a); [contradiction|reflexivity].
Qed.

Lemma trim_white (e : string) : allWhite e = true -> Str.trim e = "".
Proof. intros H. unfold Str.trim. now rewrite trimEnd_white. Qed.

Lemma parseSizes_blank (e : string) :
  allWhite e = true -> lacks "," e = true -> parseSizes e = [].
Proof.
  intros Hw Hc. unfold parseSizes. rewrite split_lacks by assumption.
  cbn [List.map]. now rewrite trim_white.
Qed.

(** X4. A comma joins size texts: the sizes parsed from [a ++ "," ++ b] are
    those of [a] followed by those of [b]. Hence a leading or trailing comma,
    a doubled comma and an entry of white space only change nothing. *)
Theorem parseSizes_comma (a b : string) :
  parseSizes (a ++ "," ++ b) = (parseSizes a ++ parseSizes b)%list
  /\ parseSizes (a ++ ",") = parseSizes a
  /\ parseSizes ("," ++ b) = parseSizes b
  /\ parseSizes (a ++ ",," ++ b) = (parseSizes a ++ parseSizes b)%list
  /\ (forall blank,
        allWhite blank = true ->
        parseSizes (a ++ "," ++ blank ++ "," ++ b) =
        (parseSizes a ++ parseSizes b)%list).
Proof.
  assert (H : forall x y,
             parseSizes (x ++ String "," y) = (parseSizes x ++ parseSizes y)%list).
  { intros x y. unfold parseSizes.
    now rewrite split_sep, List.map_app, List.filter_app. }
  repeat apply conj.
  - apply H.
  - rewrite (H a ""). cbn. apply app_nil_r.
  - apply (H "" b).
  - change (a ++ ",," ++ b) with (a ++ String "," (String "," b)).
    rewrite H. f_equal; try apply (H "" b).
  - intros blank Hw.
    change (a ++ "," ++ blank ++ "," ++ b)
      with (a ++ String "," (blank ++ String "," b)).
    rewrite !H. f_equal.
    rewrite parseSizes_blank; [reflexivity|assumption|].
    now apply white_lacks_comma.
Qed.

(** Hexadecimal entries. *)

Ltac eval_hex_digit :=
  match goal with
  | |- context [Num.digitValue 16 ?c] =>
      let v := eval vm_compute in (Num.digitValue 16 c) in
      change (Num.digitValue 16 c) with v
  end; cbv iota beta.

Lemma scanHex_acc (d : Hexadecimal.uint) (rest : string) :
  forall p : positive,
  Num.scanDigits 16 (HexadecimalString.NilEmpty.string_of_uint d ++ rest)
    (Some (Z.pos p)) =
  Num.scanDigits 16 rest (Some (Z.pos (Pos.of_hex_uint_acc d p))).
Proof.
  induction d; intros p;
    cbn [HexadecimalString.NilEmpty.string_of_uint Pos.of_hex_uint_acc];
    rewrite ?append_nil, ?append_cons; [reflexivity|..];
    cbn [Num.scanDigits]; eval_hex_digit; cbn [default];
    rewrite <- IHd;
    apply (f_equal (fun a => Num.scanDigits 16 _ (Some a))); unfold id; lia.
Qed.

Lemma scanHex_zero (d : Hexadecimal.uint) (rest : string) :
  Num.scanDigits 16 (HexadecimalString.NilEmpty.string_of_uint d ++ rest) (Some 0) =
  Num.scanDigits 16 rest (Some (Z.of_N (Pos.of_hex_uint d))).
Proof.
  induction d; cbn [HexadecimalString.NilEmpty.string_of_uint Pos.of_hex_uint];
    rewrite ?append_nil, ?append_cons; [reflexivity|..];
    cbn [Num.scanDigits]; eval_hex_digit; cbn [default];
    [exact IHd|..]; apply scanHex_acc.
Qed.

Lemma scanHex_start (d : Hexadecimal.uint) (rest : string) :
  d <> Hexadecimal.Nil ->
  Num.scanDigits 16 (HexadecimalString.NilEmpty.string_of_uint d ++ rest) None =
  Num.scanDigits 16 (HexadecimalString.NilEmpty.string_of_uint d ++ rest) (Some 0).
Proof.
  intros Hd. destruct d; [contradiction|..];
    cbn [HexadecimalString.NilEmpty.string_of_uint]; rewrite append_cons;
    cbn [Num.scanDigits]; eval_hex_digit; reflexivity.
Qed.

Lemma scanHex_stops (rest : string) (acc : option Z) :
  stopsHex rest -> Num.scanDigits 16 rest acc = acc.
Proof. destruct rest as [|c r]; cbn; [reflexivity|]. now intros ->. Qed.

Lemma parseInt_0x (x : ascii) (s : string) :
  x = "x"%char \/ x = "X"%char ->
  Num.parseInt (String "0" (String x s)) =
    match Num.scanDigits 16 s None with
    | None => NaN
    | Some mathInt => Int (1 * mathInt)
    end.
Proof. intros [->| ->]; reflexivity. Qed.

(** The letters of a hexadecimal numeral are read in either case. *)
Lemma digitValue_lower (c : ascii) :
  Num.digitValue 16 (lowerAscii c) = Num.digitValue 16 c.
Proof. destruct c as [[] [] [] [] [] [] [] []]; reflexivity. Qed.

Lemma hexDigit_plain (c : ascii) (v : Z) :
  Num.digitValue 16 c = Some v ->
  Str.isWhiteSpace c = false /\ Ascii.eqb c "," = false.
Proof.
  destruct c as [[] [] [] [] [] [] [] []]; vm_compute; intros H;
    first [discriminate H | split; reflexivity].
Qed.

Lemma scanDigits_lower (s : string) :
  forall acc, Num.scanDigits 16 (lowerCase s) acc = Num.scanDigits 16 s acc.
Proof.
  induction s as [|c s IH]; intros acc; cbn [lowerCase Num.scanDigits]; [reflexivity|].
  rewrite digitValue_lower. destruct (Num.digitValue 16 c); [apply IH|reflexivity].
Qed.

Lemma lowerCase_app (a b : string) : lowerCase (a ++ b) = lowerCase a ++ lowerCase b.
Proof.
  induction a as [|c a IH]; rewrite ?append_nil, ?append_cons; cbn [lowerCase];
    [reflexivity|]. now rewrite append_cons, IH.
Qed.

Lemma stopsHex_lower (rest : string) : stopsHex rest -> stopsHex (lowerCase rest).
Proof. destruct rest as [|c r]; cbn; [exact id|]. now rewrite digitValue_lower. Qed.

Lemma numeral_hexDigits (d : Hexadecimal.uint) :
  forall ds, lowerCase ds = HexadecimalString.NilEmpty.string_of_uint d ->
  solid ds = true /\ lacks "," ds = true.
Proof.
  induction d; intros [|c ds];
    cbn [HexadecimalString.NilEmpty.string_of_uint lowerCase solid lacks];
    intros E; try discriminate E; [split; reflexivity|..];
    injection E as Ec Es; destruct (IHd ds Es) as [-> ->];
    (assert (Hv : exists v, Num.digitValue 16 c = Some v)
       by (rewrite <- digitValue_lower, Ec; vm_compute; eexists; reflexivity));
    destruct Hv as [v Hv]; destruct (hexDigit_plain c v Hv) as [-> ->]; split; reflexivity.
Qed.

(** X5. An entry that starts with [0x] or [0X] is read in base 16. Followed
    by a hexadecimal numeral, its letters in either case, of a value up to
    [maxSafe], and then by nothing that goes on with a hexadecimal digit,
    it yields the value of that numeral, so ["0x10"] asks for size 16 and
    ["0X1F"] for size 31; with no hexadecimal digit after the prefix the
    entry is [NaN] and is dropped. *)
Theorem hex_prefix_is_read
    (x : ascii) (ds : string) (d : Hexadecimal.uint) (rest : string) :
  x = "x"%char \/ x = "X"%char ->
  lowerCase ds = HexadecimalString.NilEmpty.string_of_uint d ->
  stopsHex rest ->
  Z.of_hex_uint d <= maxSafe ->
  Num.parseInt (String "0" (String x (ds ++ rest))) =
    match d with
    | Hexadecimal.Nil => NaN
    | _ => Int (Z.of_hex_uint d)
    end
  /\ (rest = "" -> 0 < Z.of_hex_uint d ->
      parseSizes (String "0" (String x ds)) = [Int (Z.of_hex_uint d)])
  /\ parseSizes "0x10" = [Int 16]
  /\ parseSizes "0X1F,0x,0xg" = [Int 31].
Proof.
  intros Hx Hds Hr _.
  assert (Hp : Num.parseInt (String "0" (String x (ds ++ rest))) =
    match d with
    | Hexadecimal.Nil => NaN
    | _ => Int (Z.of_hex_uint d)
    end).
  { rewrite parseInt_0x by assumption.
    rewrite <- scanDigits_lower, lowerCase_app, Hds.
    pose proof (stopsHex_lower rest Hr) as Hr'.
    destruct (Hexadecimal.uint_eq_dec d Hexadecimal.Nil) as [->|Hd].
    - cbn [HexadecimalString.NilEmpty.string_of_uint].
      rewrite append_nil, scanHex_stops by assumption. reflexivity.
    - rewrite scanHex_start, scanHex_zero, scanHex_stops by assumption.
      unfold Z.of_hex_uint. rewrite Z.mul_1_l. destruct d; [contradiction|..]; reflexivity. }
  split; [exact Hp|]. split; [|split; reflexivity].
  intros -> Hd. rewrite append_empty in Hp.
  destruct (numeral_hexDigits d ds Hds) as [Hs Hc].
  unfold parseSizes. rewrite split_lacks.
  - cbn [List.map]. unfold Str.trim.
    rewrite trimEnd_solid, trimStart_solid.
    + rewrite Hp. destruct d; [cbn in Hd; lia|..]; cbn [List.filter Num.gt0];
        (destruct (0 <? _) eqn:E; [reflexivity|apply Z.ltb_ge in E; lia]).
    + cbn. destruct Hx as [->| ->]; cbn; exact Hs.
    + cbn. destruct Hx as [->| ->]; cbn; exact Hs.
  - cbn. destruct Hx as [->| ->]; cbn; exact Hc.
Qed.

Lemma hex_prefix_is_read_witness :
  ("X"%char = "x"%char \/ "X"%char = "X"%char)
  /\ lowerCase "2A" = HexadecimalString.NilEmpty.string_of_uint
                        (Hexadecimal.D2 (Hexadecimal.Da Hexadecimal.Nil))
  /\ stopsHex "px"
  /\ Z.of_hex_uint (Hexadecimal.D2 (Hexadecimal.Da Hexadecimal.Nil)) <= maxSafe
  /\ Num.parseInt "0X2Apx" = Int 42.
Proof.
  assert (Hm : Z.of_hex_uint (Hexadecimal.D2 (Hexadecimal.Da Hexadecimal.Nil)) <= maxSafe)
    by (vm_compute; discriminate).
  split; [right; reflexivity|]. split; [reflexivity|]. split; [reflexivity|].
  split; [exact Hm|].
  exact (proj1 (hex_prefix_is_read "X" "2A"
                  (Hexadecimal.D2 (Hexadecimal.Da Hexadecimal.Nil)) "px"
                  (or_intror eq_refl) eq_refl eq_refl Hm)).
Defined.

(** ** More on file names *)

(** X6. [baseName] removes at most one suffix: either the name is returned
    unchanged, or the name is the result followed by a dot and a non-empty
    extension that holds neither a dot nor a slash. So the result is a
    prefix of the name, a name that ends in a dot is unchanged, and a name
    that is nothing but an extension, such as [".png"], has the empty base
    name. *)
Theorem baseName_cases (name : string) :
  (baseName name = name \/
   exists ext,
     ext <> "" /\ noSlashDot ext = true /\ name = baseName name ++ String "." ext)
  /\ (forall stem, baseName (stem ++ ".") = stem ++ ".")
  /\ (forall ext, ext <> "" -> noSlashDot ext = true -> baseName (String "." ext) = "").
Proof.
  split; [|split].
  - induction name as [|c rest IH]; [left; reflexivity|].
    cbn [baseName].
    destruct (Ascii.eqb c "." && negb (String.eqb rest "") && noSlashDot rest)
      eqn:E.
    + right. apply andb_prop in E as [E E3]. apply andb_prop in E as [E1 E2].
      apply Ascii.eqb_eq in E1. subst c. exists rest.
      rewrite append_nil. repeat split; auto.
      intros ->. discriminate.
    + destruct IH as [IH|(ext & H1 & H2 & H3)].
      * left. now rewrite IH.
      * right. exists ext. rewrite append_cons. repeat split; auto.
        now rewrite <- H3.
  - intros stem. induction stem as [|c stem IH];
      rewrite ?append_nil, ?append_cons; [reflexivity|].
    cbn [baseName]. rewrite IH.
    change (stem ++ ".") with (stem ++ String "." "").
    now rewrite noSlashDot_dot, andb_false_r.
  - intros ext Hne Hext. apply (baseName_strips "" ext Hne Hext).
Qed.

(** Separators. *)

Lemma lacks_sep (sep : ascii) (a t : string) : lacks sep (a ++ String sep t) = false.
Proof.
  induction a as [|c a IH]; rewrite ?append_nil, ?append_cons; cbn.
  - now rewrite Ascii.eqb_refl.
  - rewrite IH. apply andb_false_r.
Qed.

Lemma last_sep_unique (sep : ascii) (a a' t t' : string) :
  lacks sep t = true -> lacks sep t' = true ->
  a ++ String sep t = a' ++ String sep t' -> a = a' /\ t = t'.
Proof.
  intros Ht Ht'. revert a'.
  induction a as [|c a IH]; intros [|c' a'];
    rewrite ?append_nil, ?append_cons; intros E.
  - injection E as E. auto.
  - injection E as <- E. rewrite E, lacks_sep in Ht. discriminate.
  - injection E as -> E. rewrite <- E, lacks_sep in Ht'. discriminate.
  - injection E as <- E. destruct (IH a' E) as [-> ->]. auto.
Qed.

Lemma first_sep_unique (sep : ascii) (a a' t t' : string) :
  lacks sep a = true -> lacks sep a' = true ->
  a ++ String sep t = a' ++ String sep t' -> a = a' /\ t = t'.
Proof.
  revert a'. induction a as [|c a IH]; intros [|c' a'];
    rewrite ?append_nil, ?append_cons; intros Ha Ha' E.
  - injection E as E. auto.
  - injection E as <- E. cbn in Ha'. rewrite Ascii.eqb_refl in Ha'. discriminate.
  - injection E as -> E. cbn in Ha. rewrite Ascii.eqb_refl in Ha. discriminate.
  - injection E as <- E. cbn in Ha, Ha'.
    apply andb_prop in Ha as [_ Ha]. apply andb_prop in Ha' as [_ Ha'].
    destruct (IH a' Ha Ha' E) as [-> ->]. auto.
Qed.

Lemma uint_lacks (c : ascii) (d : Decimal.uint) :
  Num.digitValue 10 c = None -> lacks c (NilEmpty.string_of_uint d) = true.
Proof.
  intros Hc. induction d; cbn [NilEmpty.string_of_uint lacks]; [reflexivity|..];
    rewrite IHd, andb_true_r;
    (match goal with |- negb (Ascii.eqb ?k c) = true =>
       destruct (Ascii.eqb_spec k c) as [<-|]; [discriminate Hc|reflexivity] end).
Qed.

Lemma toString_lacks (c : ascii) (z : Z) :
  Num.digitValue 10 c = None -> (c <> "-"%char \/ 0 <= z) ->
  lacks c (Num.toString (Int z)) = true.
Proof.
  intros Hc Hz. destruct z as [|p|p].
  - change (lacks c "0" = true). cbn [lacks].
    destruct (Ascii.eqb_spec "0" c) as [<-|]; [discriminate Hc|reflexivity].
  - rewrite toString_pos. now apply uint_lacks.
  - rewrite toString_neg. cbn [lacks]. rewrite uint_lacks by assumption.
    destruct Hz as [Hz|Hz]; [|lia].
    destruct (Ascii.eqb_spec "-" c) as [<-|]; [contradiction|reflexivity].
Qed.

Lemma toString_inj (z z' : Z) :
  Num.toString (Int z) = Num.toString (Int z') -> z = z'.
Proof.
  intros E. apply (f_equal Num.parseInt) in E.
  rewrite !parseInt_toString in E. now injection E.
Qed.

Lemma outputName_base_size (name name' : string) (z z' : Z) :
  outputName name (Int z) = outputName name' (Int z') ->
  baseName name = baseName name' /\ z = z'.
Proof.
  unfold outputName. intros E.
  assert (Hx : forall y, lacks "_" (Num.toString (Int y) ++ "x" ++
                                    Num.toString (Int y) ++ ".png") = true).
  { intros y.
    change (Num.toString (Int y) ++ "x" ++ Num.toString (Int y) ++ ".png")
      with (Num.toString (Int y) ++ String "x" (Num.toString (Int y) ++ ".png")).
    rewrite lacks_app. cbn [lacks]. rewrite lacks_app.
    rewrite !toString_lacks by (try reflexivity; left; discriminate).
    reflexivity. }
  apply last_sep_unique in E as [Hb E]; [|apply Hx|apply Hx].
  split; [exact Hb|].
  apply first_sep_unique in E as [E _].
  - now apply toString_inj.
  - apply toString_lacks; [reflexivity|left; discriminate].
  - apply toString_lacks; [reflexivity|left; discriminate].
Qed.

(** X7. The derived names tell the icons apart as far as they can: two
    output file names are equal only if both the base names and the sizes
    are equal, and two ids of positive sizes are equal only if both the file
    names and the sizes are equal. So two sources whose names differ only in
    the last extension, such as [icon.svg] and [icon.png], get the same
    output file name at every size. *)
Theorem derived_names_injective (name name' : string) (z z' : Z) :
  (outputName name (Int z) = outputName name' (Int z') <->
     baseName name = baseName name' /\ z = z')
  /\ (0 < z -> 0 < z' ->
      (iconId name (Int z) = iconId name' (Int z') <-> name = name' /\ z = z'))
  /\ outputName "icon.svg" (Int z) = outputName "icon.png" (Int z).
Proof.
  split; [|split].
  - split.
    + apply outputName_base_size.
    + intros [Hb ->]. unfold outputName. now rewrite Hb.
  - intros Hz Hz'. split.
    + unfold iconId. intros E.
      apply last_sep_unique in E as [Hn E].
      * split; [exact Hn|]. now apply toString_inj.
      * apply toString_lacks; [reflexivity|right; lia].
      * apply toString_lacks; [reflexivity|right; lia].
    + intros [-> ->]. reflexivity.
  - reflexivity.
Qed.

(** ** The object-URL store across a run *)

Lemma iconsOfSizes_urls file img sizeArray :
  forall u, List.map Icon.url (iconsOfSizes file img sizeArray u) = seq u (length sizeArray).
Proof.
  induction sizeArray as [|size rest IH]; intros u; cbn; [reflexivity|].
  now rewrite IH.
Qed.

Lemma iconsOfFiles_urls fs sizeArray :
  forall u,
  Forall (fun x => (u < x < u + length (decodedPrefix fs) * S (length sizeArray))%nat)
    (List.map Icon.url (iconsOfFiles fs sizeArray u))
  /\ NoDup (List.map Icon.url (iconsOfFiles fs sizeArray u)).
Proof.
  induction fs as [|file rest IH]; intros u; cbn [iconsOfFiles decodedPrefix].
  - split; constructor.
  - unfold decodes. destruct (File.image file) as [img|]; [|split; constructor].
    rewrite List.map_app, iconsOfSizes_urls.
    destruct (IH (S u + length sizeArray)%nat) as [H1 H2].
    split.
    + apply Forall_app. split.
      * apply List.Forall_forall. intros x Hx. apply in_seq in Hx. cbn. lia.
      * eapply List.Forall_impl; [|exact H1]. cbn. intros x Hx. lia.
    + apply NoDup_app. split; [apply NoDup_seq|]. split; [|exact H2].
      intros x Hx Hx'. apply list_elem_of_In, in_seq in Hx.
      apply list_elem_of_In in Hx'.
      rewrite List.Forall_forall in H1. specialize (H1 x Hx'). lia.
Qed.

Lemma renderFiles_store sizeArray total fs :
  forall locals w,
  storeBelowNext w ->
  let w' := snd (forOf fs (renderFile sizeArray total) locals w) in
  let k := length (decodedPrefix fs) in
  nextURL w' =
    (nextURL w + k * S (length sizeArray) + (if forallb decodes fs then 0 else 1))%nat
  /\ objectURLs w' =
       (if forallb decodes fs then ∅
        else {[ (nextURL w + k * S (length sizeArray))%nat ]})
       ∪ list_to_set (List.map Icon.url (iconsOfFiles fs sizeArray (nextURL w)))
       ∪ objectURLs w
  /\ storeBelowNext w'.
Proof.
  induction fs as [|file rest IH]; intros [icons c] w Hw.
  - cbn. repeat apply conj; [lia|set_solver|exact Hw].
  - cbn [forallb decodedPrefix iconsOfFiles].
    assert (Hd : decodes file =
                 match File.image file with Some _ => true | None => false end)
      by reflexivity.
    rewrite Hd; clear Hd.
    destruct (File.image file) as [img|] eqn:Himg.
    + destruct (renderSizes_spec file img total sizeArray icons c
                  (snd (createObjectURL w)))
        as (w1 & E1 & Hu1 & Hn1 & Ho1 & Hp1).
      cbn [nextURL objectURLs createObjectURL snd] in Hn1, Ho1.
      remember (snd (revokeObjectURL (nextURL w) w1)) as v0 eqn:Ev.
      remember ((icons ++ iconsOfSizes file img sizeArray (S (nextURL w)))%list,
                c + Z.of_nat (length sizeArray)) as l0 eqn:El.
      assert (E : forOf (file :: rest) (renderFile sizeArray total) (icons, c) w =
                  forOf rest (renderFile sizeArray total) l0 v0).
      { cbn [forOf]. unfold bind at 1. unfold renderFile at 1.
        unfold bind at 1. unfold createObjectURL at 1.
        unfold bind at 1. unfold loadImage. rewrite Himg.
        unfold ret at 1. unfold bind at 1.
        cbn [createObjectURL snd nextURL] in E1. rewrite E1.
        unfold bind at 1, revokeObjectURL at 1, ret at 1.
        rewrite Ev, El. reflexivity. }
      rewrite E.
      assert (Hnv : nextURL v0 = (S (nextURL w) + length sizeArray)%nat)
        by (rewrite Ev; cbn; exact Hn1).
      assert (Hov : objectURLs v0 =
                    list_to_set (seq (S (nextURL w)) (length sizeArray))
                    ∪ objectURLs w).
      { rewrite Ev. cbn [objectURLs revokeObjectURL snd]. rewrite Ho1.
        assert (Hfresh : nextURL w ∉ objectURLs w)
          by (intros Hin; specialize (Hw _ Hin); lia).
        assert (Hseq : nextURL w ∉
                  (list_to_set (seq (S (nextURL w)) (length sizeArray)) : gset nat)).
        { intros Hin. apply elem_of_list_to_set, list_elem_of_In, in_seq in Hin. lia. }
        set_solver. }
      assert (Hv : storeBelowNext v0).
      { intros u. rewrite Hov, Hnv. intros Hu.
        apply elem_of_union in Hu as [Hu|Hu].
        - apply elem_of_list_to_set, list_elem_of_In, in_seq in Hu. lia.
        - specialize (Hw u Hu). lia. }
      destruct (IH l0 v0 Hv) as (IH1 & IH2 & IH3).
      cbv zeta. cbn [andb length]. repeat apply conj.
      * rewrite IH1, Hnv. lia.
      * rewrite IH2, Hov, Hnv, List.map_app, iconsOfSizes_urls, list_to_set_app_L.
        replace (nextURL w + S (length (decodedPrefix rest)) * S (length sizeArray))%nat
          with (S (nextURL w) + length sizeArray +
                length (decodedPrefix rest) * S (length sizeArray))%nat by lia.
        set_solver.
      * exact IH3.
    + assert (E : forOf (file :: rest) (renderFile sizeArray total) (icons, c) w =
                  (Thrown, snd (createObjectURL w))).
      { cbn [forOf]. unfold bind at 1. unfold renderFile at 1.
        unfold bind at 1. unfold createObjectURL at 1.
        unfold bind at 1. unfold loadImage. rewrite Himg. reflexivity. }
      rewrite E. cbn [snd createObjectURL nextURL objectURLs length andb].
      repeat apply conj.
      * lia.
      * replace (nextURL w + 0 * S (length sizeArray))%nat with (nextURL w) by lia.
        set_solver.
      * intros u Hu. cbn in Hu |- *. apply elem_of_union in Hu as [Hu|Hu].
        -- apply elem_of_singleton in Hu. lia.
        -- specialize (Hw u Hu). lia.
Qed.

Lemma iconsOfFiles_length_prefix fs sizeArray :
  forall u,
  length (iconsOfFiles fs sizeArray u) =
    (length (decodedPrefix fs) * length sizeArray)%nat.
Proof.
  induction fs as [|file rest IH]; intros u; cbn [iconsOfFiles decodedPrefix];
    [reflexivity|].
  unfold decodes. destruct (File.image file); [|reflexivity].
  rewrite length_app, iconsOfSizes_length, IH. cbn. lia.
Qed.

Lemma run_store_loop (w : World) :
  started w ->
  let w0 := mkWorld (files w) (sizes w) (processedIcons w) true 0 (fileInput w)
              (objectURLs w) (nextURL w) (toasts w) (0%float :: progressLog w) in
  let w1 := snd (forOf (files w)
                   (renderFile (parseSizes (sizes w))
                      (Z.of_nat (length (files w) * length (parseSizes (sizes w)))))
                   ([], 0) w0) in
  objectURLs (run processImages w) = objectURLs w1
  /\ nextURL (run processImages w) = nextURL w1.
Proof.
  intros [Hf Hs]. cbv zeta.
  set (w0 := mkWorld (files w) (sizes w) (processedIcons w) true 0 (fileInput w)
               (objectURLs w) (nextURL w) (toasts w) (0%float :: progressLog w)).
  set (loop := forOf (files w)
                 (renderFile (parseSizes (sizes w))
                    (Z.of_nat (length (files w) * length (parseSizes (sizes w)))))
                 ([], 0) w0).
  assert (E : exists icons t,
             processImages w =
             (Normal tt,
              mkWorld (files (snd loop)) (sizes (snd loop)) icons false
                (progress (snd loop)) (fileInput (snd loop))
                (objectURLs (snd loop)) (nextURL (snd loop))
                (t :: toasts (snd loop)) (progressLog (snd loop)))).
  { unfold processImages.
    destruct (Nat.eqb (length (files w)) 0) eqn:E1;
      [apply length_zero_nil in E1; contradiction|].
    destruct (Nat.eqb (length (parseSizes (sizes w))) 0) eqn:E2;
      [apply length_zero_nil in E2; contradiction|].
    unfold bind at 1, setIsProcessing at 1.
    unfold bind at 1, setProgress at 1.
    unfold tryFinally, tryCatch. unfold bind at 1.
    cbn [files sizes processedIcons isProcessing progress fileInput objectURLs
         nextURL toasts progressLog].
    fold w0. fold loop.
    destruct loop as [[locals|] w1]; cbn; eexists _, _; reflexivity. }
  destruct E as (icons & t & E). unfold run. rewrite E. split; reflexivity.
Qed.

(** X8. A run that completes on a store whose handles all lie below the
    next fresh one adds to the store exactly the handles of the icons it
    produced: the handle taken for each source image has been revoked again.
    The new handles are pairwise distinct and fresh, and the run takes
    [|S| * (|T| + 1)] handles in all. *)
Theorem completed_run_store (w : World) :
  started w ->
  storeBelowNext w ->
  forallb decodes (files w) = true ->
  let w' := run processImages w in
  objectURLs w' =
    list_to_set (List.map Icon.url (processedIcons w')) ∪ objectURLs w
  /\ nextURL w' =
       (nextURL w + length (files w) * S (length (parseSizes (sizes w))))%nat
  /\ NoDup (List.map Icon.url (processedIcons w'))
  /\ Forall (fun u => (nextURL w < u < nextURL w')%nat /\ u ∉ objectURLs w)
       (List.map Icon.url (processedIcons w'))
  /\ storeBelowNext w'.
Proof.
  intros Hs Hw Hd. cbv zeta.
  destruct (run_store_loop w Hs) as (Ho & Hn). cbv zeta in Ho, Hn.
  destruct (run_started w Hs) as (_ & _ & _ & _ & H & _).
  rewrite Hd in H. destruct H as [Hi _].
  match type of Ho with _ = objectURLs (snd (forOf _ _ ?l ?v)) =>
    assert (Hv : storeBelowNext v) by exact Hw;
    destruct (renderFiles_store (parseSizes (sizes w))
                (Z.of_nat (length (files w) * length (parseSizes (sizes w))))
                (files w) l v Hv) as (S1 & S2 & S3) end.
  cbv zeta in S1, S2. cbn [nextURL objectURLs] in S1, S2.
  rewrite Hd in S1, S2. rewrite decodedPrefix_all in S1 by assumption.
  rewrite ?decodedPrefix_all in S2 by assumption.
  destruct (iconsOfFiles_urls (files w) (parseSizes (sizes w)) (nextURL w))
    as [U1 U2].
  rewrite decodedPrefix_all in U1 by assumption.
  rewrite Hi, Ho, Hn, S1, S2. repeat apply conj.
  - set_solver.
  - lia.
  - exact U2.
  - eapply List.Forall_impl; [|exact U1]. cbn. intros u Hu. split; [lia|].
    intros Hin. specialize (Hw u Hin). lia.
  - intros u Hu. rewrite Ho in Hu. rewrite Hn. exact (S3 u Hu).
Qed.

Lemma completed_run_store_witness :
  started sampleWorld /\ storeBelowNext sampleWorld
  /\ forallb decodes (files sampleWorld) = true
  /\ nextURL (run processImages sampleWorld) =
       (nextURL sampleWorld +
        length (files sampleWorld) * S (length (parseSizes (sizes sampleWorld))))%nat.
Proof.
  assert (Hs : started sampleWorld) by (split; vm_compute; discriminate).
  assert (Hw : storeBelowNext sampleWorld).
  { intros u Hu. change (objectURLs sampleWorld) with (∅ : gset nat) in Hu.
    apply not_elem_of_empty in Hu. destruct Hu. }
  split; [exact Hs|]. split; [exact Hw|]. split; [reflexivity|].
  exact (proj1 (proj2 (completed_run_store sampleWorld Hs Hw eq_refl))).
Defined.

(** X9. A run that fails on a file that does not decode leaves handles
    behind: the one taken for the failing image and one for every icon
    computed before the failure, [1 +] the number of completed pairs in all.
    They are fresh handles, held by no icon of the unchanged result list,
    and no handle that was live before is removed. *)
Theorem failed_run_leaks (w : World) :
  started w ->
  storeBelowNext w ->
  List.Exists (fun f => File.image f = None) (files w) ->
  let w' := run processImages w in
  processedIcons w' = processedIcons w
  /\ objectURLs w ⊆ objectURLs w'
  /\ size (objectURLs w' ∖ objectURLs w) = S (completedPairs w)
  /\ (forall u, u ∈ objectURLs w' ∖ objectURLs w -> (nextURL w <= u < nextURL w')%nat)
  /\ (handlesLive w ->
      forall icon, In icon (processedIcons w') ->
        Icon.url icon ∉ objectURLs w' ∖ objectURLs w)
  /\ storeBelowNext w'.
Proof.
  intros Hs Hw Hbad. cbv zeta.
  destruct (run_store_loop w Hs) as (Ho & Hn). cbv zeta in Ho, Hn.
  destruct (run_started w Hs) as (_ & _ & _ & _ & H & _).
  apply decodes_false_Exists in Hbad. rewrite Hbad in H. destruct H as [Hi _].
  match type of Ho with _ = objectURLs (snd (forOf _ _ ?l ?v)) =>
    assert (Hv : storeBelowNext v) by exact Hw;
    destruct (renderFiles_store (parseSizes (sizes w))
                (Z.of_nat (length (files w) * length (parseSizes (sizes w))))
                (files w) l v Hv) as (S1 & S2 & S3) end.
  cbv zeta in S1, S2. cbn [nextURL objectURLs] in S1, S2.
  rewrite Hbad in S1, S2.
  destruct (iconsOfFiles_urls (files w) (parseSizes (sizes w)) (nextURL w))
    as [U1 U2].
  set (k := length (decodedPrefix (files w))) in *.
  set (n := length (parseSizes (sizes w))) in *.
  set (urls := List.map Icon.url
                 (iconsOfFiles (files w) (parseSizes (sizes w)) (nextURL w))) in *.
  assert (Hlen : length urls = (k * n)%nat)
    by (unfold urls; rewrite length_map; apply iconsOfFiles_length_prefix).
  assert (Hurls : forall u, u ∈ (list_to_set urls : gset nat) ->
                            (nextURL w < u < nextURL w + k * S n)%nat).
  { intros u Hu. apply elem_of_list_to_set, list_elem_of_In in Hu.
    rewrite List.Forall_forall in U1. exact (U1 u Hu). }
  assert (Hold : forall u, u ∈ objectURLs w -> (u < nextURL w)%nat) by exact Hw.
  assert (Hdiff : objectURLs (run processImages w) ∖ objectURLs w =
                  {[ (nextURL w + k * S n)%nat ]} ∪ list_to_set urls).
  { rewrite Ho, S2. apply set_eq. intros u.
    rewrite elem_of_difference, !elem_of_union, elem_of_singleton.
    split.
    - intros [[[Hu|Hu]|Hu] Hnot]; auto. contradiction.
    - intros [Hu|Hu].
      + split; [auto|]. intros Hin. specialize (Hold u Hin). lia.
      + split; [auto|]. intros Hin. specialize (Hold u Hin).
        specialize (Hurls u Hu). lia. }
  rewrite Hi. repeat apply conj.
  - reflexivity.
  - rewrite Ho, S2. set_solver.
  - rewrite Hdiff, size_union.
    + rewrite size_singleton, size_list_to_set by exact U2.
      rewrite Hlen. reflexivity.
    + intros u Hu1 Hu2. apply elem_of_singleton in Hu1.
      specialize (Hurls u Hu2). lia.
  - intros u Hu. rewrite Hdiff in Hu. rewrite Hn, S1.
    apply elem_of_union in Hu as [Hu|Hu].
    + apply elem_of_singleton in Hu. lia.
    + specialize (Hurls u Hu). lia.
  - intros Hl icon Hin Hu. rewrite Hdiff in Hu.
    destruct (Hl icon Hin) as [_ Hlt].
    apply elem_of_union in Hu as [Hu|Hu].
    + apply elem_of_singleton in Hu. lia.
    + specialize (Hurls _ Hu). lia.
  - intros u Hu. rewrite Ho in Hu. rewrite Hn. exact (S3 u Hu).
Qed.

Lemma failed_run_leaks_witness :
  started brokenWorld /\ storeBelowNext brokenWorld
  /\ List.Exists (fun f => File.image f = None) (files brokenWorld)
  /\ size (objectURLs (run processImages brokenWorld) ∖ objectURLs brokenWorld) =
       S (completedPairs brokenWorld).
Proof.
  assert (Hs : started brokenWorld) by (split; vm_compute; discriminate).
  assert (Hb : List.Exists (fun f => File.image f = None) (files brokenWorld))
    by (apply Exists_cons_tl, Exists_cons_hd; reflexivity).
  assert (Hw : storeBelowNext brokenWorld).
  { intros u Hu.
    assert (E : objectURLs brokenWorld = {[1%nat; 2%nat]})
      by (apply set_eq; intros x; vm_compute; tauto).
    rewrite E in Hu. change (nextURL brokenWorld) with 3%nat.
    apply elem_of_union in Hu as [Hu|Hu]; apply elem_of_singleton in Hu; lia. }
  split; [exact Hs|]. split; [exact Hw|]. split; [exact Hb|].
  exact (proj1 (proj2 (proj2 (failed_run_leaks brokenWorld Hs Hw Hb)))).
Defined.

Lemma classic_In (name : string) (icons : list Icon.t) :
  In name (List.map Icon.filename icons) \/ ~ In name (List.map Icon.filename icons).
Proof.
  destruct (in_dec String.string_dec name (List.map Icon.filename icons)); auto.
Qed.

(** ** The archive *)

Lemma zip_fold_lookup (icons : list Icon.t) (name : string) :
  forall zip : gmap string Blob.t,
  fold_left (fun zip icon => <[Icon.filename icon := Icon.blob icon]> zip) icons zip
    !! name =
  match lastNamed name icons with
  | Some b => Some b
  | None => zip !! name
  end.
Proof.
  induction icons as [|icon rest IH]; intros zip; cbn [fold_left lastNamed];
    [reflexivity|].
  rewrite IH. destruct (lastNamed name rest); [reflexivity|].
  destruct (String.eqb_spec (Icon.filename icon) name) as [<-|Hne].
  - apply lookup_insert_eq.
  - now apply lookup_insert_ne.
Qed.

Lemma lastNamed_None (name : string) (icons : list Icon.t) :
  lastNamed name icons = None <-> ~ In name (List.map Icon.filename icons).
Proof.
  induction icons as [|icon rest IH]; cbn [lastNamed List.map In]; [tauto|].
  destruct (lastNamed name rest) as [b|].
  - split; [discriminate|]. intros H. exfalso. apply H. right.
    destruct (classic_In name rest) as [Hin|Hin]; [exact Hin|].
    apply IH in Hin. discriminate.
  - destruct (String.eqb_spec (Icon.filename icon) name) as [<-|Hne].
    + split; [discriminate|]. intros H. exfalso. apply H. now left.
    + split; [|reflexivity]. intros _ [H|H]; [contradiction|].
      apply (proj1 IH); auto.
Qed.

Lemma zip_dom (icons : list Icon.t) :
  dom (zipOf icons) = (list_to_set (List.map Icon.filename icons) : gset string).
Proof.
  apply set_eq. intros name. rewrite elem_of_dom, elem_of_list_to_set.
  unfold zipOf. rewrite zip_fold_lookup, lookup_empty, list_elem_of_In.
  pose proof (lastNamed_None name icons) as H.
  destruct (lastNamed name icons) as [b|].
  - split; [|eauto]. intros _.
    destruct (classic_In name icons) as [Hin|Hin]; [exact Hin|].
    apply H in Hin. discriminate.
  - split; [intros [b Hb]; discriminate|]. intros Hin.
    destruct (proj1 H eq_refl Hin).
Qed.

Lemma size_list_to_set_le (l : list string) :
  (size (list_to_set l : gset string) <= length l)%nat
  /\ (size (list_to_set l : gset string) = length l <-> NoDup l).
Proof.
  induction l as [|x l [IH1 IH2]]; cbn [list_to_set length].
  - rewrite size_empty. split; [lia|]. split; [constructor|reflexivity].
  - destruct (decide (x ∈ (list_to_set l : gset string))) as [Hin|Hnin].
    + assert (E : ({[x]} ∪ list_to_set l : gset string) = list_to_set l)
        by set_solver.
      rewrite E. split; [lia|]. split; [lia|].
      intros Hnd. apply NoDup_cons in Hnd as [Hx _].
      apply elem_of_list_to_set in Hin. contradiction.
    + rewrite size_union by set_solver. rewrite size_singleton.
      split; [lia|]. rewrite NoDup_cons, <- IH2.
      rewrite elem_of_list_to_set in Hnin. split; [intros H; split; [auto|lia]|].
      intros [_ H]. lia.
Qed.

(** X10. In the archive the last write wins: the entry under a name is the
    blob of the last icon of the result list that bears this file name, and
    there is an entry for exactly the file names that occur. So the archive
    never has more entries than there are icons, and it has as many exactly
    when the file names are pairwise distinct. *)
Theorem archive_last_write_wins (icons : list Icon.t) :
  (forall name, zipOf icons !! name = lastNamed name icons)
  /\ dom (zipOf icons) = (list_to_set (List.map Icon.filename icons) : gset string)
  /\ (size (zipOf icons) <= length icons)%nat
  /\ (size (zipOf icons) = length icons <-> NoDup (List.map Icon.filename icons))
  /\ (~ NoDup (List.map Icon.filename icons) ->
      (size (zipOf icons) < length icons)%nat).
Proof.
  assert (Hl : forall name, zipOf icons !! name = lastNamed name icons).
  { intros name. unfold zipOf. rewrite zip_fold_lookup, lookup_empty.
    now destruct (lastNamed name icons). }
  assert (Hs : size (zipOf icons) =
               size (list_to_set (List.map Icon.filename icons) : gset string))
    by (rewrite <- size_dom, zip_dom; reflexivity).
  destruct (size_list_to_set_le (List.map Icon.filename icons)) as [H1 H2].
  rewrite length_map in H1, H2.
  split; [exact Hl|]. split; [apply zip_dom|].
  split; [rewrite Hs; exact H1|]. split; [rewrite Hs; exact H2|].
  intros Hnd. rewrite Hs in *.
  destruct (Nat.eq_dec
    (size (list_to_set (List.map Icon.filename icons) : gset string))
    (length icons)) as [E|E]; [|lia].
  apply H2 in E. contradiction.
Qed.

Lemma iconsOfSizes_named file img sizeArray :
  forall u,
  Forall (fun icon =>
            Icon.filename icon = outputName (Icon.originalName icon) (Icon.size icon)
            /\ Icon.id icon = iconId (Icon.originalName icon) (Icon.size icon))
    (iconsOfSizes file img sizeArray u).
Proof.
  induction sizeArray as [|size rest IH]; intros u; cbn [iconsOfSizes];
    constructor; [cbn; auto|apply IH].
Qed.

Lemma iconsOfFiles_named fs sizeArray :
  forall u,
  Forall (fun icon =>
            Icon.filename icon = outputName (Icon.originalName icon) (Icon.size icon)
            /\ Icon.id icon = iconId (Icon.originalName icon) (Icon.size icon))
    (iconsOfFiles fs sizeArray u).
Proof.
  induction fs as [|file rest IH]; intros u; cbn [iconsOfFiles]; [constructor|].
  destruct (File.image file); [|constructor].
  apply Forall_app. split; [apply iconsOfSizes_named|apply IH].
Qed.

Lemma iconsOfFiles_filenames fs sizeArray u :
  forallb decodes fs = true ->
  List.map Icon.filename (iconsOfFiles fs sizeArray u) =
  List.map (fun p => outputName (fst p) (snd p))
    (list_prod (List.map File.name fs) sizeArray).
Proof.
  intros Hd. rewrite <- (iconsOfFiles_pairs fs sizeArray u Hd), List.map_map.
  apply List.map_ext_in. intros icon Hin.
  pose proof (iconsOfFiles_named fs sizeArray u) as H.
  rewrite List.Forall_forall in H. apply (H icon Hin).
Qed.

Lemma parseSizes_Int text : Forall (fun n => exists z, n = Int z) (parseSizes text).
Proof.
  rewrite parseSizes_positives. apply List.Forall_forall.
  intros n Hn. apply in_map_iff in Hn as (z & <- & _). eauto.
Qed.

Lemma product_names_NoDup (names : list string) (sizeArray : list num) :
  Forall (fun n => exists z, n = Int z) sizeArray ->
  NoDup (List.map baseName names) -> NoDup sizeArray ->
  NoDup (List.map (fun p => outputName (fst p) (snd p)) (list_prod names sizeArray)).
Proof.
  intros Hi Hn Hs. induction names as [|a names IH]; cbn [list_prod List.map].
  - constructor.
  - cbn [List.map] in Hn. apply NoDup_cons in Hn as [Ha Hn].
    rewrite List.map_app, List.map_map. cbn [fst snd].
    apply NoDup_app. split; [|split].
    + apply NoDup_ListNoDup.
      apply NoDup_map_NoDup_ForallPairs; [|apply NoDup_ListNoDup; exact Hs].
      intros s s' Hs1 Hs2 E. rewrite List.Forall_forall in Hi.
      destruct (Hi s Hs1) as [z ->]. destruct (Hi s' Hs2) as [z' ->].
      apply outputName_base_size in E as [_ ->]. reflexivity.
    + intros x Hx Hx'. apply list_elem_of_In in Hx, Hx'.
      apply in_map_iff in Hx as (s & <- & Hs1).
      apply in_map_iff in Hx' as ([a' s'] & E & Hp). cbn [fst snd] in E.
      apply in_prod_iff in Hp as [Ha' Hs2].
      rewrite List.Forall_forall in Hi.
      destruct (Hi s Hs1) as [z ->]. destruct (Hi s' Hs2) as [z' ->].
      apply outputName_base_size in E as [E _].
      apply Ha. apply list_elem_of_In. rewrite <- E. now apply in_map.
    + apply IH. exact Hn.
Qed.

(** X11. When the source files have pairwise distinct base names and the
    parsed sizes are pairwise distinct, the icons of a completed run have
    pairwise distinct file names, and the archive built from them holds one
    entry for each of the [|S| * |T|] icons. *)
Theorem distinct_names_fill_archive (w : World) :
  started w ->
  succeeded w (run processImages w) ->
  NoDup (List.map (fun f => baseName (File.name f)) (files w)) ->
  NoDup (parseSizes (sizes w)) ->
  NoDup (List.map Icon.filename (processedIcons (run processImages w)))
  /\ size (zipOf (processedIcons (run processImages w))) =
       (length (files w) * length (parseSizes (sizes w)))%nat.
Proof.
  intros Hs Hok Hn Ht.
  destruct (run_started w Hs) as (_ & _ & _ & _ & H & _).
  destruct (forallb decodes (files w)) eqn:Hd.
  - destruct H as [Hi _].
    assert (Hnd : NoDup (List.map Icon.filename (processedIcons (run processImages w)))).
    { rewrite Hi, iconsOfFiles_filenames by assumption.
      apply product_names_NoDup; [apply parseSizes_Int| |exact Ht].
      now rewrite List.map_map. }
    split; [exact Hnd|].
    assert (Hsz : size (zipOf (processedIcons (run processImages w))) =
                  size (list_to_set (List.map Icon.filename
                          (processedIcons (run processImages w))) : gset string))
      by (rewrite <- size_dom, zip_dom; reflexivity).
    rewrite Hsz, size_list_to_set by exact Hnd.
    rewrite length_map, Hi. now apply iconsOfFiles_length.
  - destruct H as [_ Hf]. destruct (succeeded_not_failed _ _ Hok Hf).
Qed.

Lemma distinct_names_fill_archive_witness :
  started sampleWorld
  /\ succeeded sampleWorld (run processImages sampleWorld)
  /\ size (zipOf (processedIcons (run processImages sampleWorld))) =
       (length (files sampleWorld) * length (parseSizes (sizes sampleWorld)))%nat.
Proof.
  assert (Hs : started sampleWorld) by (split; vm_compute; discriminate).
  assert (Hok : succeeded sampleWorld (run processImages sampleWorld))
    by (exists 2%nat; vm_compute; reflexivity).
  assert (Hn : NoDup (List.map (fun f => baseName (File.name f)) (files sampleWorld)))
    by apply NoDup_singleton.
  assert (Ht : NoDup (parseSizes (sizes sampleWorld))).
  { change (parseSizes (sizes sampleWorld)) with [Int 16; Int 32].
    apply NoDup_cons. split; [|apply NoDup_singleton].
    intros H. apply list_elem_of_singleton in H. discriminate. }
  split; [exact Hs|]. split; [exact Hok|].
  exact (proj2 (distinct_names_fill_archive sampleWorld Hs Hok Hn Ht)).
Defined.

(** ** Downloads *)


Lemma downloadAllAsZip_run (s : Session) :
  processedIcons (page s) <> [] ->
  let w := page s in
  downloadAllAsZip true s =
    (Normal tt,
     mkSession
       (mkWorld (files w) (sizes w) (processedIcons w) (isProcessing w)
          (progress w) (fileInput w)
          (({[ nextURL w ]} ∪ objectURLs w) ∖ {[ nextURL w ]})
          (S (nextURL w))
          (zipToast (length (processedIcons w)) :: toasts w) (progressLog w))
       (dragActive s)
       (Download.mk (nextURL w) "chrome-extension-icons.zip" :: clicks s)
       (<[nextURL w := zipOf (processedIcons w)]> (zipBlobs s))).
Proof.
  intros Hne. cbv zeta. unfold downloadAllAsZip.
  destruct (Nat.eqb (length (processedIcons (page s))) 0) eqn:E.
  - apply length_zero_nil in E. contradiction.
  - reflexivity.
Qed.

(** X12. [downloadAllAsZip] does nothing at all when there is no icon. With
    icons, and when the archive is generated, it clicks once on a link named
    [chrome-extension-icons.zip] whose fresh object URL stands for the
    archive of the current icons, revokes that URL again, so that on a store
    below its next handle the set of live handles is as before, and shows a
    toast that counts the icons, not the entries of the archive. When
    generating the archive fails the handler throws: nothing is clicked, no
    toast is shown and the session is unchanged. *)
Theorem archive_download (s : Session) :
  (processedIcons (page s) = [] ->
     forall resolves, downloadAllAsZip resolves s = (Normal tt, s))
  /\ (processedIcons (page s) <> [] ->
      downloadAllAsZip false s = (Thrown, s)
      /\ (let s' := snd (downloadAllAsZip true s) in
         fst (downloadAllAsZip true s) = Normal tt
         /\ clicks s' =
              Download.mk (nextURL (page s)) "chrome-extension-icons.zip" :: clicks s
         /\ zipBlobs s' !! nextURL (page s) = Some (zipOf (processedIcons (page s)))
         /\ toasts (page s') =
              zipToast (length (processedIcons (page s))) :: toasts (page s)
         /\ processedIcons (page s') = processedIcons (page s)
         /\ files (page s') = files (page s)
         /\ nextURL (page s') = S (nextURL (page s))
         /\ (nextURL (page s) ∉ objectURLs (page s'))
         /\ (storeBelowNext (page s) ->
             objectURLs (page s') = objectURLs (page s)
             /\ storeBelowNext (page s')))).
Proof.
  split.
  - intros E resolves. unfold downloadAllAsZip. rewrite E. reflexivity.
  - intros Hne. split.
    + unfold downloadAllAsZip.
      destruct (Nat.eqb (length (processedIcons (page s))) 0) eqn:E.
      * apply length_zero_nil in E. contradiction.
      * reflexivity.
    + cbv zeta. rewrite (downloadAllAsZip_run s Hne). cbn [fst snd page clicks zipBlobs
        toasts processedIcons files nextURL objectURLs].
      repeat apply conj; try reflexivity.
      * apply lookup_insert_eq.
      * set_solver.
      * intros Hw.
        assert (Hfresh : nextURL (page s) ∉ objectURLs (page s))
          by (intros Hin; specialize (Hw _ Hin); lia).
        split; [set_solver|].
        intros u Hu. cbn [objectURLs nextURL] in Hu |- *.
        apply elem_of_difference in Hu as [Hu _].
        apply elem_of_union in Hu as [Hu|Hu].
        -- apply elem_of_singleton in Hu. lia.
        -- specialize (Hw u Hu). lia.
Qed.

(** ** Sessions *)

Lemma settled_frame (w w' : World) :
  isProcessing w' = isProcessing w -> objectURLs w' = objectURLs w ->
  nextURL w' = nextURL w -> processedIcons w' = processedIcons w ->
  settled w -> settled w'.
Proof.
  intros H1 H2 H3 H4 (S1 & S2 & S3 & S4 & S5).
  unfold settled, storeBelowNext, handlesLive. rewrite H1, H2, H3, H4.
  repeat apply conj; assumption.
Qed.

Lemma clearAll_world (w : World) :
  run clearAll w =
  mkWorld [] (sizes w) [] (isProcessing w) 0 ""
    (objectURLs w ∖ list_to_set (List.map Icon.url (processedIcons w)))
    (nextURL w) (toasts w) (0%float :: progressLog w).
Proof.
  destruct (revokeAll_spec (processedIcons w) w)
    as (w' & E & Hu & Hp & Hl & Hn & Ho).
  unfold run, clearAll. unfold bind at 1. rewrite E.
  unfold untouched in Hu. injection Hu as H1 H2 H3 H4 H5 H6.
  cbn. rewrite H2, H4, H6, Hl, Hn, Ho. reflexivity.
Qed.

Lemma run_settled (w : World) : settled w -> settled (run processImages w).
Proof.
  intros (S1 & S2 & S3 & S4 & S5).
  destruct (classic_started w) as [Hs|Hn].
  - destruct (run_store_loop w Hs) as (Ho & Hn). cbv zeta in Ho, Hn.
    destruct (run_started w Hs) as (_ & _ & _ & Hp & H & _).
    match type of Ho with _ = objectURLs (snd (forOf _ _ ?l ?v)) =>
      assert (Hv : storeBelowNext v) by exact S2;
      destruct (renderFiles_store (parseSizes (sizes w))
                  (Z.of_nat (length (files w) * length (parseSizes (sizes w))))
                  (files w) l v Hv) as (R1 & R2 & R3) end.
    cbv zeta in R1, R2. cbn [nextURL objectURLs] in R1, R2.
    destruct (iconsOfFiles_urls (files w) (parseSizes (sizes w)) (nextURL w))
      as [U1 U2].
    assert (Hbelow : storeBelowNext (run processImages w))
      by (intros u Hu; rewrite Ho in Hu; rewrite Hn; exact (R3 u Hu)).
    destruct (forallb decodes (files w)) eqn:Hd; destruct H as [Hi _].
    + repeat apply conj; try assumption.
      * intros icon Hin. rewrite Hi in Hin.
        apply (in_map Icon.url) in Hin.
        assert (Hlive : Icon.url icon ∈ objectURLs (run processImages w)).
        { rewrite Ho, R2. apply elem_of_union_l, elem_of_union_r.
          now apply elem_of_list_to_set, list_elem_of_In. }
        split; [exact Hlive|exact (Hbelow _ Hlive)].
      * rewrite Hi. exact U2.
      * rewrite Hi. apply iconsOfFiles_named.
    + repeat apply conj; try assumption.
      * intros icon Hin. rewrite Hi in Hin. destruct (S3 icon Hin) as [Hl Hlt].
        assert (Hlive : Icon.url icon ∈ objectURLs (run processImages w))
          by (rewrite Ho, R2; now apply elem_of_union_r).
        split; [exact Hlive|exact (Hbelow _ Hlive)].
      * now rewrite Hi.
      * now rewrite Hi.
  - destruct (validation_rejected_run w Hn) as (t & _ & E).
    unfold run. rewrite E. cbn [snd].
    apply (settled_frame w); try reflexivity.
    repeat apply conj; assumption.
Qed.

Lemma clearAll_settled (w : World) : settled w -> settled (run clearAll w).
Proof.
  intros (S1 & S2 & S3 & S4 & S5). rewrite clearAll_world.
  repeat apply conj; cbn.
  - exact S1.
  - intros u Hu. cbn in Hu |- *. apply elem_of_difference in Hu as [Hu _].
    exact (S2 u Hu).
  - intros icon [].
  - constructor.
  - constructor.
Qed.

Lemma step_settled (s : Session) (e : event) :
  settled (page s) -> settled (page (step s e)).
Proof.
  intros Hs. unfold step. destruct e as [type|tr|tf|text| |i|resolves| ];
    cbn [dispatch].
  - unfold handleDrag.
    destruct (String.eqb type "dragenter" || String.eqb type "dragover");
      [exact Hs|]. destruct (String.eqb type "dragleave"); exact Hs.
  - rewrite handleDrop_run. cbn [snd].
    destruct (List.filter accepts tr); cbn [page]; [exact Hs|].
    apply (settled_frame (page s)); try reflexivity. exact Hs.
  - destruct tf as [fileList|]; [|exact Hs].
    unfold handleFileSelect, bindUI, onPage, setFiles, toast. cbn [snd page].
    apply (settled_frame (page s)); try reflexivity. exact Hs.
  - unfold onPage, setSizes. cbn [snd page].
    apply (settled_frame (page s)); try reflexivity. exact Hs.
  - destruct (generateDisabled (page s)); [exact Hs|].
    unfold onPage. pose proof (run_settled (page s) Hs) as H. unfold run in H.
    destruct (processImages (page s)) as [r w']. exact H.
  - destruct (nth_error (processedIcons (page s)) i); exact Hs.
  - destruct (resultsShown (page s)) eqn:Hr; [|exact Hs].
    assert (Hne : processedIcons (page s) <> []).
    { intros E. unfold resultsShown in Hr. rewrite E in Hr. discriminate. }
    destruct resolves.
    + rewrite (downloadAllAsZip_run s Hne). cbn [snd page].
      destruct Hs as (S1 & S2 & S3 & S4 & S5).
      assert (Hfresh : nextURL (page s) ∉ objectURLs (page s))
        by (intros Hin; specialize (S2 _ Hin); lia).
      repeat apply conj; cbn; try assumption.
      * intros u Hu. cbn in Hu |- *. apply elem_of_difference in Hu as [Hu _].
        apply elem_of_union in Hu as [Hu|Hu].
        -- apply elem_of_singleton in Hu. lia.
        -- specialize (S2 u Hu). lia.
      * intros icon Hin. cbn in Hin |- *. destruct (S3 icon Hin) as [Hl Hlt].
        split; [|lia]. apply elem_of_difference. split; [set_solver|].
        intros Hx. apply elem_of_singleton in Hx. lia.
    + unfold downloadAllAsZip.
      destruct (Nat.eqb (length (processedIcons (page s))) 0); exact Hs.
  - destruct (resultsShown (page s)); [|exact Hs].
    unfold onPage. pose proof (clearAll_settled (page s) Hs) as H. unfold run in H.
    destruct (clearAll (page s)) as [r w']. exact H.
Qed.

Lemma runEvents_settled (es : list event) :
  forall s, settled (page s) -> settled (page (runEvents s es)).
Proof.
  induction es as [|e es IH]; intros s Hs; cbn [runEvents fold_left]; [exact Hs|].
  apply IH. now apply step_settled.
Qed.

Lemma initial_settled : settled (page initialSession).
Proof.
  repeat apply conj; cbn.
  - reflexivity.
  - intros u Hu. cbn in Hu. apply not_elem_of_empty in Hu. destruct Hu.
  - intros icon [].
  - constructor.
  - constructor.
Qed.

(** X13. Whatever the user does, one event after the other, starting from
    the page as first rendered, the page is settled after every event: no run is left in progress, every
    visible icon holds a live object URL handed out by the store, the
    handles of the visible icons are pairwise distinct (also when their ids
    or file names coincide), and every icon bears the file name and id
    derived from its source name and size. *)
Theorem reachable_settled (es : list event) :
  let w := page (runEvents initialSession es) in
  isProcessing w = false
  /\ (forall u, u ∈ objectURLs w -> (u < nextURL w)%nat)
  /\ (forall icon, In icon (processedIcons w) -> Icon.url icon ∈ objectURLs w)
  /\ NoDup (List.map Icon.url (processedIcons w))
  /\ Forall (fun icon =>
               Icon.filename icon =
                 outputName (Icon.originalName icon) (Icon.size icon)
               /\ Icon.id icon = iconId (Icon.originalName icon) (Icon.size icon))
       (processedIcons w).
Proof.
  cbv zeta.
  destruct (runEvents_settled es initialSession initial_settled)
    as (S1 & S2 & S3 & S4 & S5).
  split; [exact S1|]. split; [exact S2|]. split; [|split; [exact S4|exact S5]].
  intros icon Hin. exact (proj1 (S3 icon Hin)).
Qed.

(** X14. Clicking Download on a result card, in any state the page can
    reach, clicks a link whose [href] is the icon's object URL, live in the
    store at that moment, and whose download name is the file name derived
    from the icon's source name and size; the page itself is not changed. *)
Theorem icon_download (es : list event) (i : nat) (icon : Icon.t) :
  let s := runEvents initialSession es in
  nth_error (processedIcons (page s)) i = Some icon ->
  clicks (step s (DownloadIcon i)) =
    Download.mk (Icon.url icon)
      (outputName (Icon.originalName icon) (Icon.size icon)) :: clicks s
  /\ Icon.url icon ∈ objectURLs (page (step s (DownloadIcon i)))
  /\ page (step s (DownloadIcon i)) = page s.
Proof.
  cbv zeta. intros Hi.
  destruct (runEvents_settled es initialSession initial_settled)
    as (_ & _ & S3 & _ & S5).
  pose proof (nth_error_In _ _ Hi) as Hin.
  rewrite List.Forall_forall in S5. destruct (S5 icon Hin) as [Hname _].
  unfold step. cbn [dispatch]. rewrite Hi. unfold downloadIcon, click.
  cbn [snd clicks page]. rewrite Hname.
  split; [reflexivity|]. split; [exact (proj1 (S3 icon Hin))|reflexivity].
Qed.

Lemma icon_download_witness :
  nth_error
    (processedIcons
       (page (runEvents initialSession
                [Select (Some [Upload.mk (File.mk "logo.svg" (Some (64, 64)))
                                 "image/svg+xml"]);
                 Generate]))) 1 =
    Some (iconFor (File.mk "logo.svg" (Some (64, 64))) (64, 64) (Int 32) 2)
  /\ clicks
       (step
          (runEvents initialSession
             [Select (Some [Upload.mk (File.mk "logo.svg" (Some (64, 64)))
                              "image/svg+xml"]);
              Generate])
          (DownloadIcon 1)) =
     [Download.mk 2 "logo_32x32.png"].
Proof.
  assert (H : nth_error
    (processedIcons
       (page (runEvents initialSession
                [Select (Some [Upload.mk (File.mk "logo.svg" (Some (64, 64)))
                                 "image/svg+xml"]);
                 Generate]))) 1 =
    Some (iconFor (File.mk "logo.svg" (Some (64, 64))) (64, 64) (Int 32) 2))
    by (vm_compute; reflexivity).
  split; [exact H|].
  exact (proj1 (icon_download
                  [Select (Some [Upload.mk (File.mk "logo.svg" (Some (64, 64)))
                                   "image/svg+xml"]);
                   Generate] 1 _ H)).
Defined.

Lemma run_new_urls (w : World) :
  started w -> forallb decodes (files w) = true ->
  forall icon, In icon (processedIcons (run processImages w)) ->
    (nextURL w < Icon.url icon)%nat.
Proof.
  intros Hs Hd icon Hin.
  destruct (run_started w Hs) as (_ & _ & _ & _ & H & _).
  rewrite Hd in H. destruct H as [Hi _]. rewrite Hi in Hin.
  destruct (iconsOfFiles_urls (files w) (parseSizes (sizes w)) (nextURL w))
    as [U1 _].
  rewrite List.Forall_forall in U1.
  apply (in_map Icon.url) in Hin. specialize (U1 _ Hin). cbn in U1. lia.
Qed.

Lemma run_orphan (u : nat) (w : World) :
  orphan u w -> orphan u (run processImages w).
Proof.
  intros (H1 & H2 & H3).
  destruct (classic_started w) as [Hs|Hn].
  - destruct (run_started w Hs) as (_ & _ & _ & _ & H & _ & Hle & Hkeep).
    split; [now apply Hkeep|]. split; [lia|].
    destruct (forallb decodes (files w)) eqn:Hd.
    + intros Hin. apply in_map_iff in Hin as (icon & <- & Hin).
      pose proof (run_new_urls w Hs Hd icon Hin). lia.
    + destruct H as [-> _]. exact H3.
  - destruct (validation_rejected_run w Hn) as (t & _ & E).
    unfold run. rewrite E. cbn [snd]. repeat apply conj; assumption.
Qed.

Lemma step_orphan (u : nat) (s : Session) (e : event) :
  orphan u (page s) -> orphan u (page (step s e)).
Proof.
  intros Ho. unfold step. destruct e as [type|tr|tf|text| |i|resolves| ];
    cbn [dispatch].
  - unfold handleDrag.
    destruct (String.eqb type "dragenter" || String.eqb type "dragover");
      [exact Ho|]. destruct (String.eqb type "dragleave"); exact Ho.
  - rewrite handleDrop_run. cbn [snd].
    destruct (List.filter accepts tr); exact Ho.
  - destruct tf as [fileList|]; exact Ho.
  - exact Ho.
  - destruct (generateDisabled (page s)); [exact Ho|].
    unfold onPage. pose proof (run_orphan u (page s) Ho) as H. unfold run in H.
    destruct (processImages (page s)) as [r w']. exact H.
  - destruct (nth_error (processedIcons (page s)) i); exact Ho.
  - destruct (resultsShown (page s)) eqn:Hr; [|exact Ho].
    assert (Hne : processedIcons (page s) <> []).
    { intros E. unfold resultsShown in Hr. rewrite E in Hr. discriminate. }
    destruct resolves.
    + rewrite (downloadAllAsZip_run s Hne). cbn [snd page].
      destruct Ho as (H1 & H2 & H3). repeat apply conj; cbn.
      * apply elem_of_difference. split; [set_solver|].
        intros Hx. apply elem_of_singleton in Hx. lia.
      * lia.
      * exact H3.
    + unfold downloadAllAsZip.
      destruct (Nat.eqb (length (processedIcons (page s))) 0); exact Ho.
  - destruct (resultsShown (page s)); [|exact Ho].
    unfold onPage. pose proof (clearAll_world (page s)) as E. unfold run in E.
    destruct (clearAll (page s)) as [r w']. cbn [snd page] in E |- *. rewrite E.
    destruct Ho as (H1 & H2 & H3). repeat apply conj; cbn.
    + apply elem_of_difference. split; [exact H1|].
      intros Hx. apply elem_of_list_to_set, list_elem_of_In in Hx. contradiction.
    + exact H2.
    + intros [].
Qed.

(** X15. A live handle that no visible icon holds is never released: once
    a handle is orphaned, by a run that replaced the results or by a run
    that failed, it is still live and still held by no visible icon after
    every further event, [Clear] included. *)
Theorem orphans_stay (s : Session) (u : nat) (es : list event) :
  orphan u (page s) -> orphan u (page (runEvents s es)).
Proof.
  revert s. induction es as [|e es IH]; intros s Ho; cbn [runEvents fold_left].
  - exact Ho.
  - apply IH. now apply step_orphan.
Qed.

Lemma orphans_stay_witness :
  orphan 1
    (page (runEvents initialSession
             [Select (Some [Upload.mk (File.mk "logo.png" (Some (64, 64))) "image/png"]);
              Generate; Generate]))
  /\ orphan 1
       (page (runEvents
                (runEvents initialSession
                   [Select (Some [Upload.mk (File.mk "logo.png" (Some (64, 64)))
                                    "image/png"]);
                    Generate; Generate])
                [Clear; Drag "dragenter"])).
Proof.
  assert (H : orphan 1
    (page (runEvents initialSession
             [Select (Some [Upload.mk (File.mk "logo.png" (Some (64, 64))) "image/png"]);
              Generate; Generate]))).
  { repeat apply conj.
    - apply (bool_decide_unpack _). vm_compute. exact I.
    - vm_compute. lia.
    - vm_compute. intros [H|[H|[H|[H|[]]]]]; discriminate. }
  split; [exact H|]. exact (orphans_stay _ 1 [Clear; Drag "dragenter"] H).
Defined.

(** X16. The button never reports missing files: a click on Generate does
    nothing while the button is disabled, that is during a run or with no
    file chosen, and otherwise calls [processImages] with at least one file,
    so the toast it shows is never the one for no files selected. *)
Theorem generate_never_reports_no_files (s : Session) :
  (generateDisabled (page s) = true -> step s Generate = s)
  /\ (generateDisabled (page s) = false ->
      page (step s Generate) = run processImages (page s)
      /\ files (page s) <> []
      /\ (rejected (page s) (page (step s Generate)) ->
          toasts (page (step s Generate)) = invalidSizesToast :: toasts (page s)))
  /\ toasts (page (step s Generate)) <> noFilesToast :: toasts (page s).
Proof.
  unfold step. cbn [dispatch].
  destruct (generateDisabled (page s)) eqn:Hg.
  - cbn [retUI snd]. split; [reflexivity|]. split; [discriminate|].
    intros E. apply (f_equal (@length _)) in E. cbn in E. lia.
  - assert (Hf : files (page s) <> []).
    { intros E. unfold generateDisabled in Hg. rewrite E in Hg.
      rewrite orb_true_r in Hg. discriminate. }
    assert (Hp : page (snd (onPage processImages s)) = run processImages (page s)).
    { unfold onPage, run. destruct (processImages (page s)). reflexivity. }
    rewrite Hp.
    assert (Hno : toasts (run processImages (page s)) <>
                  noFilesToast :: toasts (page s)).
    { destruct (classic_started (page s)) as [Hs|[Hn|Hn]].
      - destruct (run_started (page s) Hs) as (_ & _ & _ & _ & H & _).
        destruct (forallb decodes (files (page s))); destruct H as [_ H].
        + destruct H as [n H]. rewrite H. discriminate.
        + unfold failed in H. rewrite H. discriminate.
      - contradiction.
      - unfold run. rewrite processImages_no_sizes by assumption.
        unfold toast. cbn. discriminate. }
    split; [discriminate|]. split; [|exact Hno].
    intros _. split; [reflexivity|]. split; [exact Hf|].
    intros (t & [->| ->] & Ht); [contradiction|exact Ht].
Qed.

(** ** Running again *)

Lemma iconsOfSizes_view file img sizeArray :
  forall u u',
  List.map view (iconsOfSizes file img sizeArray u) =
  List.map view (iconsOfSizes file img sizeArray u').
Proof.
  induction sizeArray as [|size rest IH]; intros u u'; cbn [iconsOfSizes List.map];
    [reflexivity|].
  now rewrite (IH (S u) (S u')).
Qed.

Lemma iconsOfFiles_view fs sizeArray :
  forall u u',
  List.map view (iconsOfFiles fs sizeArray u) =
  List.map view (iconsOfFiles fs sizeArray u').
Proof.
  induction fs as [|file rest IH]; intros u u'; cbn [iconsOfFiles]; [reflexivity|].
  destruct (File.image file); [|reflexivity].
  rewrite !List.map_app.
  now rewrite (iconsOfSizes_view file p sizeArray (S u) (S u')),
    (IH (S u + length sizeArray)%nat (S u' + length sizeArray)%nat).
Qed.

Lemma page_step_generate (s : Session) :
  generateDisabled (page s) = false ->
  page (step s Generate) = run processImages (page s).
Proof.
  intros Hg. unfold step. cbn [dispatch]. rewrite Hg.
  unfold onPage, run. destruct (processImages (page s)). reflexivity.
Qed.

Lemma page_step_clear (s : Session) :
  resultsShown (page s) = true ->
  page (step s Clear) = run clearAll (page s).
Proof.
  intros Hr. unfold step. cbn [dispatch]. rewrite Hr.
  unfold onPage, run. destruct (clearAll (page s)). reflexivity.
Qed.

Lemma page_step_select (s : Session) (fileList : list Upload.t) :
  let w := page s in
  page (step s (Select (Some fileList))) =
  mkWorld (files w ++ List.map Upload.file (List.filter accepts fileList))%list
    (sizes w) (processedIcons w) (isProcessing w) (progress w) (fileInput w)
    (objectURLs w) (nextURL w)
    (filesSelectedToast (length (List.filter accepts fileList)) :: toasts w)
    (progressLog w).
Proof. reflexivity. Qed.

(** X17. Running again reproduces the icons. From a settled page on which
    a run completes, generate the icons, clear, choose again files of which
    the accepted ones are the files used before, and generate: the second
    run completes with the same icons in the same order (ids, source names,
    sizes, blobs and file names), each under a new object URL higher than
    every URL of the first run. *)
Theorem rerun_reproduces (s : Session) (chosen : list Upload.t) :
  settled (page s) ->
  started (page s) ->
  forallb decodes (files (page s)) = true ->
  List.map Upload.file (List.filter accepts chosen) = files (page s) ->
  let s1 := step s Generate in
  let s2 := runEvents s1 [Clear; Select (Some chosen); Generate] in
  processedIcons (page s1) <> []
  /\ succeeded (page s) (page s1)
  /\ List.map view (processedIcons (page s2)) =
     List.map view (processedIcons (page s1))
  /\ (exists n, hd_error (toasts (page s2)) = Some (completeToast n))
  /\ (forall a b, In a (processedIcons (page s1)) -> In b (processedIcons (page s2)) ->
        (Icon.url a < Icon.url b)%nat).
Proof.
  intros Hset Hs Hd Hch. cbv zeta.
  destruct Hset as (S1 & S2 & S3 & S4 & S5).
  set (w := page s) in *.
  assert (Hg : generateDisabled w = false).
  { unfold generateDisabled. rewrite S1. destruct Hs as [Hf _].
    destruct (files w); [contradiction|reflexivity]. }
  rewrite (page_step_generate s Hg). fold w.
  set (w1 := run processImages w).
  pose proof (run_started w Hs) as (F1 & F2 & _ & F4 & F5 & _).
  fold w1 in F1, F2, F4, F5. rewrite Hd in F5. destruct F5 as [Hi1 Hok1].
  assert (Hlen : length (processedIcons w1) =
                 (length (files w) * length (parseSizes (sizes w)))%nat)
    by (rewrite Hi1; now apply iconsOfFiles_length).
  assert (Hne : processedIcons w1 <> []).
  { intros E. rewrite E in Hlen. destruct Hs as [Hf Ht].
    destruct (files w); [contradiction|].
    destruct (parseSizes (sizes w)); [contradiction|]. discriminate. }
  (* the first run takes handles up to its next one *)
  destruct (run_store_loop w Hs) as (_ & Hn1). cbv zeta in Hn1. fold w1 in Hn1.
  match type of Hn1 with _ = nextURL (snd (forOf _ _ ?l ?v)) =>
    assert (Hv : storeBelowNext v) by exact S2;
    destruct (renderFiles_store (parseSizes (sizes w))
                (Z.of_nat (length (files w) * length (parseSizes (sizes w))))
                (files w) l v Hv) as (R1 & _ & _) end.
  cbv zeta in R1. cbn [nextURL] in R1.
  rewrite Hd, decodedPrefix_all in R1 by assumption. rewrite <- Hn1 in R1.
  destruct (iconsOfFiles_urls (files w) (parseSizes (sizes w)) (nextURL w))
    as [U1 _].
  rewrite decodedPrefix_all in U1 by assumption.
  (* clear, choose, generate *)
  cbn [runEvents fold_left].
  set (s1 := step s Generate).
  assert (Hp1 : page s1 = w1) by (unfold s1; now apply page_step_generate).
  assert (Hr : resultsShown (page s1) = true).
  { rewrite Hp1. unfold resultsShown. destruct (processedIcons w1);
      [contradiction|reflexivity]. }
  set (s2 := step s1 Clear).
  assert (Hp2 : page s2 = run clearAll w1)
    by (unfold s2; rewrite page_step_clear by assumption; now rewrite Hp1).
  rewrite clearAll_world in Hp2.
  set (s3 := step s2 (Select (Some chosen))).
  assert (Hp3 : page s3 =
    mkWorld (files w) (sizes w) [] false 0 ""
      (objectURLs w1 ∖ list_to_set (List.map Icon.url (processedIcons w1)))
      (nextURL w1)
      (filesSelectedToast (length (List.filter accepts chosen)) :: toasts w1)
      (0%float :: progressLog w1)).
  { unfold s3. rewrite page_step_select. cbv zeta. rewrite Hp2.
    cbn [files sizes processedIcons isProcessing progress fileInput objectURLs
         nextURL toasts progressLog app].
    now rewrite Hch, F2, F4. }
  assert (Hg3 : generateDisabled (page s3) = false).
  { rewrite Hp3. unfold generateDisabled. cbn [isProcessing files orb].
    destruct Hs as [Hf _]. destruct (files w); [contradiction|reflexivity]. }
  rewrite (page_step_generate s3 Hg3).
  assert (Hs3 : started (page s3)) by (rewrite Hp3; exact Hs).
  pose proof (run_started (page s3) Hs3) as (_ & _ & _ & _ & G5 & _).
  assert (Hd3 : forallb decodes (files (page s3)) = true) by (rewrite Hp3; exact Hd).
  rewrite Hd3 in G5. destruct G5 as [Hi3 Hok3].
  destruct (iconsOfFiles_urls (files (page s3)) (parseSizes (sizes (page s3)))
              (nextURL (page s3))) as [U3 _].
  rewrite <- Hi3 in U3.
  split; [exact Hne|]. split; [exact Hok1|]. split; [|split].
  - rewrite Hi3, Hi1, Hp3. cbn [files sizes nextURL]. apply iconsOfFiles_view.
  - destruct Hok3 as [n Hn]. exists n. now rewrite Hn.
  - intros a b Ha Hb. rewrite Hi1 in Ha.
    rewrite List.Forall_forall in U1, U3.
    apply (in_map Icon.url) in Ha, Hb.
    specialize (U1 _ Ha). specialize (U3 _ Hb).
    rewrite Hp3 in U3. cbn [nextURL] in U3. cbn beta in U1, U3. lia.
Qed.

Lemma rerun_reproduces_witness :
  settled (page (mkSession sampleWorld false [] ∅))
  /\ started (page (mkSession sampleWorld false [] ∅))
  /\ List.map view
       (processedIcons
          (page (runEvents (step (mkSession sampleWorld false [] ∅) Generate)
                   [Clear;
                    Select (Some [Upload.mk (File.mk "logo.png" (Some (64, 64)))
                                    "image/png";
                                  Upload.mk (File.mk "notes.txt" None) "text/plain"]);
                    Generate]))) =
     List.map view
       (processedIcons (page (step (mkSession sampleWorld false [] ∅) Generate))).
Proof.
  assert (Hset : settled (page (mkSession sampleWorld false [] ∅))).
  { repeat apply conj; cbn.
    - reflexivity.
    - intros u Hu. cbn in Hu. apply not_elem_of_empty in Hu. destruct Hu.
    - intros icon [].
    - constructor.
    - constructor. }
  assert (Hs : started (page (mkSession sampleWorld false [] ∅)))
    by (split; vm_compute; discriminate).
  split; [exact Hset|]. split; [exact Hs|].
  exact (proj1 (proj2 (proj2
           (rerun_reproduces (mkSession sampleWorld false [] ∅)
              [Upload.mk (File.mk "logo.png" (Some (64, 64))) "image/png";
               Upload.mk (File.mk "notes.txt" None) "text/plain"]
              Hset Hs eq_refl eq_refl)))).
Defined.
